(** * Farkle / Zehntausend engine: the two engines of the repository

    The repository carries the same game engine twice:
    - [src/web-ui/src/farkle-engine.ts]  (class FarkleEngine, module [TS]),
    - [src/src/farkle_core.cpp]          (class FarkleEngine, module [Cpp]).

    Both are embedded below, function by function.  Scores, face values and
    die ids are integers ([Z]); counts of dice are naturals.  The scores of
    the C++ engine are [int]s: its sums and products are reduced to 32 bits
    ([Cpp.wrap_int]), so a total that passes 2^31 - 1 turns negative, as it
    does in the compiled engine.  The scores of the TypeScript engine are
    JavaScript numbers, which add integers exactly below 2^53; its sums are
    written as they stand.

    The random source is an explicit argument of every operation that
    draws from it: [rnd k] is the k-th outcome the source yields during
    that call.  For C++ an outcome is the result of
    [std::uniform_int_distribution<>(1, 6)]; for TypeScript it is the
    result of [Math.random()], a number r with 0 <= r < 1, kept as a
    rational. *)

From Stdlib Require Import ZArith QArith Qround Lia Lqa.
From stdpp Require Import base list gmap strings.

Close Scope Q_scope.
Open Scope Z_scope.

(** ** Data model shared by the two engines *)

(** [enum class DieState { ROLLED, KEPT, BANKED }],
    [type DieState = 'rolled' | 'kept' | 'banked'] *)
Inductive DieState : Type := Rolled | Kept | Banked.

(** [enum class GameStatus { ROLLING, FARKLE, BUST, WIN }],
    [type GameStatus = 'rolling' | 'farkle' | 'bust' | 'win'] *)
Inductive GameStatus : Type := Rolling | Farkle | Bust | Win.

#[global] Instance DieState_eq_dec : EqDecision DieState.
Proof. solve_decision. Defined.

#[global] Instance GameStatus_eq_dec : EqDecision GameStatus.
Proof. solve_decision. Defined.

(** [struct Die { int id; int value; DieState state; }] *)
Record Die : Type := mkDie { id : Z; value : Z; state : DieState }.

Definition set_state (st : DieState) (d : Die) : Die :=
  {| id := id d; value := value d; state := st |}.

Definition set_value (v : Z) (d : Die) : Die :=
  {| id := id d; value := v; state := state d |}.

(** ** Loops over the dice pool

    Each definition is one loop of the sources; the two engines run the
    same loops over their pool. *)

(** [for (auto& d : dice) if (d.state == KEPT) d.state = BANKED;]
    [this.dice.filter(d => d.state === 'kept').forEach(d => d.state = 'banked')] *)
Definition bank_kept (ds : list Die) : list Die :=
  (λ d, if decide (state d = Kept) then set_state Banked d else d) <$> ds.

(** [for (auto& d : dice) d.state = ROLLED;]
    [this.dice.forEach(d => d.state = 'rolled')] *)
Definition reset_rolled (ds : list Die) : list Die :=
  set_state Rolled <$> ds.

(** The rolling loop: every die in state Rolled, in pool order, takes the
    next outcome of the source; the values drawn are collected
    ([rolled_values.push_back(d.value)]).  [k] is the number of outcomes
    already consumed. *)
Fixpoint roll_rolled (draw : nat → Z) (k : nat) (ds : list Die)
  : list Die * list Z :=
  match ds with
  | [] => ([], [])
  | d :: ds' =>
      if decide (state d = Rolled) then
        let '(out, vals) := roll_rolled draw (S k) ds' in
        (set_value (draw k) d :: out, draw k :: vals)
      else
        let '(out, vals) := roll_rolled draw k ds' in
        (d :: out, vals)
  end.

(** [for (auto& d : dice) if (d.value == val && d.state == KEPT) d.state = ROLLED;]
    [keptOfVal.forEach(d => d.state = 'rolled')] *)
Definition unkeep_value (val : Z) (ds : list Die) : list Die :=
  (λ d, if decide (value d = val ∧ state d = Kept)
        then set_state Rolled d else d) <$> ds.

(** [for (auto& d : dice)
       if (d.value == val && d.state == ROLLED && needed > 0)
         { d.state = KEPT; needed--; }]
    and, with [needed = 3], [rolledOfVal.slice(0, 3).forEach(d => d.state = 'kept')] *)
Fixpoint promote (val : Z) (needed : nat) (ds : list Die) : list Die :=
  match ds with
  | [] => []
  | d :: ds' =>
      if decide (value d = val ∧ state d = Rolled ∧ (0 < needed)%nat) then
        set_state Kept d :: promote val (needed - 1) ds'
      else d :: promote val needed ds'
  end.

(** Values of the dice in a given state, in pool order. *)
Definition values_in (st : DieState) (ds : list Die) : list Z :=
  value <$> filter (λ d, state d = st) ds.

(** Number of dice of face value [v] in state [st]. *)
Definition count_in (st : DieState) (v : Z) (ds : list Die) : nat :=
  length (filter (λ d, value d = v ∧ state d = st) ds).

(** Number of dice in state [st]. *)
Definition count_state (st : DieState) (ds : list Die) : nat :=
  length (filter (λ d, state d = st) ds).

(** Number of occurrences of [v] in a list of face values. *)
Definition occurrences (v : Z) (vs : list Z) : nat :=
  length (filter (λ x, x = v) vs).

(** ** The scoring rule as the specification words it

    For each face value with count c >= 3: base * 2^(c-3), base being 1000
    for ones and value*100 otherwise; below three, ones score 100 each,
    fives 50 each, the other faces nothing. *)
Definition base_score (v : Z) : Z := if decide (v = 1) then 1000 else v * 100.

Definition canonical_group (v : Z) (c : nat) : Z :=
  if decide (3 ≤ c)%nat then base_score v * 2 ^ (Z.of_nat c - 3)
  else if decide (v = 1) then 100 * Z.of_nat c
  else if decide (v = 5) then 50 * Z.of_nat c
  else 0.

Definition canonical_score (vs : list Z) : Z :=
  foldr (λ v acc, canonical_group v (occurrences v vs) + acc) 0 [1; 2; 3; 4; 5; 6].

(** The rule of the TypeScript engine in closed form: every complete group
    of three scores the base once, what is left over scores as singles. *)
Definition flat_group (v : Z) (c : nat) : Z :=
  base_score v * Z.of_nat (c / 3)
  + (if decide (v = 1) then 100 * Z.of_nat (c mod 3)
     else if decide (v = 5) then 50 * Z.of_nat (c mod 3)
     else 0).

Definition flat_score (vs : list Z) : Z :=
  foldr (λ v acc, flat_group v (occurrences v vs) + acc) 0 [1; 2; 3; 4; 5; 6].

(** ** The C++ engine, [src/src/farkle_core.cpp] *)
Module Cpp.

Record Engine : Type := mkEngine {
  player_scores : list Z;
  current_player_index : nat;
  dice : list Die;
  turn_score : Z;
  current_keep_score : Z;
  status : GameStatus;
  message : string }.

(** The scores are C++ [int]s, 32 bits wide.  [wrap_int z] is the [int]
    that holds the low 32 bits of [z] in two's complement: the value the
    compiled engine is left with when a sum or a product leaves the range
    of [int] (the language itself leaves that case undefined). *)
Definition INT_MIN : Z := -2147483648.
Definition INT_MAX : Z := 2147483647.

Definition wrap_int (z : Z) : Z := (z + 2147483648) mod 4294967296 - 2147483648.

(** [a + b], [a * b] and [a << k] on [int].  A shift by 32 or more, which
    the language leaves undefined as well and machines treat differently,
    has here the value the low 32 bits hold, 0; it takes thirty-five dice
    of one face to get there, and the theorems that speak of the value of
    a score are stated for the six dice of the pool. *)
Definition add (a b : Z) : Z := wrap_int (a + b).
Definition mul (a b : Z) : Z := wrap_int (a * b).
Definition shl (a k : Z) : Z := wrap_int (Z.shiftl a k).

(** [std::map<int,int>::operator[]]: the entry read, inserted as 0 when
    it was absent. *)
Definition subscript (counts : gmap Z nat) (k : Z) : nat * gmap Z nat :=
  match counts !! k with
  | Some c => (c, counts)
  | None => (0%nat, <[k := 0%nat]> counts)
  end.

(** [std::map<int, int> counts; for (int v : values) counts[v]++;] *)
Definition count_values (values : list Z) : gmap Z nat :=
  foldl (λ counts v, let '(c, counts') := subscript counts v in
                     <[v := S c]> counts') ∅ values.

(** [has_scoring_potential] *)
Definition has_scoring_potential (values : list Z) : bool :=
  let counts := count_values values in
  let '(c1, counts) := subscript counts 1 in
  if bool_decide (0 < c1)%nat then true
  else
    let '(c5, counts) := subscript counts 5 in
    if bool_decide (0 < c5)%nat then true
    else existsb (λ '(_, count), bool_decide (3 ≤ count)%nat) (map_to_list counts).

(** Body of the loop [for (int i = 1; i <= 6; ++i)] of [evaluate_scoring],
    on the loop state (counts, score). *)
Definition score_face (st : gmap Z nat * Z) (i : Z) : gmap Z nat * Z :=
  let '(counts, score) := st in
  let '(count, counts) := subscript counts i in
  let '(score, count) :=
    if bool_decide (3 ≤ count)%nat then
      let base := if decide (i = 1) then 1000 else mul i 100 in
      (add score (mul base (shl 1 (Z.of_nat count - 3))), 0%nat)
    else (score, count) in
  let score := if decide (i = 1) then add score (mul (Z.of_nat count) 100) else score in
  let score := if decide (i = 5) then add score (mul (Z.of_nat count) 50) else score in
  (counts, score).

(** [evaluate_scoring] *)
Definition evaluate_scoring (values : list Z) : Z :=
  snd (foldl score_face (count_values values, 0) [1; 2; 3; 4; 5; 6]).

(** [recalc_keep_score] *)
Definition recalc_keep_score (s : Engine) : Engine :=
  let kept_values := values_in Kept (dice s) in
  {| player_scores := player_scores s;
     current_player_index := current_player_index s;
     dice := dice s;
     turn_score := turn_score s;
     current_keep_score := evaluate_scoring kept_values;
     status := status s;
     message := message s |}.

(** [roll]; [rnd k] is the k-th value [dis(gen)] returns during the call. *)
Definition roll (rnd : nat → Z) (s : Engine) : Engine :=
  (* 1. Permanentize kept dice *)
  let dice1 := bank_kept (dice s) in
  let turn1 := add (turn_score s) (current_keep_score s) in
  (* 2. Hot Hand check *)
  let any_to_roll := existsb (λ d, bool_decide (state d = Rolled)) dice1 in
  let dice2 := if any_to_roll then dice1 else reset_rolled dice1 in
  (* 3. Roll *)
  let '(dice3, rolled_values) := roll_rolled rnd 0 dice2 in
  (* 4. Farkle check *)
  if negb (has_scoring_potential rolled_values) then
    {| player_scores := player_scores s;
       current_player_index := current_player_index s;
       dice := dice3;
       turn_score := 0;
       current_keep_score := 0;
       status := Farkle;
       message := message s |}
  else
    {| player_scores := player_scores s;
       current_player_index := current_player_index s;
       dice := dice3;
       turn_score := turn1;
       current_keep_score := 0;
       status := Rolling;
       message := message s |}.

(** The pool as steps 1 and 2 of [roll] leave it, when the rolling loop
    of step 3 starts. *)
Definition pool_before_roll (s : Engine) : list Die :=
  let dice1 := bank_kept (dice s) in
  if existsb (λ d, bool_decide (state d = Rolled)) dice1 then dice1
  else reset_rolled dice1.

Definition with_dice (ds : list Die) (s : Engine) : Engine :=
  {| player_scores := player_scores s;
     current_player_index := current_player_index s;
     dice := ds;
     turn_score := turn_score s;
     current_keep_score := current_keep_score s;
     status := status s;
     message := message s |}.

(** [toggle_keep]; [it] is the first die whose id is [die_id]
    ([std::find_if]), at index [i] of the pool. *)
Definition toggle_keep (die_id : Z) (s : Engine) : Engine :=
  if decide (status s ≠ Rolling) then s
  else
    match list_find (λ d, id d = die_id) (dice s) with
    | None => s
    | Some (i, it) =>
        if decide (state it = Banked) then s
        else if decide (state it = Kept) then
          let val := value it in
          recalc_keep_score (with_dice (unkeep_value val (dice s)) s)
        else
          let val := value it in
          let count_rolled := count_in Rolled val (dice s) in
          let count_kept := count_in Kept val (dice s) in
          if decide (3 ≤ count_rolled + count_kept)%nat then
            if decide (count_kept < 3)%nat then
              let needed := (3 - count_kept)%nat in
              recalc_keep_score (with_dice (promote val needed (dice s)) s)
            else
              recalc_keep_score (with_dice (<[i := set_state Kept it]> (dice s)) s)
          else if decide (val = 1 ∨ val = 5) then
            recalc_keep_score (with_dice (<[i := set_state Kept it]> (dice s)) s)
          else recalc_keep_score s
    end.

(** [pass_turn].  [None] stands for the undefined behaviour of the
    remainder by [player_scores.size()] when there is no player. *)
Definition pass_turn (rnd : nat → Z) (s : Engine) : option Engine :=
  if decide (length (player_scores s) = 0%nat) then None
  else
    Some (roll rnd
      {| player_scores := player_scores s;
         current_player_index :=
           ((current_player_index s + 1) mod length (player_scores s))%nat;
         dice := reset_rolled (dice s);
         turn_score := 0;
         current_keep_score := 0;
         status := Rolling;
         message := message s |}).

(** [bank].  [None] stands for the undefined behaviour of
    [player_scores[current_player_index]] out of range. *)
Definition bank (rnd : nat → Z) (s : Engine) : option Engine :=
  if decide (current_keep_score s = 0 ∧ turn_score s = 0) then Some s
  else
    let turn1 := add (turn_score s) (current_keep_score s) in
    let dice1 := bank_kept (dice s) in
    match player_scores s !! current_player_index s with
    | None => None
    | Some total =>
        let scores1 := <[current_player_index s := add total turn1]> (player_scores s) in
        if decide (10000 ≤ add total turn1) then
          Some {| player_scores := scores1;
                  current_player_index := current_player_index s;
                  dice := dice1;
                  turn_score := turn1;
                  current_keep_score := 0;
                  status := Win;
                  message := message s |}
        else
          pass_turn rnd
            {| player_scores := scores1;
               current_player_index := current_player_index s;
               dice := dice1;
               turn_score := turn1;
               current_keep_score := 0;
               status := status s;
               message := message s |}
    end.

(** The constructor [FarkleEngine(int num_players = 2)]. *)
Definition new_engine (num_players : nat) (rnd : nat → Z) : Engine :=
  roll rnd
    {| player_scores := replicate num_players 0;
       current_player_index := 0;
       dice := (λ i, mkDie i 1 Rolled) <$> [0; 1; 2; 3; 4; 5];
       turn_score := 0;
       current_keep_score := 0;
       status := Rolling;
       message := "" |}.

Definition with_status (st : GameStatus) (s : Engine) : Engine :=
  {| player_scores := player_scores s;
     current_player_index := current_player_index s;
     dice := dice s;
     turn_score := turn_score s;
     current_keep_score := current_keep_score s;
     status := st;
     message := message s |}.

(** The state [bank] has built when it reaches its win check: the pot
    committed, the Kept dice Banked, the pot added to the current player's
    total [total]. *)
Definition banked (total : Z) (s : Engine) : Engine :=
  {| player_scores :=
       <[current_player_index s := add total (add (turn_score s) (current_keep_score s))]>
         (player_scores s);
     current_player_index := current_player_index s;
     dice := bank_kept (dice s);
     turn_score := add (turn_score s) (current_keep_score s);
     current_keep_score := 0;
     status := status s;
     message := message s |}.

(** The state [pass_turn] has built when it calls [roll]. *)
Definition next_turn (s : Engine) : Engine :=
  {| player_scores := player_scores s;
     current_player_index :=
       ((current_player_index s + 1) mod length (player_scores s))%nat;
     dice := reset_rolled (dice s);
     turn_score := 0;
     current_keep_score := 0;
     status := Rolling;
     message := message s |}.

(** The state the constructor has built when it calls [roll]. *)
Definition fresh (num_players : nat) : Engine :=
  {| player_scores := replicate num_players 0;
     current_player_index := 0;
     dice := (λ i, mkDie i 1 Rolled) <$> [0; 1; 2; 3; 4; 5];
     turn_score := 0;
     current_keep_score := 0;
     status := Rolling;
     message := "" |}.

(** States a host reaches through the bound operations
    (constructor, roll, toggle_keep, bank, pass_turn, recalc_keep_score),
    whatever the random source yields. *)
Inductive reachable : Engine → Prop :=
| reach_new n rnd : reachable (new_engine n rnd)
| reach_roll rnd s : reachable s → reachable (roll rnd s)
| reach_toggle_keep die_id s : reachable s → reachable (toggle_keep die_id s)
| reach_bank rnd s s' : reachable s → bank rnd s = Some s' → reachable s'
| reach_pass_turn rnd s s' : reachable s → pass_turn rnd s = Some s' → reachable s'
| reach_recalc s : reachable s → reachable (recalc_keep_score s).

End Cpp.

(** ** The TypeScript engine, [src/web-ui/src/farkle-engine.ts] *)
Module TS.

(** [type PlayerType = 'human' | 'computer'] *)
Inductive PlayerType : Type := human | computer.

(** [interface Player { id; type; name; score }] *)
Record Player : Type := mkPlayer {
  player_id : Z;
  player_type : PlayerType;
  name : string;
  score : Z }.

Record Engine : Type := mkEngine {
  players : list Player;
  currentPlayerIndex : nat;
  dice : list Die;
  turnScore : Z;
  currentKeepScore : Z;
  status : GameStatus;
  message : string }.

(** [Math.ceil(Math.random() * 6)] at the outcome [r] of [Math.random()].
    The product is taken exactly here; the double product is rounded to
    nearest, which leaves 0 * 6 at 0 and every product within 0..6, and
    can show the face below for an outcome one rounding step above a
    multiple of 1/6.  The theorems use a face as the outcome drawn. *)
Definition face (r : Q) : Z := Qceiling (Qmult r (inject_Z 6)).

(** [getCounts]: [counts[d.value] = (counts[d.value] || 0) + 1] *)
Definition getCounts (dice : list Die) : gmap Z nat :=
  foldl (λ counts d, <[value d := (default 0 (counts !! value d) + 1)%nat]> counts)
        ∅ dice.

(** [while (count >= 3) { score += (i === 1 ? 1000 : i * 100); count -= 3; }] *)
Fixpoint peel_triples (i : Z) (count : nat) (score : Z) : Z * nat :=
  match count with
  | S (S (S count')) =>
      peel_triples i count' (score + (if decide (i = 1) then 1000 else i * 100))
  | _ => (score, count)
  end.

(** Body of the loop [for (let i = 1; i <= 6; i++)] of [evaluateScoring]. *)
Definition score_face (counts : gmap Z nat) (score : Z) (i : Z) : Z :=
  let count := default 0%nat (counts !! i) in
  let '(score, count) := peel_triples i count score in
  let score := if decide (i = 1) then score + Z.of_nat count * 100 else score in
  let score := if decide (i = 5) then score + Z.of_nat count * 50 else score in
  score.

(** [evaluateScoring] (the record [{ score }] it returns has one field) *)
Definition evaluateScoring (dice : list Die) : Z :=
  let counts := getCounts dice in
  foldl (score_face counts) 0 [1; 2; 3; 4; 5; 6].

(** [createDice]: die [i] takes the i-th outcome of the source. *)
Definition createDice (rnd : nat → Q) : list Die :=
  (λ i : nat, mkDie (Z.of_nat i) (face (rnd i)) Rolled) <$> seq 0 6.

(** The constructor [constructor(playerNames = ['Player', 'Computer'])]. *)
Definition new_engine (playerNames : list string) (rnd : nat → Q) : Engine :=
  {| players := imap (λ i name, {| player_id := Z.of_nat i;
                                   player_type := if decide (i = 1%nat) then computer else human;
                                   name := name;
                                   score := 0 |}) playerNames;
     currentPlayerIndex := 0;
     dice := createDice rnd;
     turnScore := 0;
     currentKeepScore := 0;
     status := Rolling;
     message := "Welcome to Farkle! Roll to start." |}.

(** The test of step 4 of [roll]:
    [counts[1] > 0 || counts[5] > 0 || Object.values(counts).some(c => c >= 3)] *)
Definition hasScore (counts : gmap Z nat) : bool :=
  bool_decide (0 < default 0 (counts !! 1%Z))%nat
  || bool_decide (0 < default 0 (counts !! 5%Z))%nat
  || existsb (λ c, bool_decide (3 ≤ c)%nat) (snd <$> map_to_list counts).

(** [roll]; [rnd k] is the k-th number [Math.random()] returns during
    the call.  [diceToRoll] holds the pool's own die objects, so after the
    rolling loop it is the pool's dice in state Rolled. *)
Definition roll (rnd : nat → Q) (s : Engine) : Engine :=
  (* 1. Move 'kept' to 'banked' *)
  let keptDice := filter (λ d, state d = Kept) (dice s) in
  let '(dice1, turn1, keep1) :=
    if decide (0 < length keptDice)%nat
    then (bank_kept (dice s), turnScore s + currentKeepScore s, 0)
    else (dice s, turnScore s, currentKeepScore s) in
  (* 2. Identify dice to roll; Hot Hand *)
  let diceToRoll := filter (λ d, state d = Rolled) dice1 in
  let '(dice2, message2) :=
    if decide (length diceToRoll = 0%nat)
    then (reset_rolled dice1, "Hot Hand! Rolling all 6 dice!")
    else (dice1, message s) in
  (* 3. Roll them *)
  let dice3 := fst (roll_rolled (λ k, face (rnd k)) 0 dice2) in
  let diceToRoll := filter (λ d, state d = Rolled) dice3 in
  (* 4. Check Farkle *)
  let counts := getCounts diceToRoll in
  if negb (hasScore counts) then
    {| players := players s;
       currentPlayerIndex := currentPlayerIndex s;
       dice := dice3;
       turnScore := 0;
       currentKeepScore := 0;
       status := Farkle;
       message := "Farkle! No points." |}
  else
    {| players := players s;
       currentPlayerIndex := currentPlayerIndex s;
       dice := dice3;
       turnScore := turn1;
       currentKeepScore := keep1;
       status := Rolling;
       message := "Select dice to keep." |}.

(** The pool as steps 1 and 2 of [roll] leave it, when the rolling loop
    of step 3 starts. *)
Definition pool_before_roll (s : Engine) : list Die :=
  let dice1 := if decide (0 < length (filter (λ d, state d = Kept) (dice s)))%nat
               then bank_kept (dice s) else dice s in
  if decide (length (filter (λ d, state d = Rolled) dice1) = 0%nat)
  then reset_rolled dice1 else dice1.

Definition with_dice (ds : list Die) (s : Engine) : Engine :=
  {| players := players s;
     currentPlayerIndex := currentPlayerIndex s;
     dice := ds;
     turnScore := turnScore s;
     currentKeepScore := currentKeepScore s;
     status := status s;
     message := message s |}.

(** [recalcKeepScore] *)
Definition recalcKeepScore (s : Engine) : Engine :=
  let keptDice := filter (λ d, state d = Kept) (dice s) in
  {| players := players s;
     currentPlayerIndex := currentPlayerIndex s;
     dice := dice s;
     turnScore := turnScore s;
     currentKeepScore := evaluateScoring keptDice;
     status := status s;
     message := message s |}.

(** [toggleKeep]; [die] is the first die whose id is [dieId]
    ([Array.prototype.find]), at index [i] of the pool. *)
Definition toggleKeep (dieId : Z) (s : Engine) : Engine :=
  if decide (status s ≠ Rolling) then s
  else
    match list_find (λ d, id d = dieId) (dice s) with
    | None => s
    | Some (i, die) =>
        if decide (state die = Banked) then s
        else if decide (state die = Kept) then
          let val := value die in
          recalcKeepScore (with_dice (unkeep_value val (dice s)) s)
        else
          let val := value die in
          let rolledOfVal := filter (λ d, value d = val ∧ state d = Rolled) (dice s) in
          if decide (3 ≤ length rolledOfVal)%nat then
            recalcKeepScore (with_dice (promote val 3 (dice s)) s)
          else if decide (val = 1 ∨ val = 5) then
            recalcKeepScore (with_dice (<[i := set_state Kept die]> (dice s)) s)
          else s
    end.

(** [passTurn].  [None] stands for the TypeError of
    [this.players[this.currentPlayerIndex].name] when the index names no
    player (an empty player list). *)
Definition passTurn (rnd : nat → Q) (s : Engine) : option Engine :=
  let index := ((currentPlayerIndex s + 1) mod length (players s))%nat in
  match players s !! index with
  | None => None
  | Some p =>
      Some {| players := players s;
              currentPlayerIndex := index;
              dice := createDice rnd;
              turnScore := 0;
              currentKeepScore := 0;
              status := Rolling;
              message := name p +:+ "'s Turn" |}
  end.

Definition add_score (n : Z) (p : Player) : Player :=
  {| player_id := player_id p; player_type := player_type p;
     name := name p; score := score p + n |}.

(** [bank].  [None] stands for the TypeError of
    [this.players[this.currentPlayerIndex].score] when the index names no
    player. *)
Definition bank (rnd : nat → Q) (s : Engine) : option Engine :=
  if decide (currentKeepScore s = 0 ∧ turnScore s = 0) then Some s
  else
    let turn1 := turnScore s + currentKeepScore s in
    let dice1 := bank_kept (dice s) in
    match players s !! currentPlayerIndex s with
    | None => None
    | Some p =>
        let players1 := <[currentPlayerIndex s := add_score turn1 p]> (players s) in
        if decide (10000 ≤ score p + turn1) then
          Some {| players := players1;
                  currentPlayerIndex := currentPlayerIndex s;
                  dice := dice1;
                  turnScore := turn1;
                  currentKeepScore := 0;
                  status := Win;
                  message := name p +:+ " Wins!" |}
        else
          passTurn rnd
            {| players := players1;
               currentPlayerIndex := currentPlayerIndex s;
               dice := dice1;
               turnScore := turn1;
               currentKeepScore := 0;
               status := status s;
               message := message s |}
    end.

Definition with_status (st : GameStatus) (s : Engine) : Engine :=
  {| players := players s;
     currentPlayerIndex := currentPlayerIndex s;
     dice := dice s;
     turnScore := turnScore s;
     currentKeepScore := currentKeepScore s;
     status := st;
     message := message s |}.

Definition with_message (msg : string) (s : Engine) : Engine :=
  {| players := players s;
     currentPlayerIndex := currentPlayerIndex s;
     dice := dice s;
     turnScore := turnScore s;
     currentKeepScore := currentKeepScore s;
     status := status s;
     message := msg |}.

(** The state [bank] has built when it reaches its win check: the pot
    committed, the Kept dice Banked, the pot added to the score of the
    current player [p]. *)
Definition banked (p : Player) (s : Engine) : Engine :=
  {| players :=
       <[currentPlayerIndex s := add_score (turnScore s + currentKeepScore s) p]>
         (players s);
     currentPlayerIndex := currentPlayerIndex s;
     dice := bank_kept (dice s);
     turnScore := turnScore s + currentKeepScore s;
     currentKeepScore := 0;
     status := status s;
     message := message s |}.

(** The helper [pull] of [computerMove], on the pair of its two local
    arrays [available] and [aiKeeps]. *)
Definition pull (val : Z) (qty : nat) (st : list Die * list Z) : list Die * list Z :=
  let found := take qty (filter (λ d, value d = val) (fst st)) in
  foldl (λ '(available, aiKeeps) d,
           let aiKeeps := aiKeeps ++ [id d] in
           match list_find (λ x, id x = id d) available with
           | Some (idx, _) => (delete idx available, aiKeeps)
           | None => (available, aiKeeps)
           end) st found.

(** [computerMove].  The first loop of the source fills [idsToKeep], which
    nothing reads afterwards; it is left out. *)
Definition computerMove (rnd : nat → Q) (s : Engine) : Engine :=
  if decide (status s = Win) then s
  else
    let s := roll rnd s in
    if decide (status s = Farkle) then s
    else
      let rolled := filter (λ d, state d = Rolled) (dice s) in
      (* 1. Triples *)
      let st := foldl (λ st i,
                   let matches := filter (λ d, value d = i) (fst st) in
                   if decide (3 ≤ length matches)%nat then
                     let st := pull i 3 st in
                     if decide (length matches = 6%nat) then pull i 3 st else st
                   else st) (rolled, []) [1; 2; 3; 4; 5; 6] in
      (* 2. Singles *)
      let st := foldl (λ st val,
                   let matches := filter (λ d, value d = val) (fst st) in
                   foldl (λ st _, pull val 1 st) st matches) st [1; 5] in
      (* Apply *)
      let dice1 := foldl (λ ds i,
                      match list_find (λ x, id x = i) ds with
                      | Some (k, d) => <[k := set_state Kept d]> ds
                      | None => ds
                      end) (dice s) (snd st) in
      recalcKeepScore (recalcKeepScore (with_dice dice1 s)).

(** States a caller reaches through the public operations of the class,
    whatever the random source yields. *)
Inductive reachable : Engine → Prop :=
| reach_new names rnd : reachable (new_engine names rnd)
| reach_roll rnd s : reachable s → reachable (roll rnd s)
| reach_toggleKeep dieId s : reachable s → reachable (toggleKeep dieId s)
| reach_bank rnd s s' : reachable s → bank rnd s = Some s' → reachable s'
| reach_passTurn rnd s s' : reachable s → passTurn rnd s = Some s' → reachable s'
| reach_computerMove rnd s : reachable s → reachable (computerMove rnd s).

End TS.

(** ** Invariants and example inputs *)

(** The keep score is the evaluator's score of the dice now Kept. *)
Definition cpp_keep_in_sync (s : Cpp.Engine) : Prop :=
  Cpp.current_keep_score s = Cpp.evaluate_scoring (values_in Kept (Cpp.dice s)).

Definition ts_keep_in_sync (s : TS.Engine) : Prop :=
  TS.currentKeepScore s = TS.evaluateScoring (filter (λ d, state d = Kept) (TS.dice s)).

(** The pool is six dice carrying the ids 0..5 in pool order. *)
Definition pool_ids (ds : list Die) : Prop := id <$> ds = [0; 1; 2; 3; 4; 5].

(** A list of face values as dice in state [st], ids counting from 0. *)
Definition dice_of (st : DieState) (vs : list Z) : list Die :=
  imap (λ i v, mkDie (Z.of_nat i) v st) vs.

(** A rolled subset without scoring potential: no 1, no 5, and no face
    value occurring three times or more. *)
Definition no_potential (vs : list Z) : Prop :=
  (1 ∉ vs) ∧ (5 ∉ vs) ∧ ∀ v, (occurrences v vs < 3)%nat.

(** A scripted random source: the outcomes of [l] in order, then [d]. *)
Definition scripted {A : Type} (l : list A) (d : A) : nat → A := λ k, nth k l d.

(** The opening of a two-player C++ game whose first roll shows 1 1 1 2 3 4. *)
Definition cpp_opening : Cpp.Engine := Cpp.new_engine 2 (scripted [1; 1; 1; 2; 3; 4] 1).

(** A two-player TypeScript game after its first [roll] showed 1 1 1 2 3 4
    ([Math.random()] returning 1/6, 1/6, 1/6, 1/3, 1/2, 2/3). *)
Definition ts_opening : TS.Engine :=
  TS.roll (scripted [1 # 6; 1 # 6; 1 # 6; 1 # 3; 1 # 2; 2 # 3] (1 # 6))%Q
          (TS.new_engine ["Player"; "Computer"] (scripted [] (1 # 6)%Q)).

(** The same games in their second roll cycle: the three ones were kept
    and committed by a second roll showing 1 2 3, whose 1 is now Kept; the
    turn holds 1000 committed points and 100 kept ones. *)
Definition cpp_second_cycle : Cpp.Engine :=
  Cpp.toggle_keep 3 (Cpp.roll (scripted [1; 2; 3] 1) (Cpp.toggle_keep 0 cpp_opening)).

Definition ts_second_cycle : TS.Engine :=
  TS.toggleKeep 3
    (TS.roll (scripted [1 # 6; 1 # 3; 1 # 2] (1 # 6))%Q (TS.toggleKeep 0 ts_opening)).

(** Games at match point: player 0 stands at 9500 and has the three ones
    of the opening roll Kept. *)
Definition cpp_match_point : Cpp.Engine :=
  {| Cpp.player_scores := [9500; 200];
     Cpp.current_player_index := 0;
     Cpp.dice := Cpp.dice (Cpp.toggle_keep 0 cpp_opening);
     Cpp.turn_score := 0;
     Cpp.current_keep_score := 1000;
     Cpp.status := Rolling;
     Cpp.message := "" |}.

Definition ts_match_point : TS.Engine :=
  {| TS.players := [TS.mkPlayer 0 TS.human "Player" 9500;
                    TS.mkPlayer 1 TS.computer "Computer" 200];
     TS.currentPlayerIndex := 0;
     TS.dice := TS.dice (TS.toggleKeep 0 ts_opening);
     TS.turnScore := 0;
     TS.currentKeepScore := 1000;
     TS.status := Rolling;
     TS.message := "Select dice to keep." |}.

(** What promotion may do to one die: nothing, or move a Rolled die of
    face [val] to Kept. *)
Definition promoted_or_same (val : Z) (d d' : Die) : Prop :=
  d' = d ∨ (value d = val ∧ state d = Rolled ∧ d' = set_state Kept d).

(** A TypeScript game whose first roll showed 2 2 2 2 3 4, after a click
    on die 0 kept the first three twos. *)
Definition ts_four_twos : TS.Engine :=
  TS.toggleKeep 0
    (TS.roll (scripted [1 # 3; 1 # 3; 1 # 3; 1 # 3; 1 # 2; 2 # 3] (1 # 3))%Q
       (TS.new_engine ["Player"; "Computer"] (scripted [] (1 # 6)%Q))).

(** The same position in the C++ engine. *)
Definition cpp_four_twos : Cpp.Engine :=
  Cpp.toggle_keep 0 (Cpp.new_engine 2 (scripted [2; 2; 2; 2; 3; 4] 1)).

(** A source whose six outcomes show 2 2 3 3 4 4: no scoring potential. *)
Definition ts_dud : nat → Q :=
  scripted [1 # 3; 1 # 3; 1 # 2; 1 # 2; 2 # 3; 2 # 3]%Q (1 # 3)%Q.

(** A C++ state no operation produces: a host wrote a keep score of 50
    beside a pool without Kept dice. *)
Definition cpp_stale_keep_score : Cpp.Engine :=
  {| Cpp.player_scores := [0; 0];
     Cpp.current_player_index := 0;
     Cpp.dice := dice_of Rolled [2; 3; 4; 6; 2; 3];
     Cpp.turn_score := 0;
     Cpp.current_keep_score := 50;
     Cpp.status := Rolling;
     Cpp.message := "" |}.

(** ** Further invariants and example inputs *)

(** What un-keeping may do to one die: nothing, or move a Kept die of
    face [val] back to Rolled. *)
Definition unkept_or_same (val : Z) (d d' : Die) : Prop :=
  d' = d ∨ (value d = val ∧ state d = Kept ∧ d' = set_state Rolled d).

(** A C++ game whose opening roll showed 1 1 1 5 5 5, with both triples
    Kept: no die is left in state Rolled. *)
Definition cpp_all_kept : Cpp.Engine :=
  Cpp.toggle_keep 3 (Cpp.toggle_keep 0 (Cpp.new_engine 2 (scripted [1; 1; 1; 5; 5; 5] 1))).

(** A won C++ game: every roll shows six ones; player 0 keeps all six
    (8000) and banks, player 1 passes, player 0 keeps all six again and
    banks 16000. *)
Definition cpp_keep_all (s : Cpp.Engine) : Cpp.Engine :=
  Cpp.toggle_keep 5 (Cpp.toggle_keep 4 (Cpp.toggle_keep 3 (Cpp.toggle_keep 0 s))).

Definition cpp_won : option Cpp.Engine :=
  s1 ← Cpp.bank (scripted [] 1) (cpp_keep_all (Cpp.new_engine 2 (scripted [] 1)));
  s2 ← Cpp.pass_turn (scripted [] 1) s1;
  Cpp.bank (scripted [] 1) (cpp_keep_all s2).

(** What a click may do to one die: its id and face stay, and it is
    Banked after the click exactly when it was before. *)
Definition selection_move (d d' : Die) : Prop :=
  id d' = id d ∧ value d' = value d ∧ (state d = Banked ↔ state d' = Banked).

(** The Kept dice form scoring units: of a face other than 1 and 5 there
    are none, or at least three. *)
Definition kept_in_groups (ds : list Die) : Prop :=
  ∀ v, v ≠ 1 → v ≠ 5 → count_in Kept v ds = 0%nat ∨ (3 ≤ count_in Kept v ds)%nat.

(** The scores of a state are never negative. *)
Definition cpp_scores_nonneg (s : Cpp.Engine) : Prop :=
  0 ≤ Cpp.turn_score s ∧ 0 ≤ Cpp.current_keep_score s
  ∧ Forall (λ total, 0 ≤ total) (Cpp.player_scores s).

Definition ts_scores_nonneg (s : TS.Engine) : Prop :=
  0 ≤ TS.turnScore s ∧ 0 ≤ TS.currentKeepScore s
  ∧ Forall (λ p, 0 ≤ TS.score p) (TS.players s).

(** The status is never Bust, and it is Win only while the current
    player's total is at least 10000. *)
Definition cpp_status_sound (s : Cpp.Engine) : Prop :=
  Cpp.status s ≠ Bust
  ∧ (Cpp.status s = Win →
     ∃ total, Cpp.player_scores s !! Cpp.current_player_index s = Some total
              ∧ 10000 ≤ total).

Definition ts_status_sound (s : TS.Engine) : Prop :=
  TS.status s ≠ Bust
  ∧ (TS.status s = Win →
     ∃ p, TS.players s !! TS.currentPlayerIndex s = Some p ∧ 10000 ≤ TS.score p).

(** The index names a player whenever there is one. *)
Definition cpp_index_in_range (s : Cpp.Engine) : Prop :=
  Cpp.player_scores s ≠ [] →
  (Cpp.current_player_index s < length (Cpp.player_scores s))%nat.

Definition ts_index_in_range (s : TS.Engine) : Prop :=
  TS.players s ≠ [] → (TS.currentPlayerIndex s < length (TS.players s))%nat.

(** The bookkeeping of [computerMove]: the ids in [aiKeeps] are those of
    the dice [picked], and the dice picked and the dice still available
    are together the dice [rolled]. *)
Definition picked_from (rolled available : list Die) (aiKeeps : list Z)
    (picked : list Die) : Prop :=
  aiKeeps = id <$> picked ∧ picked ++ available ≡ₚ rolled.

(** The number of dice of one face the triples loop of [computerMove]
    pulls when [m] dice of that face are available. *)
Definition triples_pulled (m : nat) : nat :=
  if decide (3 ≤ m)%nat then (if decide (m = 6%nat) then 6%nat else 3%nat) else 0%nat.

(** The Kept dice of the TypeScript engine are "valid units (Sets or
    Singles)": of a face other than 1 and 5 they come in threes. *)
Definition kept_in_triples (ds : list Die) : Prop :=
  ∀ v, v ≠ 1 → v ≠ 5 → (count_in Kept v ds mod 3 = 0)%nat.

(** Passing the turn once per element of a list of sources, as a caller
    does when every player in turn passes. *)
Definition cpp_pass_turns (rnds : list (nat → Z)) (s : Cpp.Engine) : option Cpp.Engine :=
  foldl (λ os rnd, os ≫= Cpp.pass_turn rnd) (Some s) rnds.

Definition ts_passTurns (rnds : list (nat → Q)) (s : TS.Engine) : option TS.Engine :=
  foldl (λ os rnd, os ≫= TS.passTurn rnd) (Some s) rnds.

(** Membership in, and absence from, a list of faces written out. *)
Ltac face_in := repeat first [apply list_elem_of_here | apply list_elem_of_further].

Ltac face_out H :=
  repeat (apply elem_of_cons in H; destruct H as [->|H]; [try lia; try tauto|]);
  apply elem_of_nil in H; contradiction.

(** * Properties *)

(** ** Counting *)

Lemma occurrences_cons (v x : Z) (vs : list Z) :
  occurrences v (x :: vs) = ((if decide (x = v) then 1 else 0) + occurrences v vs)%nat.
Proof.
  unfold occurrences. rewrite filter_cons. destruct (decide (x = v)); reflexivity.
Qed.

Lemma subscript_fst (counts : gmap Z nat) (k : Z) :
  fst (Cpp.subscript counts k) = default 0%nat (counts !! k).
Proof. unfold Cpp.subscript. destruct (counts !! k); reflexivity. Qed.

Lemma subscript_snd (counts : gmap Z nat) (k j : Z) :
  default 0%nat (snd (Cpp.subscript counts k) !! j) = default 0%nat (counts !! j).
Proof.
  unfold Cpp.subscript. destruct (counts !! k) eqn:E; simpl; [reflexivity|].
  destruct (decide (k = j)) as [->|Hne].
  - rewrite lookup_insert_eq, E. reflexivity.
  - rewrite lookup_insert_ne by exact Hne. reflexivity.
Qed.

Lemma count_values_from (values : list Z) (counts : gmap Z nat) (v : Z) :
  default 0%nat
    (foldl (λ counts v, let '(c, counts') := Cpp.subscript counts v in
                        <[v := S c]> counts') counts values !! v)
  = (default 0%nat (counts !! v) + occurrences v values)%nat.
Proof.
  revert counts. induction values as [|x values IH]; intros counts; simpl.
  - unfold occurrences. simpl. lia.
  - rewrite IH, occurrences_cons.
    pose proof (subscript_fst counts x) as Hf.
    pose proof (subscript_snd counts x v) as Hs.
    destruct (Cpp.subscript counts x) as [c counts']. simpl in Hf, Hs.
    destruct (decide (x = v)) as [->|Hne].
    + rewrite lookup_insert_eq. cbn [default from_option Datatypes.id]. lia.
    + rewrite lookup_insert_ne by exact Hne. rewrite Hs. lia.
Qed.

Lemma count_values_lookup (values : list Z) (v : Z) :
  default 0%nat (Cpp.count_values values !! v) = occurrences v values.
Proof.
  unfold Cpp.count_values. rewrite count_values_from, lookup_empty. reflexivity.
Qed.

Lemma getCounts_from (dice : list Die) (counts : gmap Z nat) (v : Z) :
  default 0%nat
    (foldl (λ counts d, <[value d := (default 0 (counts !! value d) + 1)%nat]> counts)
           counts dice !! v)
  = (default 0%nat (counts !! v) + occurrences v (value <$> dice))%nat.
Proof.
  revert counts. induction dice as [|d dice IH]; intros counts.
  - unfold occurrences. simpl. lia.
  - rewrite fmap_cons. cbn [foldl]. rewrite IH, occurrences_cons.
    destruct (decide (value d = v)) as [<-|Hne].
    + rewrite lookup_insert_eq. cbn [default from_option Datatypes.id]. lia.
    + rewrite lookup_insert_ne by exact Hne. lia.
Qed.

Lemma getCounts_lookup (dice : list Die) (v : Z) :
  default 0%nat (TS.getCounts dice !! v) = occurrences v (value <$> dice).
Proof.
  unfold TS.getCounts. rewrite getCounts_from, lookup_empty. reflexivity.
Qed.

(** ** Arithmetic of [int] *)

Lemma wrap_int_range (z : Z) : Cpp.INT_MIN ≤ Cpp.wrap_int z ≤ Cpp.INT_MAX.
Proof.
  unfold Cpp.wrap_int, Cpp.INT_MIN, Cpp.INT_MAX.
  pose proof (Z.mod_pos_bound (z + 2147483648) 4294967296 ltac:(lia)). lia.
Qed.

Lemma wrap_int_exact (z : Z) : Cpp.INT_MIN ≤ z ≤ Cpp.INT_MAX → Cpp.wrap_int z = z.
Proof.
  unfold Cpp.wrap_int, Cpp.INT_MIN, Cpp.INT_MAX. intros H.
  rewrite Z.mod_small by lia. lia.
Qed.

Lemma add_exact (a b : Z) : Cpp.INT_MIN ≤ a + b ≤ Cpp.INT_MAX → Cpp.add a b = a + b.
Proof. apply wrap_int_exact. Qed.

Lemma mul_exact (a b : Z) : Cpp.INT_MIN ≤ a * b ≤ Cpp.INT_MAX → Cpp.mul a b = a * b.
Proof. apply wrap_int_exact. Qed.

Lemma shl_exact (k : Z) : 0 ≤ k ≤ 30 → Cpp.shl 1 k = 2 ^ k.
Proof.
  intros Hk. unfold Cpp.shl. rewrite Z.shiftl_1_l. apply wrap_int_exact.
  unfold Cpp.INT_MIN, Cpp.INT_MAX.
  assert (0 < 2 ^ k) by (apply Z.pow_pos_nonneg; lia).
  assert (2 ^ k ≤ 2 ^ 30) by (apply Z.pow_le_mono_r; lia).
  change (2 ^ 30) with 1073741824 in *. lia.
Qed.

Lemma add_0_r (a : Z) : Cpp.INT_MIN ≤ a ≤ Cpp.INT_MAX → Cpp.add a 0 = a.
Proof. intros H. rewrite add_exact; lia. Qed.

Lemma add_0_0 : Cpp.add 0 0 = 0.
Proof. reflexivity. Qed.

(** ** The scoring evaluators *)

(** A group of at most six dice of one face scores at most 8000. *)
Lemma canonical_group_bound (v : Z) (c : nat) :
  1 ≤ v ≤ 6 → (c ≤ 6)%nat → 0 ≤ canonical_group v c ≤ 8000.
Proof.
  intros Hv Hc. unfold canonical_group, base_score.
  assert (v = 1 ∨ v = 2 ∨ v = 3 ∨ v = 4 ∨ v = 5 ∨ v = 6) as Hcases by lia.
  destruct c as [|[|[|[|[|[|[|c]]]]]]]; try lia;
    destruct Hcases as [->|[->|[->|[->|[->| ->]]]]];
    vm_compute; split; intros ?; discriminate.
Qed.

(** One face of the loop of [evaluate_scoring]: on at most six dice of
    the face and a score that leaves room, the sums stay inside [int] and
    the face adds its group of the doubling rule. *)
Lemma cpp_score_face (counts : gmap Z nat) (score i : Z) :
  1 ≤ i ≤ 6 → (default 0%nat (counts !! i) ≤ 6)%nat → 0 ≤ score ≤ 1000000 →
  ∃ counts',
    Cpp.score_face (counts, score) i
    = (counts', score + canonical_group i (default 0%nat (counts !! i)))
    ∧ ∀ k, default 0%nat (counts' !! k) = default 0%nat (counts !! k).
Proof.
  intros Hi Hc Hsc. unfold Cpp.score_face.
  pose proof (subscript_fst counts i) as Hf.
  pose proof (subscript_snd counts i) as Hs.
  destruct (Cpp.subscript counts i) as [count counts']. simpl in Hf, Hs.
  exists counts'. split; [|exact Hs].
  rewrite <- Hf in *. clear Hf.
  pose proof (canonical_group_bound i count Hi Hc) as Hb. revert Hb.
  unfold canonical_group, base_score.
  destruct (bool_decide_reflect (3 ≤ count)%nat) as [Hge|Hlt];
    destruct (decide (3 ≤ count)%nat) as [?|?]; try lia.
  - rewrite shl_exact by lia. intros Hb.
    assert (0 < 2 ^ (Z.of_nat count - 3) ≤ 8).
    { split; [apply Z.pow_pos_nonneg; lia|].
      change 8 with (2 ^ 3). apply Z.pow_le_mono_r; lia. }
    rewrite (mul_exact i 100) by (unfold Cpp.INT_MIN, Cpp.INT_MAX; lia).
    change (Cpp.mul (Z.of_nat 0) 100) with 0. change (Cpp.mul (Z.of_nat 0) 50) with 0.
    destruct (decide (i = 1)), (decide (i = 5)); try lia;
      rewrite mul_exact by (unfold Cpp.INT_MIN, Cpp.INT_MAX; lia);
      rewrite (add_exact score) by (unfold Cpp.INT_MIN, Cpp.INT_MAX; lia);
      rewrite ?add_exact by (unfold Cpp.INT_MIN, Cpp.INT_MAX; lia);
      f_equal; lia.
  - intros Hb.
    destruct (decide (i = 1)), (decide (i = 5)); try lia;
      rewrite ?mul_exact by (unfold Cpp.INT_MIN, Cpp.INT_MAX; lia);
      rewrite ?add_exact by (unfold Cpp.INT_MIN, Cpp.INT_MAX; lia);
      f_equal; lia.
Qed.

Lemma occurrences_le_length (v : Z) (vs : list Z) : (occurrences v vs ≤ length vs)%nat.
Proof. unfold occurrences. apply length_filter. Qed.

(** On at most six dice [evaluate_scoring] is the doubling rule of the
    specification: no sum leaves [int]. *)
Lemma cpp_evaluate_scoring_canonical (values : list Z) :
  (length values ≤ 6)%nat → Cpp.evaluate_scoring values = canonical_score values.
Proof.
  intros Hlen.
  assert (∀ v, (occurrences v values ≤ 6)%nat) as Hocc.
  { intros v. pose proof (occurrences_le_length v values). lia. }
  assert (∀ v, 1 ≤ v ≤ 6 → 0 ≤ canonical_group v (occurrences v values) ≤ 8000) as Hg.
  { intros v Hv. apply canonical_group_bound; [exact Hv|apply Hocc]. }
  pose proof (Hg 1 ltac:(lia)) as G1. pose proof (Hg 2 ltac:(lia)) as G2.
  pose proof (Hg 3 ltac:(lia)) as G3. pose proof (Hg 4 ltac:(lia)) as G4.
  pose proof (Hg 5 ltac:(lia)) as G5. pose proof (Hg 6 ltac:(lia)) as G6.
  unfold Cpp.evaluate_scoring, canonical_score. cbn [foldl foldr].
  pose proof (count_values_lookup values) as H0.
  destruct (cpp_score_face (Cpp.count_values values) 0 1) as (m1 & -> & H1);
    [lia|rewrite H0; apply Hocc|lia|].
  rewrite H0.
  match goal with |- context [Cpp.score_face (m1, ?sc) 2] =>
    destruct (cpp_score_face m1 sc 2) as (m2 & -> & H2);
      [lia|rewrite H1, H0; apply Hocc|lia|] end.
  rewrite H1, H0.
  match goal with |- context [Cpp.score_face (m2, ?sc) 3] =>
    destruct (cpp_score_face m2 sc 3) as (m3 & -> & H3);
      [lia|rewrite H2, H1, H0; apply Hocc|lia|] end.
  rewrite H2, H1, H0.
  match goal with |- context [Cpp.score_face (m3, ?sc) 4] =>
    destruct (cpp_score_face m3 sc 4) as (m4 & -> & H4);
      [lia|rewrite H3, H2, H1, H0; apply Hocc|lia|] end.
  rewrite H3, H2, H1, H0.
  match goal with |- context [Cpp.score_face (m4, ?sc) 5] =>
    destruct (cpp_score_face m4 sc 5) as (m5 & -> & H5);
      [lia|rewrite H4, H3, H2, H1, H0; apply Hocc|lia|] end.
  rewrite H4, H3, H2, H1, H0.
  match goal with |- context [Cpp.score_face (m5, ?sc) 6] =>
    destruct (cpp_score_face m5 sc 6) as (m6 & -> & H6);
      [lia|rewrite H5, H4, H3, H2, H1, H0; apply Hocc|lia|] end.
  rewrite H5, H4, H3, H2, H1, H0.
  cbn [snd]. lia.
Qed.

(** The loop of [evaluate_scoring] reads the counts of the faces 1..6 and
    nothing else of its table. *)
Lemma cpp_score_face_agree (m m' : gmap Z nat) (score i : Z) :
  1 ≤ i ≤ 6 →
  (∀ k, 1 ≤ k ≤ 6 → default 0%nat (m !! k) = default 0%nat (m' !! k)) →
  snd (Cpp.score_face (m, score) i) = snd (Cpp.score_face (m', score) i)
  ∧ ∀ k, 1 ≤ k ≤ 6 →
         default 0%nat (fst (Cpp.score_face (m, score) i) !! k)
         = default 0%nat (fst (Cpp.score_face (m', score) i) !! k).
Proof.
  intros Hi H. unfold Cpp.score_face.
  pose proof (subscript_fst m i) as Hf. pose proof (subscript_snd m i) as Hs.
  pose proof (subscript_fst m' i) as Hf'. pose proof (subscript_snd m' i) as Hs'.
  destruct (Cpp.subscript m i) as [c n]. destruct (Cpp.subscript m' i) as [c' n'].
  cbn [fst snd] in *.
  assert (c = c') as <- by (rewrite Hf, Hf'; apply H, Hi).
  split.
  - destruct (bool_decide (3 ≤ c)%nat); reflexivity.
  - intros k Hk. destruct (bool_decide (3 ≤ c)%nat); cbn [fst];
      rewrite Hs, Hs'; apply H, Hk.
Qed.

Lemma cpp_evaluate_scoring_counts (vs vs' : list Z) :
  (∀ v, 1 ≤ v ≤ 6 → occurrences v vs = occurrences v vs') →
  Cpp.evaluate_scoring vs = Cpp.evaluate_scoring vs'.
Proof.
  intros H. unfold Cpp.evaluate_scoring.
  assert (∀ (l : list Z) (m m' : gmap Z nat) (score : Z),
            Forall (λ i, 1 ≤ i ≤ 6) l →
            (∀ k, 1 ≤ k ≤ 6 → default 0%nat (m !! k) = default 0%nat (m' !! k)) →
            snd (foldl Cpp.score_face (m, score) l)
            = snd (foldl Cpp.score_face (m', score) l)) as Hloop.
  { induction l as [|i l IH]; intros m m' score Hl Hm; [reflexivity|].
    inversion Hl as [|? ? Hi Hl']; subst. cbn [foldl].
    destruct (cpp_score_face_agree m m' score i Hi Hm) as [Hsc Hmaps].
    destruct (Cpp.score_face (m, score) i) as [n sc].
    destruct (Cpp.score_face (m', score) i) as [n' sc'].
    cbn [fst snd] in *. subst sc'. apply IH; assumption. }
  apply Hloop.
  - repeat constructor; lia.
  - intros k Hk. rewrite !count_values_lookup. apply H, Hk.
Qed.

Lemma peel_triples_spec (i : Z) (count : nat) (score : Z) :
  TS.peel_triples i count score
  = (score + base_score i * Z.of_nat (count / 3), (count mod 3)%nat).
Proof.
  revert score. induction count as [count IH] using lt_wf_ind. intros score.
  destruct count as [|[|[|count']]]; try (simpl; f_equal; lia).
  cbn [TS.peel_triples]. rewrite IH by lia.
  replace (S (S (S count'))) with (count' + 1 * 3)%nat by lia.
  rewrite Nat.div_add, Nat.Div0.mod_add by lia.
  unfold base_score. f_equal. destruct (decide (i = 1)); lia.
Qed.

Lemma ts_score_face (counts : gmap Z nat) (score i : Z) :
  TS.score_face counts score i = score + flat_group i (default 0%nat (counts !! i)).
Proof.
  unfold TS.score_face, flat_group. rewrite peel_triples_spec.
  destruct (decide (i = 1)), (decide (i = 5)); lia.
Qed.

Lemma ts_evaluateScoring_flat (dice : list Die) :
  TS.evaluateScoring dice = flat_score (value <$> dice).
Proof.
  unfold TS.evaluateScoring, flat_score. cbn [foldl foldr].
  rewrite !ts_score_face, !getCounts_lookup. lia.
Qed.

Lemma flat_group_canonical (v : Z) (c : nat) :
  (c ≤ 3)%nat → flat_group v c = canonical_group v c.
Proof.
  intros Hc. unfold flat_group, canonical_group, base_score.
  destruct c as [|[|[|[|c]]]]; try lia; simpl;
    destruct (decide (v = 1)), (decide (v = 5)); lia.
Qed.

Lemma flat_score_canonical (vs : list Z) :
  (∀ v, occurrences v vs ≤ 3)%nat → flat_score vs = canonical_score vs.
Proof.
  intros H. unfold flat_score, canonical_score. cbn [foldr].
  rewrite !flat_group_canonical by apply H. reflexivity.
Qed.

(** ** The loops over the pool *)

Lemma bank_kept_id (ds : list Die) : id <$> bank_kept ds = id <$> ds.
Proof.
  unfold bank_kept. rewrite <- list_fmap_compose. apply list_fmap_ext.
  intros _ d _. simpl. destruct (decide (state d = Kept)); reflexivity.
Qed.

Lemma reset_rolled_id (ds : list Die) : id <$> reset_rolled ds = id <$> ds.
Proof.
  unfold reset_rolled. rewrite <- list_fmap_compose. apply list_fmap_ext.
  intros _ d _. reflexivity.
Qed.

Lemma unkeep_value_id (val : Z) (ds : list Die) : id <$> unkeep_value val ds = id <$> ds.
Proof.
  unfold unkeep_value. rewrite <- list_fmap_compose. apply list_fmap_ext.
  intros _ d _. simpl. destruct (decide (value d = val ∧ state d = Kept)); reflexivity.
Qed.

Lemma promote_id (val : Z) (needed : nat) (ds : list Die) :
  id <$> promote val needed ds = id <$> ds.
Proof.
  revert needed. induction ds as [|d ds IH]; intros needed; [reflexivity|].
  cbn [promote].
  destruct (decide (value d = val ∧ state d = Rolled ∧ (0 < needed)%nat));
    rewrite !fmap_cons, IH; reflexivity.
Qed.

Lemma roll_rolled_id (draw : nat → Z) (k : nat) (ds : list Die) :
  id <$> fst (roll_rolled draw k ds) = id <$> ds.
Proof.
  revert k. induction ds as [|d ds IH]; intros k; [reflexivity|].
  cbn [roll_rolled]. destruct (decide (state d = Rolled)).
  - specialize (IH (S k)). destruct (roll_rolled draw (S k) ds) as [out vals].
    cbn [fst] in *. rewrite !fmap_cons, IH. reflexivity.
  - specialize (IH k). destruct (roll_rolled draw k ds) as [out vals].
    cbn [fst] in *. rewrite !fmap_cons, IH. reflexivity.
Qed.

Lemma roll_rolled_state (draw : nat → Z) (k : nat) (ds : list Die) :
  state <$> fst (roll_rolled draw k ds) = state <$> ds.
Proof.
  revert k. induction ds as [|d ds IH]; intros k; [reflexivity|].
  cbn [roll_rolled]. destruct (decide (state d = Rolled)).
  - specialize (IH (S k)). destruct (roll_rolled draw (S k) ds) as [out vals].
    cbn [fst] in *. rewrite !fmap_cons, IH. reflexivity.
  - specialize (IH k). destruct (roll_rolled draw k ds) as [out vals].
    cbn [fst] in *. rewrite !fmap_cons, IH. reflexivity.
Qed.

(** The values the rolling loop collects are the values of the dice left
    in state Rolled, and these are the outcomes [draw k], [draw (k+1)], ...
    in pool order. *)
Lemma roll_rolled_values (draw : nat → Z) (k : nat) (ds : list Die) :
  snd (roll_rolled draw k ds) = values_in Rolled (fst (roll_rolled draw k ds))
  ∧ snd (roll_rolled draw k ds) = draw <$> seq k (count_state Rolled ds).
Proof.
  unfold values_in, count_state.
  revert k. induction ds as [|d ds IH]; intros k; [split; reflexivity|].
  cbn [roll_rolled]. rewrite filter_cons. destruct (decide (state d = Rolled)) as [Hr|Hr].
  - destruct (IH (S k)) as [IH1 IH2]. destruct (roll_rolled draw (S k) ds) as [out vals].
    cbn [fst snd] in *. rewrite filter_cons. cbn [state set_value].
    rewrite decide_True by exact Hr. rewrite fmap_cons. cbn [value length seq].
    rewrite fmap_cons, <- IH1, <- IH2. split; reflexivity.
  - destruct (IH k) as [IH1 IH2]. destruct (roll_rolled draw k ds) as [out vals].
    cbn [fst snd] in *. rewrite filter_cons.
    rewrite decide_False by exact Hr. split; assumption.
Qed.

(** Dice that are not rolled keep their value. *)
Lemma roll_rolled_others (draw : nat → Z) (k : nat) (ds : list Die) :
  filter (λ d, state d ≠ Rolled) (fst (roll_rolled draw k ds))
  = filter (λ d, state d ≠ Rolled) ds.
Proof.
  revert k. induction ds as [|d ds IH]; intros k; [reflexivity|].
  cbn [roll_rolled]. destruct (decide (state d = Rolled)) as [Hr|Hr].
  - specialize (IH (S k)). destruct (roll_rolled draw (S k) ds) as [out vals].
    cbn [fst] in *. rewrite !filter_cons. cbn [state set_value].
    rewrite !decide_False by (intros H; apply H, Hr). exact IH.
  - specialize (IH k). destruct (roll_rolled draw k ds) as [out vals].
    cbn [fst] in *. rewrite !filter_cons.
    rewrite !decide_True by exact Hr. rewrite IH. reflexivity.
Qed.

Lemma filter_state_fmap (st : DieState) (ds ds' : list Die) :
  state <$> ds' = state <$> ds →
  length (filter (λ d, state d = st) ds') = length (filter (λ d, state d = st) ds).
Proof.
  revert ds'. induction ds as [|d ds IH]; intros [|d' ds'] H; try discriminate; [reflexivity|].
  rewrite !fmap_cons in H. injection H as Hd Hds.
  rewrite !filter_cons, Hd.
  destruct (decide (state d = st)); cbn [length]; rewrite (IH _ Hds); reflexivity.
Qed.

Lemma bank_kept_no_kept (ds : list Die) : filter (λ d, state d = Kept) (bank_kept ds) = [].
Proof.
  unfold bank_kept. induction ds as [|d ds IH]; [reflexivity|].
  rewrite fmap_cons, filter_cons.
  destruct (decide (state d = Kept)) as [Hk|Hk].
  - cbn [state set_state]. rewrite decide_False by discriminate. exact IH.
  - rewrite decide_False by exact Hk. exact IH.
Qed.

Lemma reset_rolled_no_kept (ds : list Die) : filter (λ d, state d = Kept) (reset_rolled ds) = [].
Proof.
  unfold reset_rolled. induction ds as [|d ds IH]; [reflexivity|].
  rewrite fmap_cons, filter_cons. cbn [state set_state].
  rewrite decide_False by discriminate. exact IH.
Qed.

Lemma no_kept_length (ds : list Die) :
  filter (λ d, state d = Kept) ds = [] ↔ count_state Kept ds = 0%nat.
Proof.
  unfold count_state. split; [intros ->; reflexivity|].
  destruct (filter _ ds); [reflexivity|discriminate].
Qed.

Lemma roll_rolled_no_kept (draw : nat → Z) (k : nat) (ds : list Die) :
  filter (λ d, state d = Kept) ds = [] →
  filter (λ d, state d = Kept) (fst (roll_rolled draw k ds)) = [].
Proof.
  rewrite !no_kept_length. unfold count_state. intros H.
  rewrite (filter_state_fmap Kept ds) by apply roll_rolled_state. exact H.
Qed.

Lemma count_state_total (ds : list Die) :
  (count_state Rolled ds + count_state Kept ds + count_state Banked ds)%nat = length ds.
Proof.
  unfold count_state. induction ds as [|d ds IH]; [reflexivity|].
  rewrite !filter_cons.
  destruct (state d) eqn:E;
    repeat (first [rewrite decide_True by reflexivity | rewrite decide_False by discriminate]);
    cbn [length]; lia.
Qed.

(** ** What [roll] does, field by field *)

Lemma cpp_roll_dice (rnd : nat → Z) (s : Cpp.Engine) :
  Cpp.dice (Cpp.roll rnd s) = fst (roll_rolled rnd 0 (Cpp.pool_before_roll s)).
Proof.
  unfold Cpp.roll, Cpp.pool_before_roll.
  destruct (roll_rolled rnd 0 _) as [dice3 rolled_values].
  destruct (negb _); reflexivity.
Qed.

Lemma cpp_roll_fixed (rnd : nat → Z) (s : Cpp.Engine) :
  Cpp.player_scores (Cpp.roll rnd s) = Cpp.player_scores s
  ∧ Cpp.current_player_index (Cpp.roll rnd s) = Cpp.current_player_index s
  ∧ Cpp.message (Cpp.roll rnd s) = Cpp.message s
  ∧ Cpp.current_keep_score (Cpp.roll rnd s) = 0.
Proof.
  unfold Cpp.roll.
  destruct (roll_rolled rnd 0 _) as [dice3 rolled_values].
  destruct (negb _); repeat split; reflexivity.
Qed.

(** The outcome of step 4 is decided on the values of the dice that are in
    state Rolled after the call: the newly rolled subset. *)
Lemma cpp_roll_outcome (rnd : nat → Z) (s : Cpp.Engine) :
  let s' := Cpp.roll rnd s in
  if Cpp.has_scoring_potential (values_in Rolled (Cpp.dice s')) then
    Cpp.status s' = Rolling
    ∧ Cpp.turn_score s' = Cpp.add (Cpp.turn_score s) (Cpp.current_keep_score s)
  else
    Cpp.status s' = Farkle ∧ Cpp.turn_score s' = 0.
Proof.
  cbv zeta. rewrite cpp_roll_dice.
  destruct (roll_rolled_values rnd 0 (Cpp.pool_before_roll s)) as [<- _].
  unfold Cpp.roll. fold (Cpp.pool_before_roll s).
  destruct (roll_rolled rnd 0 _) as [dice3 rolled_values]. cbn [snd].
  destruct (Cpp.has_scoring_potential rolled_values); cbn [negb]; split; reflexivity.
Qed.

Lemma cpp_pool_before_roll_id (s : Cpp.Engine) :
  id <$> Cpp.pool_before_roll s = id <$> Cpp.dice s.
Proof.
  unfold Cpp.pool_before_roll. destruct (existsb _ _).
  - apply bank_kept_id.
  - rewrite reset_rolled_id. apply bank_kept_id.
Qed.

Lemma cpp_pool_before_roll_no_kept (s : Cpp.Engine) :
  filter (λ d, state d = Kept) (Cpp.pool_before_roll s) = [].
Proof.
  unfold Cpp.pool_before_roll. destruct (existsb _ _).
  - apply bank_kept_no_kept.
  - apply reset_rolled_no_kept.
Qed.

Lemma ts_roll_dice (rnd : nat → Q) (s : TS.Engine) :
  TS.dice (TS.roll rnd s)
  = fst (roll_rolled (λ k, TS.face (rnd k)) 0 (TS.pool_before_roll s)).
Proof.
  unfold TS.roll, TS.pool_before_roll.
  destruct (decide (0 < length (filter (λ d, state d = Kept) (TS.dice s)))%nat);
    match goal with |- context [decide (length ?l = 0%nat)] =>
      destruct (decide (length l = 0%nat)) end;
    destruct (negb _); reflexivity.
Qed.

Lemma ts_roll_fixed (rnd : nat → Q) (s : TS.Engine) :
  TS.players (TS.roll rnd s) = TS.players s
  ∧ TS.currentPlayerIndex (TS.roll rnd s) = TS.currentPlayerIndex s.
Proof.
  unfold TS.roll.
  destruct (decide (0 < length (filter (λ d, state d = Kept) (TS.dice s)))%nat);
    match goal with |- context [decide (length ?l = 0%nat)] =>
      destruct (decide (length l = 0%nat)) end;
    destruct (negb _); split; reflexivity.
Qed.

(** Step 1 of the TypeScript [roll] commits the keep score only when some
    die is Kept. *)
Lemma ts_roll_outcome (rnd : nat → Q) (s : TS.Engine) :
  let s' := TS.roll rnd s in
  if TS.hasScore (TS.getCounts (filter (λ d, state d = Rolled) (TS.dice s'))) then
    TS.status s' = Rolling
    ∧ (if decide (0 < count_state Kept (TS.dice s))%nat
       then TS.turnScore s' = TS.turnScore s + TS.currentKeepScore s
            ∧ TS.currentKeepScore s' = 0
       else TS.turnScore s' = TS.turnScore s
            ∧ TS.currentKeepScore s' = TS.currentKeepScore s)
  else
    TS.status s' = Farkle ∧ TS.turnScore s' = 0 ∧ TS.currentKeepScore s' = 0.
Proof.
  cbv zeta. rewrite ts_roll_dice.
  unfold TS.roll, count_state. fold (TS.pool_before_roll s).
  unfold TS.pool_before_roll.
  destruct (decide (0 < length (filter (λ d, state d = Kept) (TS.dice s)))%nat);
    match goal with |- context [decide (length ?l = 0%nat)] =>
      destruct (decide (length l = 0%nat)) end;
    match goal with |- context [negb (TS.hasScore ?c)] =>
      destruct (TS.hasScore c) end; cbn [negb]; repeat split; reflexivity.
Qed.

Lemma ts_pool_before_roll_id (s : TS.Engine) :
  id <$> TS.pool_before_roll s = id <$> TS.dice s.
Proof.
  unfold TS.pool_before_roll.
  destruct (decide (0 < _)%nat); destruct (decide (_ = 0%nat));
    rewrite ?reset_rolled_id, ?bank_kept_id; reflexivity.
Qed.

Lemma ts_pool_before_roll_no_kept (s : TS.Engine) :
  filter (λ d, state d = Kept) (TS.pool_before_roll s) = [].
Proof.
  unfold TS.pool_before_roll.
  destruct (decide (0 < _)%nat) as [Hk|Hk]; destruct (decide (_ = 0%nat));
    rewrite ?reset_rolled_no_kept, ?bank_kept_no_kept; try reflexivity.
  destruct (filter (λ d, state d = Kept) (TS.dice s)); [reflexivity|].
  cbn [length] in Hk. lia.
Qed.

(** ** The keep score stays in sync *)

Lemma cpp_evaluate_nil : Cpp.evaluate_scoring [] = 0.
Proof. vm_compute. reflexivity. Qed.

Lemma ts_evaluate_nil : TS.evaluateScoring [] = 0.
Proof. vm_compute. reflexivity. Qed.

Lemma cpp_roll_no_kept (rnd : nat → Z) (s : Cpp.Engine) :
  filter (λ d, state d = Kept) (Cpp.dice (Cpp.roll rnd s)) = [].
Proof.
  rewrite cpp_roll_dice. apply roll_rolled_no_kept, cpp_pool_before_roll_no_kept.
Qed.

Lemma ts_roll_no_kept (rnd : nat → Q) (s : TS.Engine) :
  filter (λ d, state d = Kept) (TS.dice (TS.roll rnd s)) = [].
Proof.
  rewrite ts_roll_dice. apply roll_rolled_no_kept, ts_pool_before_roll_no_kept.
Qed.

Lemma cpp_roll_sync (rnd : nat → Z) (s : Cpp.Engine) : cpp_keep_in_sync (Cpp.roll rnd s).
Proof.
  unfold cpp_keep_in_sync, values_in. rewrite cpp_roll_no_kept.
  destruct (cpp_roll_fixed rnd s) as (_ & _ & _ & ->). symmetry. apply cpp_evaluate_nil.
Qed.

Lemma cpp_recalc_sync (s : Cpp.Engine) : cpp_keep_in_sync (Cpp.recalc_keep_score s).
Proof. reflexivity. Qed.

Lemma cpp_toggle_keep_sync (die_id : Z) (s : Cpp.Engine) :
  cpp_keep_in_sync s → cpp_keep_in_sync (Cpp.toggle_keep die_id s).
Proof.
  intros Hs. unfold Cpp.toggle_keep.
  repeat case_match; first [exact Hs | apply cpp_recalc_sync].
Qed.

Lemma cpp_pass_turn_sync (rnd : nat → Z) (s s' : Cpp.Engine) :
  Cpp.pass_turn rnd s = Some s' → cpp_keep_in_sync s'.
Proof.
  unfold Cpp.pass_turn. case_match; [discriminate|].
  intros [= <-]. apply cpp_roll_sync.
Qed.

Lemma cpp_bank_sync (rnd : nat → Z) (s s' : Cpp.Engine) :
  cpp_keep_in_sync s → Cpp.bank rnd s = Some s' → cpp_keep_in_sync s'.
Proof.
  intros Hs. unfold Cpp.bank. repeat case_match; try discriminate.
  - intros [= <-]. exact Hs.
  - intros [= <-]. unfold cpp_keep_in_sync, values_in. cbn [Cpp.dice Cpp.current_keep_score].
    rewrite bank_kept_no_kept. symmetry. apply cpp_evaluate_nil.
  - apply cpp_pass_turn_sync.
Qed.

Lemma cpp_reachable_sync (s : Cpp.Engine) : Cpp.reachable s → cpp_keep_in_sync s.
Proof.
  induction 1 as [n rnd|rnd s _ _|die_id s _ IH|rnd s s' _ IH Hb|rnd s s' _ _ Hp|s _ _].
  - apply cpp_roll_sync.
  - apply cpp_roll_sync.
  - apply cpp_toggle_keep_sync, IH.
  - exact (cpp_bank_sync rnd s s' IH Hb).
  - exact (cpp_pass_turn_sync rnd s s' Hp).
  - apply cpp_recalc_sync.
Qed.

Lemma ts_roll_sync (rnd : nat → Q) (s : TS.Engine) :
  ts_keep_in_sync s → ts_keep_in_sync (TS.roll rnd s).
Proof.
  unfold ts_keep_in_sync. intros Hs. rewrite ts_roll_no_kept, ts_evaluate_nil.
  pose proof (ts_roll_outcome rnd s) as Ho. cbv zeta in Ho.
  destruct (TS.hasScore _).
  - destruct Ho as [_ Ho]. destruct (decide (0 < count_state Kept (TS.dice s))%nat) as [Hk|Hk].
    + apply Ho.
    + destruct Ho as [_ ->]. rewrite Hs.
      assert (count_state Kept (TS.dice s) = 0%nat) as H0 by lia.
      apply no_kept_length in H0. rewrite H0. apply ts_evaluate_nil.
  - apply Ho.
Qed.

Lemma ts_recalc_sync (s : TS.Engine) : ts_keep_in_sync (TS.recalcKeepScore s).
Proof. reflexivity. Qed.

Lemma ts_toggleKeep_sync (dieId : Z) (s : TS.Engine) :
  ts_keep_in_sync s → ts_keep_in_sync (TS.toggleKeep dieId s).
Proof.
  intros Hs. unfold TS.toggleKeep.
  repeat case_match; first [exact Hs | apply ts_recalc_sync].
Qed.

Lemma createDice_no_kept (rnd : nat → Q) :
  filter (λ d, state d = Kept) (TS.createDice rnd) = [].
Proof. reflexivity. Qed.

Lemma ts_passTurn_sync (rnd : nat → Q) (s s' : TS.Engine) :
  TS.passTurn rnd s = Some s' → ts_keep_in_sync s'.
Proof.
  unfold TS.passTurn. case_match; [|discriminate].
  intros [= <-]. unfold ts_keep_in_sync. cbn [TS.dice TS.currentKeepScore].
  rewrite createDice_no_kept. symmetry. apply ts_evaluate_nil.
Qed.

Lemma ts_bank_sync (rnd : nat → Q) (s s' : TS.Engine) :
  ts_keep_in_sync s → TS.bank rnd s = Some s' → ts_keep_in_sync s'.
Proof.
  intros Hs. unfold TS.bank. repeat case_match; try discriminate.
  - intros [= <-]. exact Hs.
  - intros [= <-]. unfold ts_keep_in_sync. cbn [TS.dice TS.currentKeepScore].
    rewrite bank_kept_no_kept. symmetry. apply ts_evaluate_nil.
  - apply ts_passTurn_sync.
Qed.

Lemma ts_computerMove_sync (rnd : nat → Q) (s : TS.Engine) :
  ts_keep_in_sync s → ts_keep_in_sync (TS.computerMove rnd s).
Proof.
  intros Hs. unfold TS.computerMove.
  destruct (decide (TS.status s = Win)); [exact Hs|].
  destruct (decide (TS.status (TS.roll rnd s) = Farkle)); [apply ts_roll_sync, Hs|].
  apply ts_recalc_sync.
Qed.

Lemma ts_reachable_sync (s : TS.Engine) : TS.reachable s → ts_keep_in_sync s.
Proof.
  induction 1 as [names rnd|rnd s _ IH|dieId s _ IH|rnd s s' _ IH Hb|rnd s s' _ _ Hp|rnd s _ IH].
  - unfold ts_keep_in_sync. cbn [TS.new_engine TS.dice TS.currentKeepScore].
    rewrite createDice_no_kept. symmetry. apply ts_evaluate_nil.
  - apply ts_roll_sync, IH.
  - apply ts_toggleKeep_sync, IH.
  - exact (ts_bank_sync rnd s s' IH Hb).
  - exact (ts_passTurn_sync rnd s s' Hp).
  - apply ts_computerMove_sync, IH.
Qed.

(** ** Six dice with the ids 0..5 *)

Lemma insert_found_id (ds : list Die) (i : nat) (d : Die) (st : DieState) :
  ds !! i = Some d → id <$> <[i := set_state st d]> ds = id <$> ds.
Proof.
  intros H. rewrite list_fmap_insert. cbn [id set_state].
  apply list_insert_id. rewrite list_lookup_fmap, H. reflexivity.
Qed.

Lemma list_find_lookup (P : Die → Prop) `{∀ d, Decision (P d)}
    (ds : list Die) (i : nat) (d : Die) :
  list_find P ds = Some (i, d) → ds !! i = Some d ∧ P d.
Proof. intros Hf. apply list_find_Some in Hf. destruct Hf as (? & ? & _). auto. Qed.

Lemma cpp_roll_ids (rnd : nat → Z) (s : Cpp.Engine) :
  id <$> Cpp.dice (Cpp.roll rnd s) = id <$> Cpp.dice s.
Proof. rewrite cpp_roll_dice, roll_rolled_id. apply cpp_pool_before_roll_id. Qed.

Lemma cpp_toggle_keep_ids (die_id : Z) (s : Cpp.Engine) :
  id <$> Cpp.dice (Cpp.toggle_keep die_id s) = id <$> Cpp.dice s.
Proof.
  unfold Cpp.toggle_keep.
  repeat case_match; subst; cbn [Cpp.dice Cpp.recalc_keep_score Cpp.with_dice];
    rewrite ?unkeep_value_id, ?promote_id; try reflexivity;
    match goal with H : list_find _ _ = Some _ |- _ =>
      apply list_find_lookup in H; destruct H as [H _];
      apply (insert_found_id _ _ _ Kept H) end.
Qed.

Lemma cpp_pass_turn_ids (rnd : nat → Z) (s s' : Cpp.Engine) :
  Cpp.pass_turn rnd s = Some s' → id <$> Cpp.dice s' = id <$> Cpp.dice s.
Proof.
  unfold Cpp.pass_turn. case_match; [discriminate|].
  intros [= <-]. rewrite cpp_roll_ids. cbn [Cpp.dice]. apply reset_rolled_id.
Qed.

Lemma cpp_bank_ids (rnd : nat → Z) (s s' : Cpp.Engine) :
  Cpp.bank rnd s = Some s' → id <$> Cpp.dice s' = id <$> Cpp.dice s.
Proof.
  unfold Cpp.bank. repeat case_match; try discriminate.
  - intros [= <-]. reflexivity.
  - intros [= <-]. cbn [Cpp.dice]. apply bank_kept_id.
  - intros Hp. apply cpp_pass_turn_ids in Hp. rewrite Hp. cbn [Cpp.dice]. apply bank_kept_id.
Qed.

Lemma cpp_reachable_ids (s : Cpp.Engine) : Cpp.reachable s → pool_ids (Cpp.dice s).
Proof.
  unfold pool_ids.
  induction 1 as [n rnd|rnd s _ IH|die_id s _ IH|rnd s s' _ IH Hb|rnd s s' _ IH Hp|s _ IH].
  - unfold Cpp.new_engine. rewrite cpp_roll_ids. reflexivity.
  - rewrite cpp_roll_ids. exact IH.
  - rewrite cpp_toggle_keep_ids. exact IH.
  - rewrite (cpp_bank_ids rnd s s' Hb). exact IH.
  - rewrite (cpp_pass_turn_ids rnd s s' Hp). exact IH.
  - exact IH.
Qed.

Lemma ts_roll_ids (rnd : nat → Q) (s : TS.Engine) :
  id <$> TS.dice (TS.roll rnd s) = id <$> TS.dice s.
Proof. rewrite ts_roll_dice, roll_rolled_id. apply ts_pool_before_roll_id. Qed.

Lemma ts_toggleKeep_ids (dieId : Z) (s : TS.Engine) :
  id <$> TS.dice (TS.toggleKeep dieId s) = id <$> TS.dice s.
Proof.
  unfold TS.toggleKeep.
  repeat case_match; subst; cbn [TS.dice TS.recalcKeepScore TS.with_dice];
    rewrite ?unkeep_value_id, ?promote_id; try reflexivity;
    match goal with H : list_find _ _ = Some _ |- _ =>
      apply list_find_lookup in H; destruct H as [H _];
      apply (insert_found_id _ _ _ Kept H) end.
Qed.

Lemma createDice_ids (rnd : nat → Q) : pool_ids (TS.createDice rnd).
Proof. reflexivity. Qed.

Lemma ts_passTurn_ids (rnd : nat → Q) (s s' : TS.Engine) :
  TS.passTurn rnd s = Some s' → pool_ids (TS.dice s').
Proof.
  unfold TS.passTurn. case_match; [|discriminate].
  intros [= <-]. apply createDice_ids.
Qed.

Lemma ts_bank_ids (rnd : nat → Q) (s s' : TS.Engine) :
  pool_ids (TS.dice s) → TS.bank rnd s = Some s' → pool_ids (TS.dice s').
Proof.
  unfold pool_ids. intros Hs. unfold TS.bank. repeat case_match; try discriminate.
  - intros [= <-]. exact Hs.
  - intros [= <-]. cbn [TS.dice]. rewrite bank_kept_id. exact Hs.
  - apply ts_passTurn_ids.
Qed.

(** The last loop of [computerMove] only writes die states. *)
Lemma apply_keeps_ids (keeps : list Z) (ds : list Die) :
  id <$> foldl (λ ds i,
                  match list_find (λ x, id x = i) ds with
                  | Some (k, d) => <[k := set_state Kept d]> ds
                  | None => ds
                  end) ds keeps
  = id <$> ds.
Proof.
  revert ds. induction keeps as [|i keeps IH]; intros ds; [reflexivity|].
  cbn [foldl]. rewrite IH.
  destruct (list_find (λ x, id x = i) ds) as [[k d]|] eqn:E; [|reflexivity].
  apply list_find_lookup in E. destruct E as [E _].
  apply (insert_found_id _ _ _ Kept E).
Qed.

Lemma ts_computerMove_ids (rnd : nat → Q) (s : TS.Engine) :
  id <$> TS.dice (TS.computerMove rnd s) = id <$> TS.dice s.
Proof.
  unfold TS.computerMove.
  destruct (decide (TS.status s = Win)); [reflexivity|].
  destruct (decide (TS.status (TS.roll rnd s) = Farkle)); [apply ts_roll_ids|].
  cbn [TS.dice TS.recalcKeepScore TS.with_dice].
  rewrite apply_keeps_ids. apply ts_roll_ids.
Qed.

Lemma ts_reachable_ids (s : TS.Engine) : TS.reachable s → pool_ids (TS.dice s).
Proof.
  induction 1 as [names rnd|rnd s _ IH|dieId s _ IH|rnd s s' _ IH Hb|rnd s s' _ _ Hp|rnd s _ IH].
  - apply createDice_ids.
  - unfold pool_ids. rewrite ts_roll_ids. exact IH.
  - unfold pool_ids. rewrite ts_toggleKeep_ids. exact IH.
  - exact (ts_bank_ids rnd s s' IH Hb).
  - exact (ts_passTurn_ids rnd s s' Hp).
  - unfold pool_ids. rewrite ts_computerMove_ids. exact IH.
Qed.

Lemma pool_ids_length (ds : list Die) : pool_ids ds → length ds = 6%nat.
Proof.
  unfold pool_ids. intros H. rewrite <- (length_fmap id ds), H. reflexivity.
Qed.

(** ** Scoring potential *)

Lemma occurrences_zero (v : Z) (vs : list Z) : occurrences v vs = 0%nat ↔ v ∉ vs.
Proof.
  unfold occurrences. induction vs as [|x vs IH].
  - split; [intros _; apply not_elem_of_nil|reflexivity].
  - rewrite filter_cons, not_elem_of_cons. destruct (decide (x = v)) as [->|Hne].
    + cbn [length]. split; [discriminate|intros [H _]; contradiction].
    + rewrite IH. split; [intros H; split; [congruence|exact H]|intros [_ H]; exact H].
Qed.

Lemma some_count_ge3 (m : gmap Z nat) :
  existsb (λ '(_, count), bool_decide (3 ≤ count)%nat) (map_to_list m) = true
  ↔ ∃ k, (3 ≤ default 0 (m !! k))%nat.
Proof.
  rewrite existsb_exists. split.
  - intros ([k c] & Hin & Hc). apply list_elem_of_In, elem_of_map_to_list in Hin.
    apply bool_decide_eq_true in Hc. exists k. rewrite Hin. exact Hc.
  - intros (k & Hk). destruct (m !! k) as [c|] eqn:E; cbn in Hk; [|lia].
    exists (k, c). split.
    + apply list_elem_of_In, elem_of_map_to_list. exact E.
    + apply bool_decide_eq_true. exact Hk.
Qed.

Lemma some_value_ge3 (m : gmap Z nat) :
  existsb (λ c, bool_decide (3 ≤ c)%nat) (snd <$> map_to_list m) = true
  ↔ ∃ k, (3 ≤ default 0 (m !! k))%nat.
Proof.
  rewrite <- some_count_ge3, !existsb_exists. split.
  - intros (c & Hin & Hc). apply list_elem_of_In, list_elem_of_fmap in Hin.
    destruct Hin as ([k c'] & -> & Hin). exists (k, c'). split; [|exact Hc].
    apply list_elem_of_In. exact Hin.
  - intros ([k c] & Hin & Hc). exists c. split; [|exact Hc].
    apply list_elem_of_In, list_elem_of_fmap. exists (k, c). split; [reflexivity|].
    apply list_elem_of_In. exact Hin.
Qed.

Lemma no_potential_counts (vs : list Z) :
  no_potential vs
  ↔ occurrences 1 vs = 0%nat ∧ occurrences 5 vs = 0%nat ∧ ¬ ∃ k, (3 ≤ occurrences k vs)%nat.
Proof.
  unfold no_potential. rewrite !occurrences_zero. split.
  - intros (H1 & H5 & H3). repeat split; try assumption.
    intros (k & Hk). specialize (H3 k). lia.
  - intros (H1 & H5 & H3). repeat split; try assumption.
    intros v. destruct (decide (occurrences v vs < 3)%nat) as [|Hge]; [assumption|].
    exfalso. apply H3. exists v. lia.
Qed.

Lemma cpp_has_scoring_potential_false (values : list Z) :
  Cpp.has_scoring_potential values = false ↔ no_potential values.
Proof.
  rewrite no_potential_counts. unfold Cpp.has_scoring_potential.
  pose proof (subscript_fst (Cpp.count_values values) 1) as Hf1.
  pose proof (subscript_snd (Cpp.count_values values) 1) as Hs1.
  destruct (Cpp.subscript (Cpp.count_values values) 1) as [c1 counts1]. cbn [fst snd] in *.
  pose proof (subscript_fst counts1 5) as Hf5.
  pose proof (subscript_snd counts1 5) as Hs5.
  destruct (Cpp.subscript counts1 5) as [c5 counts2]. cbn [fst snd] in *.
  rewrite count_values_lookup in Hf1. rewrite Hs1, count_values_lookup in Hf5.
  assert (∀ k, default 0%nat (counts2 !! k) = occurrences k values) as Hc.
  { intros k. rewrite Hs5, Hs1. apply count_values_lookup. }
  rewrite <- Hf1, <- Hf5.
  destruct (bool_decide_reflect (0 < c1)%nat); [split; [discriminate|lia]|].
  destruct (bool_decide_reflect (0 < c5)%nat); [split; [discriminate|lia]|].
  rewrite <- not_true_iff_false, some_count_ge3.
  setoid_rewrite Hc. split; [intros H; repeat split; [lia|lia|exact H]|intros (_ & _ & H); exact H].
Qed.

Lemma ts_hasScore_false (dice : list Die) :
  TS.hasScore (TS.getCounts dice) = false ↔ no_potential (value <$> dice).
Proof.
  rewrite no_potential_counts. unfold TS.hasScore.
  rewrite !getCounts_lookup.
  destruct (bool_decide_reflect (0 < occurrences 1 (value <$> dice))%nat);
    [split; [discriminate|lia]|].
  destruct (bool_decide_reflect (0 < occurrences 5 (value <$> dice))%nat);
    [split; [discriminate|lia]|].
  cbn [orb]. rewrite <- not_true_iff_false, some_value_ge3.
  setoid_rewrite getCounts_lookup.
  split; [intros H; repeat split; [lia|lia|exact H]|intros (_ & _ & H); exact H].
Qed.

Example cpp_opening_state :
  Cpp.dice cpp_opening = dice_of Rolled [1; 1; 1; 2; 3; 4]
  ∧ Cpp.status cpp_opening = Rolling.
Proof. vm_compute. split; reflexivity. Qed.

Example ts_opening_state :
  TS.dice ts_opening = dice_of Rolled [1; 1; 1; 2; 3; 4]
  ∧ TS.status ts_opening = Rolling.
Proof. vm_compute. split; reflexivity. Qed.

Example cpp_end_to_end :
  let s1 := Cpp.toggle_keep 0 cpp_opening in
  values_in Kept (Cpp.dice s1) = [1; 1; 1]
  ∧ Cpp.current_keep_score s1 = 1000
  ∧ ∃ s2, Cpp.bank (scripted [2; 2; 3; 3; 4; 5] 1) s1 = Some s2
          ∧ Cpp.player_scores s2 = [1000; 0]
          ∧ Cpp.current_player_index s2 = 1%nat.
Proof. vm_compute. repeat split. eexists. repeat split. Qed.

(** * The claims *)

(** ** C1: the scoring evaluators *)

(** C1, as the specification states it, fails on the TypeScript evaluator:
    four ones kept are a triple and a single there, 1100 points, where the
    doubling rule gives 2000. *)
Lemma evaluateScoring_four_ones_not_doubling :
  ¬ (∀ dice : list Die,
       (length dice ≤ 6)%nat →
       (∀ d, d ∈ dice → 1 ≤ value d ≤ 6) →
       TS.evaluateScoring dice = canonical_score (value <$> dice)).
Proof.
  intros H. specialize (H (dice_of Kept [1; 1; 1; 1])).
  assert (TS.evaluateScoring (dice_of Kept [1; 1; 1; 1]) = 1100) as E
    by (vm_compute; reflexivity).
  rewrite E in H.
  assert (canonical_score (value <$> dice_of Kept [1; 1; 1; 1]) = 2000) as E'
    by (vm_compute; reflexivity).
  rewrite E' in H.
  assert (1100 = 2000) as Habs; [|discriminate Habs].
  apply H.
  - cbn. lia.
  - intros d Hd. cbn in Hd.
    repeat (apply elem_of_cons in Hd; destruct Hd as [->|Hd]; [cbn; lia|]).
    apply elem_of_nil in Hd. contradiction.
Qed.

(** C1 (amended).  On every list of at most six face values the C++
    [evaluate_scoring] returns the canonical doubling score, 2000 on four
    ones.  The TypeScript [evaluateScoring] scores every complete group of
    three of a face at the base amount and the dice left over as singles,
    1100 on four ones; it returns the canonical score whenever no face
    occurs more than three times. *)
Theorem scoring_doubling_cpp_triples_ts :
  (∀ values : list Z,
     (length values ≤ 6)%nat → Cpp.evaluate_scoring values = canonical_score values)
  ∧ Cpp.evaluate_scoring [1; 1; 1; 1] = 2000
  ∧ (∀ dice : list Die, TS.evaluateScoring dice = flat_score (value <$> dice))
  ∧ TS.evaluateScoring (dice_of Kept [1; 1; 1; 1]) = 1100
  ∧ (∀ dice : list Die,
       (∀ v, (occurrences v (value <$> dice) ≤ 3)%nat) →
       TS.evaluateScoring dice = canonical_score (value <$> dice)).
Proof.
  split; [exact cpp_evaluate_scoring_canonical|].
  split; [vm_compute; reflexivity|].
  split; [exact ts_evaluateScoring_flat|].
  split; [vm_compute; reflexivity|].
  intros dice H. rewrite ts_evaluateScoring_flat. apply flat_score_canonical, H.
Qed.

Lemma scoring_doubling_cpp_triples_ts_witness :
  Cpp.evaluate_scoring [1; 1; 1; 1; 5; 2] = canonical_score [1; 1; 1; 1; 5; 2]
  ∧ TS.evaluateScoring (dice_of Kept [1; 1; 1])
    = canonical_score (value <$> dice_of Kept [1; 1; 1]).
Proof.
  split.
  - apply (proj1 scoring_doubling_cpp_triples_ts). cbn. lia.
  - apply (proj2 (proj2 (proj2 (proj2 scoring_doubling_cpp_triples_ts)))).
    intros v. apply (occurrences_le_length v [1; 1; 1]).
Defined.

(** The bound on the number of dice is needed: the score is an [int], and
    twenty-five ones leave its range. *)
Example evaluate_scoring_leaves_int :
  canonical_score (replicate 25 1) = 4194304000
  ∧ Cpp.evaluate_scoring (replicate 25 1) = -100663296.
Proof. vm_compute. split; reflexivity. Qed.

(** The scores of the testable properties, on both evaluators. *)
Example scoring_table_cpp :
  Cpp.evaluate_scoring [1; 1; 1] = 1000 ∧ Cpp.evaluate_scoring [5; 5; 5] = 500
  ∧ Cpp.evaluate_scoring [2; 2; 2] = 200 ∧ Cpp.evaluate_scoring [1] = 100
  ∧ Cpp.evaluate_scoring [5] = 50 ∧ Cpp.evaluate_scoring [2] = 0.
Proof. vm_compute. repeat split. Qed.

Example scoring_table_ts :
  TS.evaluateScoring (dice_of Kept [1; 1; 1]) = 1000
  ∧ TS.evaluateScoring (dice_of Kept [5; 5; 5]) = 500
  ∧ TS.evaluateScoring (dice_of Kept [2; 2; 2]) = 200
  ∧ TS.evaluateScoring (dice_of Kept [1]) = 100
  ∧ TS.evaluateScoring (dice_of Kept [5]) = 50
  ∧ TS.evaluateScoring (dice_of Kept [2]) = 0.
Proof. vm_compute. repeat split. Qed.

(** ** C7: the keep score is the evaluator's score of the Kept dice *)

(** C7.  In every state reachable through the public operations, of either
    engine, [currentKeepScore] is the engine's scoring evaluator applied to
    the dice whose state is Kept. *)
Theorem keep_score_is_score_of_kept :
  (∀ s : Cpp.Engine, Cpp.reachable s →
     Cpp.current_keep_score s = Cpp.evaluate_scoring (values_in Kept (Cpp.dice s)))
  ∧ (∀ s : TS.Engine, TS.reachable s →
       TS.currentKeepScore s
       = TS.evaluateScoring (filter (λ d, state d = Kept) (TS.dice s))).
Proof.
  split.
  - exact cpp_reachable_sync.
  - exact ts_reachable_sync.
Qed.

Lemma keep_score_is_score_of_kept_witness :
  Cpp.current_keep_score (Cpp.toggle_keep 0 cpp_opening)
  = Cpp.evaluate_scoring (values_in Kept (Cpp.dice (Cpp.toggle_keep 0 cpp_opening)))
  ∧ TS.currentKeepScore (TS.toggleKeep 0 ts_opening)
    = TS.evaluateScoring
        (filter (λ d, state d = Kept) (TS.dice (TS.toggleKeep 0 ts_opening))).
Proof.
  split.
  - apply (proj1 keep_score_is_score_of_kept).
    apply Cpp.reach_toggle_keep, Cpp.reach_new.
  - apply (proj2 keep_score_is_score_of_kept).
    apply TS.reach_toggleKeep, TS.reach_roll, TS.reach_new.
Defined.

(** ** C8: six dice, each in one of the three states, ids 0..5 *)

(** C8.  In every reachable state of either engine the pool holds six
    dice, the numbers of Rolled, Kept and Banked dice add up to six, and
    the dice carry the ids 0, 1, 2, 3, 4, 5 in pool order. *)
Theorem pool_of_six_dice :
  (∀ s : Cpp.Engine, Cpp.reachable s →
     length (Cpp.dice s) = 6%nat
     ∧ (count_state Rolled (Cpp.dice s) + count_state Kept (Cpp.dice s)
        + count_state Banked (Cpp.dice s))%nat = 6%nat
     ∧ id <$> Cpp.dice s = [0; 1; 2; 3; 4; 5])
  ∧ (∀ s : TS.Engine, TS.reachable s →
       length (TS.dice s) = 6%nat
       ∧ (count_state Rolled (TS.dice s) + count_state Kept (TS.dice s)
          + count_state Banked (TS.dice s))%nat = 6%nat
       ∧ id <$> TS.dice s = [0; 1; 2; 3; 4; 5]).
Proof.
  split; intros s Hs.
  - pose proof (cpp_reachable_ids s Hs) as Hid.
    rewrite count_state_total. auto using pool_ids_length.
  - pose proof (ts_reachable_ids s Hs) as Hid.
    rewrite count_state_total. auto using pool_ids_length.
Qed.

Lemma pool_of_six_dice_witness :
  length (Cpp.dice (Cpp.toggle_keep 0 cpp_opening)) = 6%nat
  ∧ length (TS.dice (TS.toggleKeep 0 ts_opening)) = 6%nat.
Proof.
  split.
  - apply (proj1 pool_of_six_dice).
    apply Cpp.reach_toggle_keep, Cpp.reach_new.
  - apply (proj2 pool_of_six_dice).
    apply TS.reach_toggleKeep, TS.reach_roll, TS.reach_new.
Defined.

(** ** C4: a roll without scoring potential forfeits the turn *)

Lemma cpp_roll_newly_rolled (rnd : nat → Z) (s : Cpp.Engine) :
  values_in Rolled (Cpp.dice (Cpp.roll rnd s))
  = rnd <$> seq 0 (count_state Rolled (Cpp.dice (Cpp.roll rnd s))).
Proof.
  rewrite cpp_roll_dice.
  destruct (roll_rolled_values rnd 0 (Cpp.pool_before_roll s)) as [<- ->].
  unfold count_state. f_equal. f_equal. symmetry.
  apply filter_state_fmap, roll_rolled_state.
Qed.

Lemma ts_roll_newly_rolled (rnd : nat → Q) (s : TS.Engine) :
  values_in Rolled (TS.dice (TS.roll rnd s))
  = (λ k, TS.face (rnd k)) <$> seq 0 (count_state Rolled (TS.dice (TS.roll rnd s))).
Proof.
  rewrite ts_roll_dice.
  destruct (roll_rolled_values (λ k, TS.face (rnd k)) 0 (TS.pool_before_roll s)) as [<- ->].
  unfold count_state. f_equal. f_equal. symmetry.
  apply filter_state_fmap, roll_rolled_state.
Qed.

(** C4.  After [roll], in either engine, the dice in state Rolled are the
    newly rolled subset (they carry the outcomes drawn, in pool order).
    When that subset has no 1, no 5 and no face occurring three times, the
    status is Farkle and both [turnScore] and [currentKeepScore] are 0,
    whatever the turn had accumulated; otherwise the status is Rolling. *)
Theorem roll_without_potential_is_farkle :
  (∀ (rnd : nat → Z) (s : Cpp.Engine),
     let s' := Cpp.roll rnd s in
     let newly := values_in Rolled (Cpp.dice s') in
     newly = rnd <$> seq 0 (length newly)
     ∧ (no_potential newly →
        Cpp.status s' = Farkle ∧ Cpp.turn_score s' = 0 ∧ Cpp.current_keep_score s' = 0)
     ∧ (¬ no_potential newly → Cpp.status s' = Rolling))
  ∧ (∀ (rnd : nat → Q) (s : TS.Engine),
       let s' := TS.roll rnd s in
       let newly := values_in Rolled (TS.dice s') in
       newly = (λ k, TS.face (rnd k)) <$> seq 0 (length newly)
       ∧ (no_potential newly →
          TS.status s' = Farkle ∧ TS.turnScore s' = 0 ∧ TS.currentKeepScore s' = 0)
       ∧ (¬ no_potential newly → TS.status s' = Rolling)).
Proof.
  split; intros rnd s s' newly; subst s' newly.
  - split; [|split].
    + unfold values_in at 2. rewrite length_fmap. apply cpp_roll_newly_rolled.
    + intros Hno. apply cpp_has_scoring_potential_false in Hno.
      pose proof (cpp_roll_outcome rnd s) as Ho. cbv zeta in Ho. rewrite Hno in Ho.
      destruct (cpp_roll_fixed rnd s) as (_ & _ & _ & Hk). tauto.
    + intros Hpot. rewrite <- cpp_has_scoring_potential_false in Hpot.
      pose proof (cpp_roll_outcome rnd s) as Ho. cbv zeta in Ho.
      destruct (Cpp.has_scoring_potential _); [apply Ho|contradiction].
  - split; [|split].
    + unfold values_in at 2. rewrite length_fmap. apply ts_roll_newly_rolled.
    + intros Hno. unfold values_in in Hno. apply ts_hasScore_false in Hno.
      pose proof (ts_roll_outcome rnd s) as Ho. cbv zeta in Ho. rewrite Hno in Ho.
      exact Ho.
    + intros Hpot. unfold values_in in Hpot. rewrite <- ts_hasScore_false in Hpot.
      pose proof (ts_roll_outcome rnd s) as Ho. cbv zeta in Ho.
      destruct (TS.hasScore _); [apply Ho|contradiction].
Qed.

Example second_cycle_pots :
  Cpp.turn_score cpp_second_cycle = 1000 ∧ Cpp.current_keep_score cpp_second_cycle = 100
  ∧ TS.turnScore ts_second_cycle = 1000 ∧ TS.currentKeepScore ts_second_cycle = 100.
Proof. vm_compute. repeat split. Qed.

Lemma roll_without_potential_is_farkle_witness :
  (Cpp.status (Cpp.roll (scripted [2; 3] 1) cpp_second_cycle) = Farkle
   ∧ Cpp.turn_score (Cpp.roll (scripted [2; 3] 1) cpp_second_cycle) = 0
   ∧ Cpp.current_keep_score (Cpp.roll (scripted [2; 3] 1) cpp_second_cycle) = 0)
  ∧ TS.status (TS.roll (scripted [1 # 6; 1 # 3] (1 # 6))%Q ts_second_cycle) = Rolling.
Proof.
  split.
  - apply (proj1 roll_without_potential_is_farkle (scripted [2; 3] 1) cpp_second_cycle).
    apply cpp_has_scoring_potential_false. vm_compute. reflexivity.
  - apply (proj2 roll_without_potential_is_farkle
             (scripted [1 # 6; 1 # 3] (1 # 6))%Q ts_second_cycle).
    intros Hno. unfold values_in in Hno. apply ts_hasScore_false in Hno.
    vm_compute in Hno. discriminate Hno.
Defined.

(** ** C6: the faces a roll can show *)

Lemma face_zero : TS.face 0%Q = 0.
Proof. reflexivity. Qed.

Lemma face_range (r : Q) : (0 < r)%Q → (r < 1)%Q → 1 ≤ TS.face r ≤ 6.
Proof.
  intros H0 H1. unfold TS.face.
  assert (0 < r * inject_Z 6)%Q as Hpos by (unfold inject_Z; lra).
  assert (r * inject_Z 6 <= inject_Z 6)%Q as Hle by (unfold inject_Z; lra).
  split.
  - pose proof (Qle_ceiling (r * inject_Z 6)) as Hc.
    assert (inject_Z 0 < inject_Z (Qceiling (r * inject_Z 6)))%Q as Hlt
      by (eapply Qlt_le_trans; [exact Hpos|exact Hc]).
    rewrite <- Zlt_Qlt in Hlt. lia.
  - apply Qceiling_resp_le in Hle. rewrite Qceiling_Z in Hle. exact Hle.
Qed.

(** With [Math.random()] in the half-open interval from 0 to 1 the face is
    between 0 and 6, and it is 0 exactly when the outcome is 0. *)
Lemma face_admissible (r : Q) : (0 <= r)%Q → (r < 1)%Q → 0 ≤ TS.face r ≤ 6.
Proof.
  intros H0 H1. destruct (Qlt_le_dec 0 r) as [Hpos|Hnonpos].
  - pose proof (face_range r Hpos H1). lia.
  - assert (r == 0)%Q as Hr by lra. unfold TS.face.
    rewrite (Qceiling_comp (r * inject_Z 6) 0) by (rewrite Hr; reflexivity).
    vm_compute. split; intros ?; discriminate.
Qed.

(** The C++ engine: every die rolled shows a face the distribution
    yields. *)
Lemma cpp_roll_faces_in_range (rnd : nat → Z) (s : Cpp.Engine) :
  (∀ k, 1 ≤ rnd k ≤ 6) →
  ∀ d, d ∈ Cpp.dice (Cpp.roll rnd s) → state d = Rolled → 1 ≤ value d ≤ 6.
Proof.
  intros Hrnd d Hd Hst.
  assert (value d ∈ values_in Rolled (Cpp.dice (Cpp.roll rnd s))) as Hv.
  { unfold values_in. apply list_elem_of_fmap. exists d. split; [reflexivity|].
    apply list_elem_of_filter. split; assumption. }
  rewrite cpp_roll_newly_rolled in Hv. apply list_elem_of_fmap in Hv.
  destruct Hv as (k & -> & _). apply Hrnd.
Qed.

(** The TypeScript engine, as long as [Math.random()] never returns 0. *)
Lemma ts_roll_faces_in_range (rnd : nat → Q) (s : TS.Engine) :
  (∀ k, (0 < rnd k)%Q ∧ (rnd k < 1)%Q) →
  ∀ d, d ∈ TS.dice (TS.roll rnd s) → state d = Rolled → 1 ≤ value d ≤ 6.
Proof.
  intros Hrnd d Hd Hst.
  assert (value d ∈ values_in Rolled (TS.dice (TS.roll rnd s))) as Hv.
  { unfold values_in. apply list_elem_of_fmap. exists d. split; [reflexivity|].
    apply list_elem_of_filter. split; assumption. }
  rewrite ts_roll_newly_rolled in Hv. apply list_elem_of_fmap in Hv.
  destruct Hv as (k & -> & _). apply face_range; apply Hrnd.
Qed.

(** C6 fails on the TypeScript engine.  [Math.random()] may return 0, and
    [Math.ceil(0 * 6)] is 0: the first roll of a fresh game, with the
    source returning 0 for the first die and 1/2 for the others, leaves
    die 0 Rolled with the face 0, outside 1..6; the five threes beside it
    keep the status Rolling. *)
Theorem roll_shows_face_zero :
  let rnd := scripted [0 # 1; 1 # 2; 1 # 2; 1 # 2; 1 # 2; 1 # 2]%Q (1 # 2)%Q in
  let s' := TS.roll rnd (TS.new_engine ["Player"; "Computer"] rnd) in
  (0 <= rnd 0%nat)%Q ∧ (rnd 0%nat < 1)%Q
  ∧ TS.dice s' !! 0%nat = Some (mkDie 0 0 Rolled)
  ∧ TS.status s' = Rolling
  ∧ ¬ (1 ≤ 0 ≤ 6).
Proof.
  cbv zeta. split; [|split; [|split; [|split]]].
  - vm_compute. discriminate.
  - vm_compute. reflexivity.
  - vm_compute. reflexivity.
  - vm_compute. reflexivity.
  - lia.
Qed.

(** ** C5: [bank] *)

Lemma cpp_bank_commits (rnd : nat → Z) (s : Cpp.Engine) (total : Z) :
  Cpp.player_scores s !! Cpp.current_player_index s = Some total →
  ¬ (Cpp.current_keep_score s = 0 ∧ Cpp.turn_score s = 0) →
  Cpp.bank rnd s
  = if decide (10000 ≤ Cpp.add total
                         (Cpp.add (Cpp.turn_score s) (Cpp.current_keep_score s)))
    then Some (Cpp.with_status Win (Cpp.banked total s))
    else Cpp.pass_turn rnd (Cpp.banked total s).
Proof.
  intros Hp Hpot. unfold Cpp.bank. rewrite decide_False by exact Hpot. rewrite Hp.
  destruct (decide (10000 ≤ _)); reflexivity.
Qed.

Lemma ts_bank_commits (rnd : nat → Q) (s : TS.Engine) (p : TS.Player) :
  TS.players s !! TS.currentPlayerIndex s = Some p →
  ¬ (TS.currentKeepScore s = 0 ∧ TS.turnScore s = 0) →
  TS.bank rnd s
  = if decide (10000 ≤ TS.score p + (TS.turnScore s + TS.currentKeepScore s))
    then Some (TS.with_message (TS.name p +:+ " Wins!")
                 (TS.with_status Win (TS.banked p s)))
    else TS.passTurn rnd (TS.banked p s).
Proof.
  intros Hp Hpot. unfold TS.bank. rewrite decide_False by exact Hpot. rewrite Hp.
  destruct (decide (10000 ≤ _)); reflexivity.
Qed.

(** The loop that banks the Kept dice, die by die. *)
Lemma bank_kept_lookup (ds : list Die) (i : nat) (d : Die) :
  ds !! i = Some d →
  bank_kept ds !! i = Some (if decide (state d = Kept) then set_state Banked d else d).
Proof. intros H. unfold bank_kept. rewrite list_lookup_fmap, H. reflexivity. Qed.

Lemma bank_kept_length (ds : list Die) : length (bank_kept ds) = length ds.
Proof. unfold bank_kept. apply length_fmap. Qed.

Lemma bank_kept_count (ds : list Die) : count_state Kept (bank_kept ds) = 0%nat.
Proof. apply no_kept_length, bank_kept_no_kept. Qed.

(** C5.  In either engine, on a state whose pot [turnScore + currentKeepScore]
    is positive and whose current player exists, [bank] first builds the
    state [b]: [turnScore] holds the pot, [currentKeepScore] is 0, every
    die that was Kept is Banked and every other die is as it was, so that
    no die is Kept, the pot is added to the current player's total, and
    the other totals, the player index, the status and the message are
    untouched.  When the new total is at least 10000 the result is [b]
    with status Win: no turn is passed, the player index and the dice
    stay as [b] has them.  Otherwise the result is [passTurn] run on [b].
    The sums of the C++ engine are sums of [int]; they are the plain sums
    as long as these stay within the range of [int]. *)
Theorem bank_commits_then_wins_or_passes :
  (∀ (rnd : nat → Z) (s : Cpp.Engine) (total : Z),
     Cpp.player_scores s !! Cpp.current_player_index s = Some total →
     0 < Cpp.turn_score s + Cpp.current_keep_score s →
     let pot := Cpp.add (Cpp.turn_score s) (Cpp.current_keep_score s) in
     let b := Cpp.banked total s in
     (Cpp.turn_score b = pot ∧ Cpp.current_keep_score b = 0
      ∧ length (Cpp.dice b) = length (Cpp.dice s)
      ∧ (∀ i d, Cpp.dice s !! i = Some d →
                Cpp.dice b !! i
                = Some (if decide (state d = Kept) then set_state Banked d else d))
      ∧ count_state Kept (Cpp.dice b) = 0%nat
      ∧ Cpp.player_scores b
        = <[Cpp.current_player_index s := Cpp.add total pot]> (Cpp.player_scores s)
      ∧ Cpp.player_scores b !! Cpp.current_player_index s = Some (Cpp.add total pot)
      ∧ Cpp.current_player_index b = Cpp.current_player_index s
      ∧ Cpp.status b = Cpp.status s ∧ Cpp.message b = Cpp.message s)
     ∧ (Cpp.turn_score s + Cpp.current_keep_score s ≤ Cpp.INT_MAX →
        pot = Cpp.turn_score s + Cpp.current_keep_score s)
     ∧ (Cpp.INT_MIN ≤ total + pot ≤ Cpp.INT_MAX → Cpp.add total pot = total + pot)
     ∧ (10000 ≤ Cpp.add total pot →
        ∃ s', Cpp.bank rnd s = Some s' ∧ s' = Cpp.with_status Win b
              ∧ Cpp.status s' = Win
              ∧ Cpp.current_player_index s' = Cpp.current_player_index s
              ∧ Cpp.dice s' = Cpp.dice b
              ∧ Cpp.player_scores s' = Cpp.player_scores b
              ∧ Cpp.turn_score s' = pot ∧ Cpp.current_keep_score s' = 0)
     ∧ (Cpp.add total pot < 10000 → Cpp.bank rnd s = Cpp.pass_turn rnd b))
  ∧ (∀ (rnd : nat → Q) (s : TS.Engine) (p : TS.Player),
       TS.players s !! TS.currentPlayerIndex s = Some p →
       0 < TS.turnScore s + TS.currentKeepScore s →
       let pot := TS.turnScore s + TS.currentKeepScore s in
       let b := TS.banked p s in
       (TS.turnScore b = pot ∧ TS.currentKeepScore b = 0
        ∧ length (TS.dice b) = length (TS.dice s)
        ∧ (∀ i d, TS.dice s !! i = Some d →
                  TS.dice b !! i
                  = Some (if decide (state d = Kept) then set_state Banked d else d))
        ∧ count_state Kept (TS.dice b) = 0%nat
        ∧ TS.players b
          = <[TS.currentPlayerIndex s :=
                TS.mkPlayer (TS.player_id p) (TS.player_type p) (TS.name p)
                            (TS.score p + pot)]> (TS.players s)
        ∧ TS.score <$> TS.players b !! TS.currentPlayerIndex s = Some (TS.score p + pot)
        ∧ TS.currentPlayerIndex b = TS.currentPlayerIndex s
        ∧ TS.status b = TS.status s ∧ TS.message b = TS.message s)
       ∧ (10000 ≤ TS.score p + pot →
          ∃ s', TS.bank rnd s = Some s'
                ∧ s' = TS.with_message (TS.name p +:+ " Wins!") (TS.with_status Win b)
                ∧ TS.status s' = Win
                ∧ TS.currentPlayerIndex s' = TS.currentPlayerIndex s
                ∧ TS.dice s' = TS.dice b
                ∧ TS.players s' = TS.players b
                ∧ TS.turnScore s' = pot ∧ TS.currentKeepScore s' = 0)
       ∧ (TS.score p + pot < 10000 → TS.bank rnd s = TS.passTurn rnd b)).
Proof.
  split.
  - intros rnd s total Hp Hpot pot b. subst pot b.
    split; [|split; [|split; [|split]]].
    + split; [reflexivity|]. split; [reflexivity|].
      split; [apply bank_kept_length|].
      split; [intros i d Hd; apply bank_kept_lookup, Hd|].
      split; [apply bank_kept_count|].
      split; [reflexivity|].
      split; [|repeat split].
      cbn [Cpp.banked Cpp.player_scores].
      apply list_lookup_insert_eq. apply lookup_lt_Some in Hp. exact Hp.
    + intros Hmax. apply add_exact. unfold Cpp.INT_MIN. lia.
    + apply add_exact.
    + intros Hwin. eexists. split; [|repeat split].
      rewrite (cpp_bank_commits rnd s total Hp) by lia.
      rewrite decide_True by exact Hwin. reflexivity.
    + intros Hno. rewrite (cpp_bank_commits rnd s total Hp) by lia.
      rewrite decide_False by lia. reflexivity.
  - intros rnd s p Hp Hpot pot b. subst pot b. split; [|split].
    + split; [reflexivity|]. split; [reflexivity|].
      split; [apply bank_kept_length|].
      split; [intros i d Hd; apply bank_kept_lookup, Hd|].
      split; [apply bank_kept_count|].
      split; [reflexivity|].
      split; [|repeat split].
      cbn [TS.banked TS.players].
      rewrite list_lookup_insert_eq by (apply lookup_lt_Some in Hp; exact Hp).
      reflexivity.
    + intros Hwin. eexists. split; [|repeat split].
      rewrite (ts_bank_commits rnd s p Hp) by lia.
      rewrite decide_True by exact Hwin. reflexivity.
    + intros Hno. rewrite (ts_bank_commits rnd s p Hp) by lia.
      rewrite decide_False by lia. reflexivity.
Qed.

Lemma bank_commits_then_wins_or_passes_witness :
  (Cpp.bank (scripted [2; 2; 3] 1) (Cpp.toggle_keep 0 cpp_opening)
   = Cpp.pass_turn (scripted [2; 2; 3] 1) (Cpp.banked 0 (Cpp.toggle_keep 0 cpp_opening))
   ∧ ∃ s', Cpp.bank (scripted [] 1) cpp_match_point = Some s'
           ∧ Cpp.status s' = Win ∧ Cpp.player_scores s' = [10500; 200]
           ∧ values_in Banked (Cpp.dice s') = [1; 1; 1])
  ∧ ∃ s', TS.bank (scripted [] (1 # 2)%Q) ts_match_point = Some s'
          ∧ TS.status s' = Win ∧ TS.score <$> TS.players s' = [10500; 200]
          ∧ value <$> filter (λ d, state d = Banked) (TS.dice s') = [1; 1; 1].
Proof.
  split; [split|].
  - apply (proj1 bank_commits_then_wins_or_passes
             (scripted [2; 2; 3] 1) (Cpp.toggle_keep 0 cpp_opening) 0);
      vm_compute; reflexivity.
  - destruct (proj1 bank_commits_then_wins_or_passes (scripted [] 1) cpp_match_point 9500)
      as (_ & _ & _ & Hwin & _); [reflexivity|reflexivity|].
    destruct Hwin as (s' & Hb & Hs' & Hst & _); [vm_compute; discriminate|].
    exists s'. split; [exact Hb|]. split; [exact Hst|].
    rewrite Hs'. vm_compute. split; reflexivity.
  - destruct (proj2 bank_commits_then_wins_or_passes (scripted [] (1 # 2)%Q)
                ts_match_point (TS.mkPlayer 0 TS.human "Player" 9500))
      as (_ & Hwin & _); [reflexivity|reflexivity|].
    destruct Hwin as (s' & Hb & Hs' & Hst & _); [vm_compute; discriminate|].
    exists s'. split; [exact Hb|]. split; [exact Hst|].
    rewrite Hs'. vm_compute. split; reflexivity.
Defined.

(** Where the sum leaves [int]: a total of 2147483000 and a pot of 1000
    give a negative total, and the turn passes where the plain sum would
    have won. *)
Example bank_total_leaves_int :
  ∃ s', Cpp.bank (scripted [] 1)
          {| Cpp.player_scores := [2147483000; 0];
             Cpp.current_player_index := 0;
             Cpp.dice := Cpp.dice (Cpp.toggle_keep 0 cpp_opening);
             Cpp.turn_score := 0;
             Cpp.current_keep_score := 1000;
             Cpp.status := Rolling;
             Cpp.message := "" |} = Some s'
        ∧ Cpp.player_scores s' = [-2147483296; 0]
        ∧ Cpp.current_player_index s' = 1%nat
        ∧ Cpp.status s' = Rolling.
Proof. eexists. vm_compute. repeat split. Qed.
(** ** C10: Win and Farkle do not freeze the engine *)

Lemma cpp_roll_status (rnd : nat → Z) (s : Cpp.Engine) :
  Cpp.status (Cpp.roll rnd s) = Rolling ∨ Cpp.status (Cpp.roll rnd s) = Farkle.
Proof.
  pose proof (cpp_roll_outcome rnd s) as Ho. cbv zeta in Ho.
  destruct (Cpp.has_scoring_potential _); [left|right]; apply Ho.
Qed.

Lemma cpp_pass_turn_not_win (rnd : nat → Z) (s s' : Cpp.Engine) :
  Cpp.pass_turn rnd s = Some s' → Cpp.status s' ≠ Win.
Proof.
  unfold Cpp.pass_turn. case_match; [discriminate|]. intros [= <-].
  destruct (cpp_roll_status rnd
    {| Cpp.player_scores := Cpp.player_scores s;
       Cpp.current_player_index :=
         ((Cpp.current_player_index s + 1) mod length (Cpp.player_scores s))%nat;
       Cpp.dice := reset_rolled (Cpp.dice s);
       Cpp.turn_score := 0;
       Cpp.current_keep_score := 0;
       Cpp.status := Rolling;
       Cpp.message := Cpp.message s |}) as [-> | ->]; discriminate.
Qed.

Lemma ts_passTurn_rolling (rnd : nat → Q) (s s' : TS.Engine) :
  TS.passTurn rnd s = Some s' → TS.status s' = Rolling.
Proof. unfold TS.passTurn. case_match; [|discriminate]. intros [= <-]. reflexivity. Qed.

Lemma cpp_roll_ignores_status (rnd : nat → Z) (s : Cpp.Engine) (st : GameStatus) :
  Cpp.roll rnd (Cpp.with_status st s) = Cpp.roll rnd s.
Proof. reflexivity. Qed.

Lemma ts_roll_ignores_status (rnd : nat → Q) (s : TS.Engine) (st : GameStatus) :
  TS.roll rnd (TS.with_status st s) = TS.roll rnd s.
Proof. reflexivity. Qed.

(** A second [bank] on the state a winning [bank] left. *)
Lemma cpp_bank_again (rnd : nat → Z) (s : Cpp.Engine) (total : Z) :
  Cpp.player_scores s !! Cpp.current_player_index s = Some total →
  let t := Cpp.add (Cpp.turn_score s) (Cpp.current_keep_score s) in
  let s1 := Cpp.with_status Win (Cpp.banked total s) in
  ∃ s2, Cpp.bank rnd s1 = Some s2
        ∧ Cpp.player_scores s2 !! Cpp.current_player_index s
          = Some (Cpp.add (Cpp.add total t) t)
        ∧ (10000 ≤ Cpp.add (Cpp.add total t) t →
           Cpp.status s2 = Win
           ∧ Cpp.current_player_index s2 = Cpp.current_player_index s
           ∧ Cpp.turn_score s2 = t).
Proof.
  intros Hp t s1.
  assert (Cpp.current_player_index s < length (Cpp.player_scores s))%nat as Hlt
    by (apply lookup_lt_Some in Hp; exact Hp).
  assert (Cpp.player_scores s1 !! Cpp.current_player_index s1
          = Some (Cpp.add total t)) as Hp1.
  { cbn. apply list_lookup_insert_eq. exact Hlt. }
  pose proof (wrap_int_range (Cpp.turn_score s + Cpp.current_keep_score s)) as Ht.
  fold (Cpp.add (Cpp.turn_score s) (Cpp.current_keep_score s)) in Ht. fold t in Ht.
  pose proof (wrap_int_range (total + t)) as Htot. fold (Cpp.add total t) in Htot.
  destruct (decide (t = 0)) as [Ht0|Ht0].
  - exists s1. split.
    + unfold Cpp.bank. rewrite decide_True; [reflexivity|]. split; [reflexivity|exact Ht0].
    + rewrite Ht0 in *. rewrite (add_0_r (Cpp.add total 0)) by exact Htot.
      split; [exact Hp1|]. intros _. repeat split. exact Ht0.
  - assert (Cpp.add (Cpp.turn_score s1) (Cpp.current_keep_score s1) = t) as Hpot1
      by (cbn; apply add_0_r; exact Ht).
    rewrite (cpp_bank_commits rnd s1 _ Hp1) by (cbn; tauto).
    rewrite Hpot1.
    destruct (decide (10000 ≤ Cpp.add (Cpp.add total t) t)) as [Hge|Hlo].
    + eexists. split; [reflexivity|]. split.
      * cbn. fold t. rewrite (add_0_r t) by exact Ht.
        apply list_lookup_insert_eq. rewrite length_insert. exact Hlt.
      * intros _. repeat split. cbn. fold t. apply add_0_r. exact Ht.
    + unfold Cpp.pass_turn. rewrite decide_False.
      2:{ cbn. rewrite !length_insert. lia. }
      eexists. split; [reflexivity|]. split; [|intros Hge; contradiction].
      match goal with |- context [Cpp.roll rnd ?x] =>
        destruct (cpp_roll_fixed rnd x) as (-> & _) end.
      cbn. fold t. rewrite (add_0_r t) by exact Ht.
      apply list_lookup_insert_eq. rewrite length_insert. exact Hlt.
Qed.

Lemma ts_bank_again (rnd : nat → Q) (s : TS.Engine) (p : TS.Player) :
  TS.players s !! TS.currentPlayerIndex s = Some p →
  let t := TS.turnScore s + TS.currentKeepScore s in
  0 < t → 10000 ≤ TS.score p + t →
  let s1 := TS.with_message (TS.name p +:+ " Wins!") (TS.with_status Win (TS.banked p s)) in
  ∃ s2, TS.bank rnd s1 = Some s2
        ∧ TS.status s2 = Win
        ∧ TS.currentPlayerIndex s2 = TS.currentPlayerIndex s
        ∧ TS.turnScore s2 = t
        ∧ TS.score <$> TS.players s2 !! TS.currentPlayerIndex s
          = Some (TS.score p + t + t).
Proof.
  intros Hp t Hpot Hge s1.
  assert (TS.currentPlayerIndex s < length (TS.players s))%nat as Hlt
    by (apply lookup_lt_Some in Hp; exact Hp).
  assert (TS.players s1 !! TS.currentPlayerIndex s1 = Some (TS.add_score t p)) as Hp1.
  { cbn. apply list_lookup_insert_eq. exact Hlt. }
  rewrite (ts_bank_commits rnd s1 _ Hp1) by (cbn; fold t; lia).
  rewrite decide_True by (cbn; fold t; lia).
  eexists. split; [reflexivity|]. split; [reflexivity|]. split; [reflexivity|].
  split; [cbn; fold t; lia|].
  cbn. fold t. rewrite Z.add_0_r.
  rewrite list_lookup_insert_eq by (rewrite length_insert; exact Hlt).
  reflexivity.
Qed.

(** C10.  In either engine [bank] never reads the status.  When a [bank]
    that committed a pot t > 0 ends in status Win, [turnScore] still holds
    t, and a second [bank] returns a state in which t has been added to
    the winner's total once more.  In the TypeScript engine that state is
    again in Win; in the C++ engine, whose sums are sums of [int], it is in
    Win as long as the new total is at least 10000, which it is as long as
    the sum stays within [int].  A winning [bank] followed by a second one
    exists for every state whose current player exists and whose pot takes
    the total to 10000.  [roll] never reads the status either: it does the
    same from Farkle or Win as from any other status. *)
Theorem win_and_farkle_do_not_freeze :
  (∀ (rnd rnd' : nat → Z) (s s1 : Cpp.Engine),
     Cpp.bank rnd s = Some s1 → Cpp.status s1 = Win →
     0 < Cpp.turn_score s + Cpp.current_keep_score s →
     let t := Cpp.add (Cpp.turn_score s) (Cpp.current_keep_score s) in
     Cpp.turn_score s1 = t
     ∧ ∃ (total : Z) (s2 : Cpp.Engine),
         Cpp.player_scores s1 !! Cpp.current_player_index s1 = Some total
         ∧ 10000 ≤ total
         ∧ Cpp.bank rnd' s1 = Some s2
         ∧ Cpp.player_scores s2 !! Cpp.current_player_index s1
           = Some (Cpp.add total t)
         ∧ (10000 ≤ Cpp.add total t →
            Cpp.status s2 = Win
            ∧ Cpp.current_player_index s2 = Cpp.current_player_index s1)
         ∧ (Cpp.INT_MIN ≤ total + t ≤ Cpp.INT_MAX → Cpp.add total t = total + t))
  ∧ (∀ (rnd rnd' : nat → Z) (s : Cpp.Engine) (total : Z),
       Cpp.player_scores s !! Cpp.current_player_index s = Some total →
       0 < Cpp.turn_score s + Cpp.current_keep_score s →
       let t := Cpp.add (Cpp.turn_score s) (Cpp.current_keep_score s) in
       10000 ≤ Cpp.add total t →
       ∃ s1 s2 : Cpp.Engine,
         Cpp.bank rnd s = Some s1 ∧ Cpp.status s1 = Win ∧ Cpp.turn_score s1 = t
         ∧ Cpp.player_scores s1 !! Cpp.current_player_index s = Some (Cpp.add total t)
         ∧ Cpp.bank rnd' s1 = Some s2
         ∧ Cpp.player_scores s2 !! Cpp.current_player_index s
           = Some (Cpp.add (Cpp.add total t) t))
  ∧ (∀ (rnd : nat → Z) (s : Cpp.Engine) (st : GameStatus),
       Cpp.roll rnd (Cpp.with_status st s) = Cpp.roll rnd s)
  ∧ (∀ (rnd rnd' : nat → Q) (s s1 : TS.Engine),
       TS.bank rnd s = Some s1 → TS.status s1 = Win →
       0 < TS.turnScore s + TS.currentKeepScore s →
       TS.turnScore s1 = TS.turnScore s + TS.currentKeepScore s
       ∧ ∃ (p : TS.Player) (s2 : TS.Engine),
           TS.players s1 !! TS.currentPlayerIndex s1 = Some p
           ∧ TS.bank rnd' s1 = Some s2
           ∧ TS.status s2 = Win
           ∧ TS.currentPlayerIndex s2 = TS.currentPlayerIndex s1
           ∧ TS.score <$> TS.players s2 !! TS.currentPlayerIndex s1
             = Some (TS.score p + TS.turnScore s1))
  ∧ (∀ (rnd rnd' : nat → Q) (s : TS.Engine) (p : TS.Player),
       TS.players s !! TS.currentPlayerIndex s = Some p →
       let t := TS.turnScore s + TS.currentKeepScore s in
       0 < t → 10000 ≤ TS.score p + t →
       ∃ s1 s2 : TS.Engine,
         TS.bank rnd s = Some s1 ∧ TS.status s1 = Win ∧ TS.turnScore s1 = t
         ∧ TS.score <$> TS.players s1 !! TS.currentPlayerIndex s
           = Some (TS.score p + t)
         ∧ TS.bank rnd' s1 = Some s2 ∧ TS.status s2 = Win
         ∧ TS.score <$> TS.players s2 !! TS.currentPlayerIndex s
           = Some (TS.score p + t + t))
  ∧ (∀ (rnd : nat → Q) (s : TS.Engine) (st : GameStatus),
       TS.roll rnd (TS.with_status st s) = TS.roll rnd s).
Proof.
  split; [|split; [|split; [exact cpp_roll_ignores_status|
    split; [|split; [|exact ts_roll_ignores_status]]]]].
  - intros rnd rnd' s s1 Hb Hwin Hpot t.
    destruct (Cpp.player_scores s !! Cpp.current_player_index s) as [total|] eqn:Hp.
    2: { unfold Cpp.bank in Hb. rewrite decide_False in Hb by lia. rewrite Hp in Hb.
         discriminate. }
    rewrite (cpp_bank_commits rnd s total Hp) in Hb by lia. fold t in Hb.
    destruct (decide (10000 ≤ _)) as [Hge|Hlt].
    2: { apply cpp_pass_turn_not_win in Hb. contradiction. }
    injection Hb as <-. split; [reflexivity|].
    destruct (cpp_bank_again rnd' s total Hp) as (s2 & Hb2 & Hp2 & Hw2). fold t in Hp2, Hw2.
    exists (Cpp.add total t), s2.
    split; [cbn; apply list_lookup_insert_eq; apply lookup_lt_Some in Hp; exact Hp|].
    split; [exact Hge|]. split; [exact Hb2|]. split; [exact Hp2|].
    split; [intros H; destruct (Hw2 H) as (? & ? & _); split; assumption|].
    apply add_exact.
  - intros rnd rnd' s total Hp Hpot t Hge.
    destruct (cpp_bank_again rnd' s total Hp) as (s2 & Hb2 & Hp2 & _). fold t in Hp2.
    exists (Cpp.with_status Win (Cpp.banked total s)), s2.
    split.
    { rewrite (cpp_bank_commits rnd s total Hp) by lia. fold t.
      rewrite decide_True by exact Hge. reflexivity. }
    split; [reflexivity|]. split; [reflexivity|].
    split; [cbn; apply list_lookup_insert_eq; apply lookup_lt_Some in Hp; exact Hp|].
    split; [exact Hb2|exact Hp2].
  - intros rnd rnd' s s1 Hb Hwin Hpot.
    destruct (TS.players s !! TS.currentPlayerIndex s) as [p|] eqn:Hp.
    2: { unfold TS.bank in Hb. rewrite decide_False in Hb by lia. rewrite Hp in Hb.
         discriminate. }
    rewrite (ts_bank_commits rnd s p Hp) in Hb by lia.
    destruct (decide (10000 ≤ _)) as [Hge|Hlt].
    2: { apply ts_passTurn_rolling in Hb. congruence. }
    injection Hb as <-. split; [reflexivity|].
    destruct (ts_bank_again rnd' s p Hp Hpot Hge) as (s2 & Hb2 & Hw2 & Hi2 & _ & Hp2).
    exists (TS.add_score (TS.turnScore s + TS.currentKeepScore s) p), s2.
    split; [cbn; apply list_lookup_insert_eq; apply lookup_lt_Some in Hp; exact Hp|].
    split; [exact Hb2|]. split; [exact Hw2|]. split; [exact Hi2|].
    exact Hp2.
  - intros rnd rnd' s p Hp t Hpot Hge.
    destruct (ts_bank_again rnd' s p Hp Hpot Hge) as (s2 & Hb2 & Hw2 & _ & _ & Hp2).
    eexists _, s2. split.
    { rewrite (ts_bank_commits rnd s p Hp) by (fold t; lia). fold t.
      rewrite decide_True by exact Hge. reflexivity. }
    split; [reflexivity|]. split; [reflexivity|].
    split.
    { cbn. rewrite list_lookup_insert_eq by (apply lookup_lt_Some in Hp; exact Hp).
      reflexivity. }
    split; [exact Hb2|]. split; [exact Hw2|exact Hp2].
Qed.

Lemma win_and_farkle_do_not_freeze_witness :
  (Cpp.turn_score (Cpp.with_status Win (Cpp.banked 9500 cpp_match_point)) = 1000
   ∧ ∃ s2, Cpp.bank (scripted [] 1) (Cpp.with_status Win (Cpp.banked 9500 cpp_match_point))
           = Some s2
           ∧ Cpp.player_scores s2 = [11500; 200])
  ∧ (∃ s1 s2, TS.bank (scripted [] (1 # 2)%Q) ts_match_point = Some s1
              ∧ TS.status s1 = Win
              ∧ TS.bank (scripted [] (1 # 2)%Q) s1 = Some s2
              ∧ TS.score <$> TS.players s2 !! 0%nat = Some 11500).
Proof.
  split.
  - destruct (proj1 win_and_farkle_do_not_freeze (scripted [] 1) (scripted [] 1)
                cpp_match_point (Cpp.with_status Win (Cpp.banked 9500 cpp_match_point)))
      as (Ht & total & s2 & Hp & _ & Hb & _).
    + vm_compute. reflexivity.
    + reflexivity.
    + vm_compute. reflexivity.
    + split; [exact Ht|]. exists s2. split; [exact Hb|].
      vm_compute in Hb. injection Hb as <-. reflexivity.
  - destruct (proj1 (proj2 (proj2 (proj2 (proj2 win_and_farkle_do_not_freeze))))
                (scripted [] (1 # 2)%Q) (scripted [] (1 # 2)%Q) ts_match_point
                (TS.mkPlayer 0 TS.human "Player" 9500))
      as (s1 & s2 & Hb1 & Hw1 & _ & _ & Hb2 & _ & Hp2).
    + reflexivity.
    + vm_compute. reflexivity.
    + vm_compute. discriminate.
    + exists s1, s2. split; [exact Hb1|]. split; [exact Hw1|]. split; [exact Hb2|].
      exact Hp2.
Defined.

(** Where the second sum leaves [int] the winner's total turns negative
    and the second [bank] passes the turn. *)
Example second_bank_leaves_int :
  let s1 := {| Cpp.player_scores := [2147483000; 0];
               Cpp.current_player_index := 0;
               Cpp.dice := Cpp.dice (Cpp.toggle_keep 0 cpp_opening);
               Cpp.turn_score := 1000;
               Cpp.current_keep_score := 0;
               Cpp.status := Win;
               Cpp.message := "" |} in
  ∃ s2, Cpp.bank (scripted [] 1) s1 = Some s2
        ∧ Cpp.player_scores s2 = [-2147483296; 0]
        ∧ Cpp.status s2 ≠ Win.
Proof. eexists. vm_compute. repeat split. discriminate. Qed.

(** ** C9: the calls [toggleKeep] ignores *)

Lemma cpp_recalc_in_sync (s : Cpp.Engine) :
  cpp_keep_in_sync s → Cpp.recalc_keep_score s = s.
Proof.
  unfold cpp_keep_in_sync, Cpp.recalc_keep_score. intros <-. destruct s; reflexivity.
Qed.

(** C9, as the specification states it, fails on the C++ engine, whose
    fields a host can write.  On a state with a keep score of 50 written
    beside a pool without Kept dice, a click on a Rolled 2 with only two
    twos available is not a no-op: the keep score comes back as 0. *)
Lemma toggle_keep_rewrites_stale_keep_score :
  Cpp.status cpp_stale_keep_score = Rolling
  ∧ list_find (λ d, id d = 0) (Cpp.dice cpp_stale_keep_score)
    = Some (0%nat, mkDie 0 2 Rolled)
  ∧ (count_in Rolled 2 (Cpp.dice cpp_stale_keep_score)
     + count_in Kept 2 (Cpp.dice cpp_stale_keep_score))%nat = 2%nat
  ∧ Cpp.current_keep_score cpp_stale_keep_score = 50
  ∧ Cpp.current_keep_score (Cpp.toggle_keep 0 cpp_stale_keep_score) = 0
  ∧ Cpp.toggle_keep 0 cpp_stale_keep_score ≠ cpp_stale_keep_score.
Proof. vm_compute. repeat split. discriminate. Qed.

(** C9 (amended).  [toggleKeep] returns the state it was given, every
    field of it, when the status is not Rolling, when no die carries the
    id, and when the die found is Banked.  When the die found is Rolled,
    shows 2, 3, 4 or 6 and fewer than three dice of its face are available
    (Rolled or Kept in C++, Rolled in TypeScript), the TypeScript engine
    returns the state it was given; the C++ engine, in status Rolling,
    returns it with the keep score recomputed from the Kept dice and every
    other field untouched, which is the state it was given whenever the
    keep score was in sync, as it is in every reachable state. *)
Theorem toggle_keep_ignored_calls :
  (∀ (die_id : Z) (s : Cpp.Engine),
     (Cpp.status s ≠ Rolling → Cpp.toggle_keep die_id s = s)
     ∧ ((∀ d, d ∈ Cpp.dice s → id d ≠ die_id) → Cpp.toggle_keep die_id s = s)
     ∧ (∀ i d, list_find (λ d, id d = die_id) (Cpp.dice s) = Some (i, d) →
               state d = Banked → Cpp.toggle_keep die_id s = s)
     ∧ (∀ i d, list_find (λ d, id d = die_id) (Cpp.dice s) = Some (i, d) →
               state d = Rolled →
               value d = 2 ∨ value d = 3 ∨ value d = 4 ∨ value d = 6 →
               (count_in Rolled (value d) (Cpp.dice s)
                + count_in Kept (value d) (Cpp.dice s) < 3)%nat →
               let s' := Cpp.toggle_keep die_id s in
               (Cpp.player_scores s' = Cpp.player_scores s
                ∧ Cpp.current_player_index s' = Cpp.current_player_index s
                ∧ Cpp.dice s' = Cpp.dice s
                ∧ Cpp.turn_score s' = Cpp.turn_score s
                ∧ Cpp.status s' = Cpp.status s
                ∧ Cpp.message s' = Cpp.message s
                ∧ (Cpp.status s = Rolling →
                   Cpp.current_keep_score s'
                   = Cpp.evaluate_scoring (values_in Kept (Cpp.dice s))))
               ∧ (Cpp.current_keep_score s
                  = Cpp.evaluate_scoring (values_in Kept (Cpp.dice s)) → s' = s)
               ∧ (Cpp.reachable s → s' = s)))
  ∧ (∀ (dieId : Z) (s : TS.Engine),
       (TS.status s ≠ Rolling → TS.toggleKeep dieId s = s)
       ∧ ((∀ d, d ∈ TS.dice s → id d ≠ dieId) → TS.toggleKeep dieId s = s)
       ∧ (∀ i d, list_find (λ d, id d = dieId) (TS.dice s) = Some (i, d) →
                 state d = Banked → TS.toggleKeep dieId s = s)
       ∧ (∀ i d, list_find (λ d, id d = dieId) (TS.dice s) = Some (i, d) →
                 state d = Rolled →
                 value d = 2 ∨ value d = 3 ∨ value d = 4 ∨ value d = 6 →
                 (count_in Rolled (value d) (TS.dice s) < 3)%nat →
                 TS.toggleKeep dieId s = s)).
Proof.
  split.
  - intros die_id s. unfold Cpp.toggle_keep. split; [|split; [|split]].
    + intros Hst. rewrite decide_True by exact Hst. reflexivity.
    + intros Hno. destruct (decide (Cpp.status s ≠ Rolling)); [reflexivity|].
      destruct (list_find _ _) as [[i d]|] eqn:E; [|reflexivity].
      apply list_find_Some in E. destruct E as (Hl & Hid & _).
      exfalso. apply (Hno d); [|exact Hid]. apply list_elem_of_lookup. eauto.
    + intros i d -> Hb. destruct (decide (Cpp.status s ≠ Rolling)); [reflexivity|].
      rewrite decide_True by exact Hb. reflexivity.
    + intros i d -> Hr Hv Hn. cbv zeta.
      destruct (decide (Cpp.status s ≠ Rolling)) as [Hst|Hst].
      { split; [|split; reflexivity]. repeat split. intros Hro. contradiction. }
      rewrite !decide_False by (first [lia | rewrite Hr; discriminate]).
      split; [repeat split|split].
      * apply cpp_recalc_in_sync.
      * intros Hs. apply cpp_recalc_in_sync, cpp_reachable_sync, Hs.
  - intros dieId s. unfold TS.toggleKeep. repeat split.
    + intros Hst. rewrite decide_True by exact Hst. reflexivity.
    + intros Hno. destruct (decide (TS.status s ≠ Rolling)); [reflexivity|].
      destruct (list_find _ _) as [[i d]|] eqn:E; [|reflexivity].
      apply list_find_Some in E. destruct E as (Hl & Hid & _).
      exfalso. apply (Hno d); [|exact Hid]. apply list_elem_of_lookup. eauto.
    + intros i d -> Hb. destruct (decide (TS.status s ≠ Rolling)); [reflexivity|].
      rewrite decide_True by exact Hb. reflexivity.
    + intros i d -> Hr Hv Hn.
      destruct (decide (TS.status s ≠ Rolling)); [reflexivity|].
      unfold count_in in Hn.
      rewrite !decide_False by (first [lia | rewrite Hr; discriminate]).
      reflexivity.
Qed.

Lemma toggle_keep_ignored_calls_witness :
  Cpp.toggle_keep 3 cpp_opening = cpp_opening
  ∧ TS.toggleKeep 3 ts_opening = ts_opening
  ∧ TS.toggleKeep 7 ts_opening = ts_opening.
Proof.
  split; [|split].
  - apply (proj1 toggle_keep_ignored_calls 3 cpp_opening) with (i := 3%nat) (d := mkDie 3 2 Rolled).
    + vm_compute. reflexivity.
    + reflexivity.
    + left. reflexivity.
    + vm_compute. lia.
    + apply Cpp.reach_new.
  - apply (proj2 toggle_keep_ignored_calls 3 ts_opening) with (i := 3%nat) (d := mkDie 3 2 Rolled).
    + vm_compute. reflexivity.
    + reflexivity.
    + left. reflexivity.
    + vm_compute. lia.
  - apply (proj2 toggle_keep_ignored_calls 7 ts_opening).
    intros d Hd. destruct (ts_opening_state) as [Hdice _]. rewrite Hdice in Hd.
    cbn in Hd.
    repeat (apply elem_of_cons in Hd; destruct Hd as [->|Hd]; [cbn; lia|]).
    apply elem_of_nil in Hd. contradiction.
Defined.

(** ** C2: keeping a die of a face with three or more dice *)

Lemma count_in_cons (st : DieState) (v : Z) (d : Die) (ds : list Die) :
  count_in st v (d :: ds)
  = ((if decide (value d = v ∧ state d = st) then 1 else 0) + count_in st v ds)%nat.
Proof.
  unfold count_in. rewrite filter_cons.
  destruct (decide (value d = v ∧ state d = st)); reflexivity.
Qed.

Lemma promote_kept_count (val : Z) (needed : nat) (ds : list Die) :
  count_in Kept val (promote val needed ds)
  = (count_in Kept val ds + needed `min` count_in Rolled val ds)%nat.
Proof.
  revert needed. induction ds as [|d ds IH]; intros needed.
  - cbn. lia.
  - cbn [promote].
    destruct (decide (value d = val ∧ state d = Rolled ∧ (0 < needed)%nat))
      as [(Hv & Hr & Hn)|Hno].
    + rewrite !count_in_cons, IH. cbn [value state set_state].
      repeat case_decide; try lia; exfalso; intuition congruence.
    + rewrite !count_in_cons, IH.
      assert (value d = val ∧ state d = Rolled → needed = 0%nat) as H0.
      { intros [? ?]. destruct needed; [reflexivity|]. exfalso. apply Hno. auto with lia. }
      repeat case_decide; try lia.
      * exfalso. intuition congruence.
      * rewrite H0 by assumption. lia.
Qed.

Lemma promote_changes (val : Z) (needed : nat) (ds : list Die) :
  Forall2 (promoted_or_same val) ds (promote val needed ds).
Proof.
  revert needed. induction ds as [|d ds IH]; intros needed; [constructor|].
  cbn [promote].
  destruct (decide (value d = val ∧ state d = Rolled ∧ (0 < needed)%nat))
    as [(Hv & Hr & Hn)|Hno]; constructor; try apply IH.
  - right. auto.
  - left. reflexivity.
Qed.

(** Which dice the promoting loop moves: the Rolled dice of the face, in
    pool order, as long as fewer than [needed] of them came before. *)
Lemma promote_lookup (val : Z) (needed : nat) (ds : list Die) (j : nat) (dj : Die) :
  ds !! j = Some dj →
  promote val needed ds !! j
  = Some (if decide (value dj = val ∧ state dj = Rolled
                     ∧ (count_in Rolled val (take j ds) < needed)%nat)
          then set_state Kept dj else dj).
Proof.
  revert needed j. induction ds as [|d ds IH]; intros needed j Hj; [discriminate|].
  cbn [promote]. destruct j as [|j].
  - injection Hj as ->. cbn [take]. unfold count_in at 1. cbn [filter length].
    change (filter _ []) with (@nil Die). cbn [length].
    destruct (decide (value dj = val ∧ state dj = Rolled ∧ (0 < needed)%nat));
      reflexivity.
  - change ((d :: ds) !! S j) with (ds !! j) in Hj.
    cbn [take]. rewrite count_in_cons.
    destruct (decide (value d = val ∧ state d = Rolled ∧ (0 < needed)%nat))
      as [(Hv & Hr & Hn)|Hno].
    + change ((set_state Kept d :: promote val (needed - 1) ds) !! S j)
        with (promote val (needed - 1) ds !! j).
      rewrite (IH _ _ Hj). rewrite (decide_True (P := value d = val ∧ state d = Rolled))
        by (split; assumption).
      f_equal. repeat case_decide; try reflexivity; exfalso;
        repeat match goal with H : _ ∧ _ |- _ => destruct H end;
        match goal with H : ¬ _ |- _ => apply H; repeat split; try assumption; lia end.
    + change ((d :: promote val needed ds) !! S j) with (promote val needed ds !! j).
      rewrite (IH _ _ Hj).
      f_equal. repeat case_decide; try reflexivity; exfalso;
        repeat match goal with H : _ ∧ _ |- _ => destruct H end;
        first [ match goal with H : ¬ (_ ∧ _ ∧ (_ < _)%nat) |- _ =>
                  apply H; repeat split; try assumption; lia end
              | apply Hno; repeat split; try assumption; lia ].
Qed.

Lemma cpp_toggle_keep_rolled (die_id : Z) (s : Cpp.Engine) (i : nat) (d : Die) :
  Cpp.status s = Rolling →
  list_find (λ d, id d = die_id) (Cpp.dice s) = Some (i, d) →
  state d = Rolled →
  (3 ≤ count_in Rolled (value d) (Cpp.dice s) + count_in Kept (value d) (Cpp.dice s))%nat →
  Cpp.toggle_keep die_id s
  = Cpp.recalc_keep_score
      (Cpp.with_dice
         (if decide (count_in Kept (value d) (Cpp.dice s) < 3)%nat
          then promote (value d) (3 - count_in Kept (value d) (Cpp.dice s)) (Cpp.dice s)
          else <[i := set_state Kept d]> (Cpp.dice s)) s).
Proof.
  intros Hst Hf Hr Hn. unfold Cpp.toggle_keep.
  rewrite decide_False by (intros H; apply H, Hst). rewrite Hf.
  rewrite !decide_False by (rewrite Hr; discriminate).
  rewrite decide_True by exact Hn.
  destruct (decide (_ < 3)%nat); reflexivity.
Qed.

Lemma ts_toggleKeep_rolled (dieId : Z) (s : TS.Engine) (i : nat) (d : Die) :
  TS.status s = Rolling →
  list_find (λ d, id d = dieId) (TS.dice s) = Some (i, d) →
  state d = Rolled →
  TS.toggleKeep dieId s
  = if decide (3 ≤ count_in Rolled (value d) (TS.dice s))%nat then
      TS.recalcKeepScore (TS.with_dice (promote (value d) 3 (TS.dice s)) s)
    else if decide (value d = 1 ∨ value d = 5) then
      TS.recalcKeepScore (TS.with_dice (<[i := set_state Kept d]> (TS.dice s)) s)
    else s.
Proof.
  intros Hst Hf Hr. unfold TS.toggleKeep.
  rewrite decide_False by (intros H; apply H, Hst). rewrite Hf.
  rewrite !decide_False by (rewrite Hr; discriminate).
  reflexivity.
Qed.

(** C2, as the specification states it, fails on the TypeScript engine.
    In a game whose roll showed 2 2 2 2 3 4 and whose first three twos are
    Kept, the fourth two is Rolled, n is 4 and the Kept count of its face
    is 3: the claim has a click on it mark it Kept, the engine ignores the
    click. *)
Lemma toggleKeep_fourth_two_ignored :
  TS.reachable ts_four_twos
  ∧ TS.status ts_four_twos = Rolling
  ∧ list_find (λ d, id d = 3) (TS.dice ts_four_twos) = Some (3%nat, mkDie 3 2 Rolled)
  ∧ (count_in Rolled 2 (TS.dice ts_four_twos)
     + count_in Kept 2 (TS.dice ts_four_twos))%nat = 4%nat
  ∧ count_in Kept 2 (TS.dice ts_four_twos) = 3%nat
  ∧ TS.toggleKeep 3 ts_four_twos = ts_four_twos
  ∧ TS.dice (TS.toggleKeep 3 ts_four_twos)
    ≠ <[3%nat := set_state Kept (mkDie 3 2 Rolled)]> (TS.dice ts_four_twos).
Proof.
  split; [apply TS.reach_toggleKeep, TS.reach_roll, TS.reach_new|].
  vm_compute. repeat split. discriminate.
Qed.

(** On the same position the C++ engine keeps the fourth two, and scores
    the four of a kind 400. *)
Example toggle_keep_fourth_two_kept :
  values_in Kept (Cpp.dice (Cpp.toggle_keep 3 cpp_four_twos)) = [2; 2; 2; 2]
  ∧ Cpp.current_keep_score (Cpp.toggle_keep 3 cpp_four_twos) = 400.
Proof. vm_compute. split; reflexivity. Qed.

(** C2 (amended).  Status Rolling, the die found for the id is Rolled and
    shows v.  In the C++ engine, when the Rolled and Kept dice of face v
    are three or more: with fewer than three of them Kept, the first
    Rolled dice of face v in pool order are promoted until exactly three
    are Kept, and nothing else changes in the pool; with three or more
    Kept, the clicked die alone becomes Kept.  In the TypeScript engine
    only the Rolled dice of face v count: with three or more of them, the
    first three in pool order become Kept, whatever was Kept before, and
    nothing else changes in the pool; with fewer, the clicked die alone
    becomes Kept when v is 1 or 5, and the call changes nothing when v is
    2, 3, 4 or 6. *)
Theorem toggle_keep_on_rolled_die :
  (∀ (die_id : Z) (s : Cpp.Engine) (i : nat) (d : Die),
     Cpp.status s = Rolling →
     list_find (λ d, id d = die_id) (Cpp.dice s) = Some (i, d) →
     state d = Rolled →
     (3 ≤ count_in Rolled (value d) (Cpp.dice s)
          + count_in Kept (value d) (Cpp.dice s))%nat →
     let s' := Cpp.toggle_keep die_id s in
     ((count_in Kept (value d) (Cpp.dice s) < 3)%nat →
      count_in Kept (value d) (Cpp.dice s') = 3%nat
      ∧ Forall2 (promoted_or_same (value d)) (Cpp.dice s) (Cpp.dice s')
      ∧ ∀ j dj, Cpp.dice s !! j = Some dj →
          Cpp.dice s' !! j
          = Some (if decide (value dj = value d ∧ state dj = Rolled
                             ∧ (count_in Rolled (value d) (take j (Cpp.dice s))
                                < 3 - count_in Kept (value d) (Cpp.dice s))%nat)
                  then set_state Kept dj else dj))
     ∧ ((3 ≤ count_in Kept (value d) (Cpp.dice s))%nat →
        Cpp.dice s' = <[i := set_state Kept d]> (Cpp.dice s)))
  ∧ (∀ (dieId : Z) (s : TS.Engine) (i : nat) (d : Die),
       TS.status s = Rolling →
       list_find (λ d, id d = dieId) (TS.dice s) = Some (i, d) →
       state d = Rolled →
       let s' := TS.toggleKeep dieId s in
       ((3 ≤ count_in Rolled (value d) (TS.dice s))%nat →
        count_in Kept (value d) (TS.dice s')
        = (count_in Kept (value d) (TS.dice s) + 3)%nat
        ∧ Forall2 (promoted_or_same (value d)) (TS.dice s) (TS.dice s')
        ∧ ∀ j dj, TS.dice s !! j = Some dj →
            TS.dice s' !! j
            = Some (if decide (value dj = value d ∧ state dj = Rolled
                               ∧ (count_in Rolled (value d) (take j (TS.dice s)) < 3)%nat)
                    then set_state Kept dj else dj))
       ∧ ((count_in Rolled (value d) (TS.dice s) < 3)%nat →
          value d = 1 ∨ value d = 5 →
          TS.dice s' = <[i := set_state Kept d]> (TS.dice s))
       ∧ ((count_in Rolled (value d) (TS.dice s) < 3)%nat →
          value d ≠ 1 → value d ≠ 5 → s' = s)).
Proof.
  split.
  - intros die_id s i d Hst Hf Hr Hn s'. subst s'.
    rewrite (cpp_toggle_keep_rolled die_id s i d Hst Hf Hr Hn).
    cbn [Cpp.dice Cpp.recalc_keep_score Cpp.with_dice]. split.
    + intros Hlt. rewrite decide_True by exact Hlt. split; [|split].
      * rewrite promote_kept_count. lia.
      * apply promote_changes.
      * intros j dj Hj. apply promote_lookup, Hj.
    + intros Hge. rewrite decide_False by lia. reflexivity.
  - intros dieId s i d Hst Hf Hr s'. subst s'.
    rewrite (ts_toggleKeep_rolled dieId s i d Hst Hf Hr). split; [|split].
    + intros Hge. rewrite decide_True by exact Hge.
      cbn [TS.dice TS.recalcKeepScore TS.with_dice]. split; [|split].
      * rewrite promote_kept_count. lia.
      * apply promote_changes.
      * intros j dj Hj. apply promote_lookup, Hj.
    + intros Hlt Hv. rewrite decide_False by lia. rewrite decide_True by exact Hv.
      reflexivity.
    + intros Hlt H1 H5. rewrite !decide_False by (first [lia | tauto]). reflexivity.
Qed.

Lemma toggle_keep_on_rolled_die_witness :
  (count_in Kept 1 (Cpp.dice (Cpp.toggle_keep 1 cpp_opening)) = 3%nat
   ∧ Cpp.dice (Cpp.toggle_keep 3 cpp_four_twos)
     = <[3%nat := set_state Kept (mkDie 3 2 Rolled)]> (Cpp.dice cpp_four_twos))
  ∧ (count_in Kept 2 (TS.dice ts_four_twos) = 3%nat
     ∧ TS.dice ts_four_twos !! 2%nat = Some (mkDie 2 2 Kept)
     ∧ TS.dice ts_four_twos !! 3%nat = Some (mkDie 3 2 Rolled))
  ∧ TS.toggleKeep 3 ts_four_twos = ts_four_twos.
Proof.
  split; [split|split].
  - apply (proj1 toggle_keep_on_rolled_die 1 cpp_opening 1%nat (mkDie 1 1 Rolled));
      vm_compute; first [reflexivity | lia].
  - apply (proj1 toggle_keep_on_rolled_die 3 cpp_four_twos 3%nat (mkDie 3 2 Rolled));
      vm_compute; first [reflexivity | lia].
  - unfold ts_four_twos.
    match goal with |- context [TS.toggleKeep 0 ?s0] =>
      destruct (proj1 (proj2 toggle_keep_on_rolled_die 0 s0 0%nat (mkDie 0 2 Rolled)
                         ltac:(vm_compute; reflexivity) ltac:(vm_compute; reflexivity)
                         ltac:(reflexivity)) ltac:(vm_compute; lia))
        as (Hc & _ & Hpos) end.
    split; [exact Hc|]. split.
    + exact (Hpos 2%nat (mkDie 2 2 Rolled) ltac:(vm_compute; reflexivity)).
    + exact (Hpos 3%nat (mkDie 3 2 Rolled) ltac:(vm_compute; reflexivity)).
  - apply (proj2 toggle_keep_on_rolled_die 3 ts_four_twos 3%nat (mkDie 3 2 Rolled));
      vm_compute; first [reflexivity | lia | discriminate].
Defined.

(** ** C3: [passTurn] and construction *)

Lemma roll_rolled_all (draw : nat → Z) (k : nat) (ds : list Die) :
  Forall (λ d, state d = Rolled) ds →
  fst (roll_rolled draw k ds) = imap (λ j d, mkDie (id d) (draw (k + j)%nat) Rolled) ds.
Proof.
  intros Hall. revert k. induction Hall as [|d ds Hd _ IH]; intros k; [reflexivity|].
  cbn [roll_rolled imap]. rewrite decide_True by exact Hd.
  specialize (IH (S k)). destruct (roll_rolled draw (S k) ds) as [out vals].
  cbn [fst] in *. rewrite IH. unfold set_value. rewrite Hd, Nat.add_0_r.
  f_equal. apply imap_ext. intros j x _. cbn. f_equal. f_equal. lia.
Qed.

Lemma reset_rolled_all (ds : list Die) : Forall (λ d, state d = Rolled) (reset_rolled ds).
Proof. unfold reset_rolled. apply Forall_fmap, Forall_true. intros d. reflexivity. Qed.

Lemma bank_kept_all_rolled (ds : list Die) :
  Forall (λ d, state d = Rolled) ds → bank_kept ds = ds.
Proof.
  intros Hall. unfold bank_kept. induction Hall as [|d ds Hd _ IH]; [reflexivity|].
  rewrite fmap_cons, IH. rewrite decide_False by (rewrite Hd; discriminate). reflexivity.
Qed.

Lemma cpp_pool_before_roll_all_rolled (s : Cpp.Engine) :
  Forall (λ d, state d = Rolled) (Cpp.dice s) → Cpp.pool_before_roll s = Cpp.dice s.
Proof.
  intros Hall. unfold Cpp.pool_before_roll. rewrite (bank_kept_all_rolled _ Hall).
  destruct (existsb _ _); [reflexivity|].
  unfold reset_rolled. induction Hall as [|d ds Hd _ IH]; [reflexivity|].
  rewrite fmap_cons, IH. unfold set_state. rewrite <- Hd. destruct d; reflexivity.
Qed.

(** A roll on a pool whose dice are all Rolled rolls every die. *)
Lemma cpp_roll_all (rnd : nat → Z) (s : Cpp.Engine) :
  Forall (λ d, state d = Rolled) (Cpp.dice s) →
  Cpp.dice (Cpp.roll rnd s) = imap (λ k d, mkDie (id d) (rnd k) Rolled) (Cpp.dice s).
Proof.
  intros Hall. rewrite cpp_roll_dice, (cpp_pool_before_roll_all_rolled s Hall).
  apply (roll_rolled_all rnd 0 _ Hall).
Qed.

(** C3, as the specification states it, fails on the TypeScript engine:
    neither [passTurn] nor the constructor calls [roll].  With a source
    showing 2 2 3 3 4 4 they leave six Rolled dice without scoring
    potential in status Rolling, a state no call of [roll] ends in. *)
Lemma passTurn_and_constructor_do_not_roll :
  (∃ s', TS.passTurn ts_dud ts_opening = Some s'
         ∧ TS.status s' = Rolling
         ∧ values_in Rolled (TS.dice s') = [2; 2; 3; 3; 4; 4]
         ∧ ∀ rnd s, TS.roll rnd s ≠ s')
  ∧ TS.status (TS.new_engine ["Player"; "Computer"] ts_dud) = Rolling
  ∧ values_in Rolled (TS.dice (TS.new_engine ["Player"; "Computer"] ts_dud))
    = [2; 2; 3; 3; 4; 4]
  ∧ ∀ rnd s, TS.roll rnd s ≠ TS.new_engine ["Player"; "Computer"] ts_dud.
Proof.
  assert (∀ s' : TS.Engine,
            TS.status s' = Rolling →
            TS.hasScore (TS.getCounts (filter (λ d, state d = Rolled) (TS.dice s'))) = false →
            ∀ rnd s, TS.roll rnd s ≠ s') as Hnot.
  { intros s' Hst Hno rnd s Heq.
    pose proof (ts_roll_outcome rnd s) as Ho. cbv zeta in Ho.
    rewrite Heq, Hno in Ho. destruct Ho as [Ho _]. congruence. }
  split.
  - eexists. split; [vm_compute; reflexivity|].
    split; [reflexivity|]. split; [vm_compute; reflexivity|].
    apply Hnot; vm_compute; reflexivity.
  - split; [reflexivity|]. split; [vm_compute; reflexivity|].
    apply Hnot; vm_compute; reflexivity.
Qed.

Lemma imap_all {A B : Type} (P : B → Prop) (f : nat → A → B) (l : list A) :
  (∀ i x, P (f i x)) → Forall P (imap f l).
Proof.
  revert f. induction l as [|x l IH]; intros f Hf; [constructor|].
  cbn [imap]. constructor; [apply Hf|]. apply IH. intros i y. apply Hf.
Qed.

(** C3 (amended).  The C++ [pass_turn] builds the state [next_turn] (both
    scores 0, player index advanced modulo the number of players, all dice
    Rolled, status Rolling) and returns [roll] of it: all six dice are
    rolled, and the Farkle check of that roll decides the status.  The C++
    constructor likewise returns [roll] of its fresh state.  The
    TypeScript [passTurn] resets both scores, advances the player index
    the same way, replaces the pool by six Rolled dice with freshly drawn
    faces and returns that state in status Rolling, without a call of
    [roll] and so without a Farkle check; the TypeScript constructor
    returns such a state as well, with every player's score 0. *)
Theorem pass_turn_and_construction :
  (∀ (rnd : nat → Z) (s : Cpp.Engine),
     Cpp.player_scores s ≠ [] →
     Cpp.pass_turn rnd s = Some (Cpp.roll rnd (Cpp.next_turn s))
     ∧ Cpp.turn_score (Cpp.next_turn s) = 0
     ∧ Cpp.current_keep_score (Cpp.next_turn s) = 0
     ∧ Cpp.current_player_index (Cpp.next_turn s)
       = ((Cpp.current_player_index s + 1) mod length (Cpp.player_scores s))%nat
     ∧ Forall (λ d, state d = Rolled) (Cpp.dice (Cpp.next_turn s))
     ∧ Cpp.status (Cpp.next_turn s) = Rolling
     ∧ Cpp.dice (Cpp.roll rnd (Cpp.next_turn s))
       = imap (λ k d, mkDie (id d) (rnd k) Rolled) (Cpp.dice s))
  ∧ (∀ (n : nat) (rnd : nat → Z),
       Cpp.new_engine n rnd = Cpp.roll rnd (Cpp.fresh n)
       ∧ Cpp.dice (Cpp.new_engine n rnd)
         = (λ k : nat, mkDie (Z.of_nat k) (rnd k) Rolled) <$> seq 0 6)
  ∧ (∀ (rnd : nat → Q) (s : TS.Engine) (p : TS.Player),
       TS.players s !! ((TS.currentPlayerIndex s + 1) mod length (TS.players s))%nat
       = Some p →
       ∃ s', TS.passTurn rnd s = Some s'
             ∧ TS.turnScore s' = 0 ∧ TS.currentKeepScore s' = 0
             ∧ TS.currentPlayerIndex s'
               = ((TS.currentPlayerIndex s + 1) mod length (TS.players s))%nat
             ∧ TS.players s' = TS.players s
             ∧ TS.dice s'
               = (λ k : nat, mkDie (Z.of_nat k) (TS.face (rnd k)) Rolled) <$> seq 0 6
             ∧ TS.status s' = Rolling)
  ∧ (∀ (names : list string) (rnd : nat → Q),
       let s' := TS.new_engine names rnd in
       length (TS.players s') = length names
       ∧ Forall (λ p, TS.score p = 0) (TS.players s')
       ∧ TS.turnScore s' = 0 ∧ TS.currentKeepScore s' = 0
       ∧ TS.currentPlayerIndex s' = 0%nat
       ∧ TS.dice s'
         = (λ k : nat, mkDie (Z.of_nat k) (TS.face (rnd k)) Rolled) <$> seq 0 6
       ∧ TS.status s' = Rolling).
Proof.
  split; [|split; [|split]].
  - intros rnd s Hne. split.
    + unfold Cpp.pass_turn. rewrite decide_False; [reflexivity|].
      destruct (Cpp.player_scores s); [contradiction|discriminate].
    + repeat split.
      * apply reset_rolled_all.
      * rewrite cpp_roll_all by apply reset_rolled_all.
        cbn [Cpp.dice Cpp.next_turn]. unfold reset_rolled. rewrite imap_fmap.
        apply imap_ext. intros k d _. reflexivity.
  - intros n rnd. split; [reflexivity|].
    unfold Cpp.new_engine. fold (Cpp.fresh n).
    rewrite cpp_roll_all; [reflexivity|].
    cbn. repeat constructor.
  - intros rnd s p Hp. unfold TS.passTurn. rewrite Hp.
    eexists. split; [reflexivity|]. repeat split.
  - intros names rnd s'. subst s'. cbn [TS.new_engine TS.players TS.turnScore
      TS.currentKeepScore TS.currentPlayerIndex TS.dice TS.status].
    repeat split.
    + apply length_imap.
    + apply imap_all. intros i x. reflexivity.
Qed.

Lemma pass_turn_and_construction_witness :
  Cpp.pass_turn (scripted [2; 2; 3; 3; 4; 4] 1) cpp_second_cycle
  = Some (Cpp.roll (scripted [2; 2; 3; 3; 4; 4] 1) (Cpp.next_turn cpp_second_cycle))
  ∧ ∃ s', TS.passTurn ts_dud ts_second_cycle = Some s' ∧ TS.status s' = Rolling.
Proof.
  split.
  - apply (proj1 pass_turn_and_construction
             (scripted [2; 2; 3; 3; 4; 4] 1) cpp_second_cycle).
    vm_compute. discriminate.
  - destruct (proj1 (proj2 (proj2 pass_turn_and_construction)) ts_dud ts_second_cycle
                (TS.mkPlayer 1 TS.computer "Computer" 0)) as (s' & Hs' & H).
    + vm_compute. reflexivity.
    + exists s'. split; [exact Hs'|]. apply H.
Defined.

(** * Further properties of the two engines *)

(** ** Un-keeping a group, and the round trip of a selection *)

Lemma unkeep_value_counts (val : Z) (ds : list Die) :
  count_in Kept val (unkeep_value val ds) = 0%nat
  ∧ count_in Rolled val (unkeep_value val ds)
    = (count_in Rolled val ds + count_in Kept val ds)%nat.
Proof.
  unfold unkeep_value. induction ds as [|d ds [IHk IHr]]; [split; reflexivity|].
  rewrite fmap_cons, !count_in_cons, IHk, IHr.
  destruct (decide (value d = val ∧ state d = Kept)) as [[Hv Hk]|Hno];
    cbn [value state set_state]; repeat case_decide; try lia;
    exfalso; intuition congruence.
Qed.

Lemma unkeep_value_other (val w : Z) (st : DieState) (ds : list Die) :
  w ≠ val → count_in st w (unkeep_value val ds) = count_in st w ds.
Proof.
  intros Hw. unfold unkeep_value. induction ds as [|d ds IH]; [reflexivity|].
  rewrite fmap_cons, !count_in_cons, IH.
  destruct (decide (value d = val ∧ state d = Kept)) as [[Hv Hk]|Hno];
    cbn [value state set_state]; repeat case_decide; try lia;
    exfalso; intuition congruence.
Qed.

Lemma unkeep_value_changes (val : Z) (ds : list Die) :
  Forall2 (unkept_or_same val) ds (unkeep_value val ds).
Proof.
  unfold unkeep_value. induction ds as [|d ds IH]; [constructor|].
  rewrite fmap_cons. constructor; [|exact IH].
  destruct (decide (value d = val ∧ state d = Kept)) as [[Hv Hk]|Hno].
  - right. auto.
  - left. reflexivity.
Qed.

Lemma cpp_toggle_keep_kept (die_id : Z) (s : Cpp.Engine) (i : nat) (d : Die) :
  Cpp.status s = Rolling →
  list_find (λ d, id d = die_id) (Cpp.dice s) = Some (i, d) →
  state d = Kept →
  Cpp.toggle_keep die_id s
  = Cpp.recalc_keep_score (Cpp.with_dice (unkeep_value (value d) (Cpp.dice s)) s).
Proof.
  intros Hst Hf Hk. unfold Cpp.toggle_keep.
  rewrite decide_False by (intros H; apply H, Hst). rewrite Hf.
  rewrite decide_False by (rewrite Hk; discriminate).
  rewrite decide_True by exact Hk. reflexivity.
Qed.

Lemma ts_toggleKeep_kept (dieId : Z) (s : TS.Engine) (i : nat) (d : Die) :
  TS.status s = Rolling →
  list_find (λ d, id d = dieId) (TS.dice s) = Some (i, d) →
  state d = Kept →
  TS.toggleKeep dieId s
  = TS.recalcKeepScore (TS.with_dice (unkeep_value (value d) (TS.dice s)) s).
Proof.
  intros Hst Hf Hk. unfold TS.toggleKeep.
  rewrite decide_False by (intros H; apply H, Hst). rewrite Hf.
  rewrite decide_False by (rewrite Hk; discriminate).
  rewrite decide_True by exact Hk. reflexivity.
Qed.

(** X1.  A click on a Kept die, in status Rolling, un-keeps the whole
    group of its face in either engine: afterwards no die of that face is
    Kept, the Rolled dice of that face are the former Rolled and Kept ones
    together, every die is as before or a Kept die of that face turned
    Rolled, and the dice of every other face are counted as before. *)
Theorem toggle_keep_unkeeps_group :
  (∀ (die_id : Z) (s : Cpp.Engine) (i : nat) (d : Die),
     Cpp.status s = Rolling →
     list_find (λ d, id d = die_id) (Cpp.dice s) = Some (i, d) →
     state d = Kept →
     let s' := Cpp.toggle_keep die_id s in
     count_in Kept (value d) (Cpp.dice s') = 0%nat
     ∧ count_in Rolled (value d) (Cpp.dice s')
       = (count_in Rolled (value d) (Cpp.dice s)
          + count_in Kept (value d) (Cpp.dice s))%nat
     ∧ Forall2 (unkept_or_same (value d)) (Cpp.dice s) (Cpp.dice s')
     ∧ ∀ w st, w ≠ value d → count_in st w (Cpp.dice s') = count_in st w (Cpp.dice s))
  ∧ (∀ (dieId : Z) (s : TS.Engine) (i : nat) (d : Die),
       TS.status s = Rolling →
       list_find (λ d, id d = dieId) (TS.dice s) = Some (i, d) →
       state d = Kept →
       let s' := TS.toggleKeep dieId s in
       count_in Kept (value d) (TS.dice s') = 0%nat
       ∧ count_in Rolled (value d) (TS.dice s')
         = (count_in Rolled (value d) (TS.dice s)
            + count_in Kept (value d) (TS.dice s))%nat
       ∧ Forall2 (unkept_or_same (value d)) (TS.dice s) (TS.dice s')
       ∧ ∀ w st, w ≠ value d → count_in st w (TS.dice s') = count_in st w (TS.dice s)).
Proof.
  split.
  - intros die_id s i d Hst Hf Hk s'. subst s'.
    rewrite (cpp_toggle_keep_kept die_id s i d Hst Hf Hk).
    cbn [Cpp.dice Cpp.recalc_keep_score Cpp.with_dice].
    destruct (unkeep_value_counts (value d) (Cpp.dice s)) as [H0 H1].
    split; [exact H0|]. split; [exact H1|]. split; [apply unkeep_value_changes|].
    intros w st Hw. apply unkeep_value_other, Hw.
  - intros dieId s i d Hst Hf Hk s'. subst s'.
    rewrite (ts_toggleKeep_kept dieId s i d Hst Hf Hk).
    cbn [TS.dice TS.recalcKeepScore TS.with_dice].
    destruct (unkeep_value_counts (value d) (TS.dice s)) as [H0 H1].
    split; [exact H0|]. split; [exact H1|]. split; [apply unkeep_value_changes|].
    intros w st Hw. apply unkeep_value_other, Hw.
Qed.

Lemma toggle_keep_unkeeps_group_witness :
  count_in Kept 2 (Cpp.dice (Cpp.toggle_keep 1 cpp_four_twos)) = 0%nat
  ∧ count_in Kept 2 (TS.dice (TS.toggleKeep 1 ts_four_twos)) = 0%nat.
Proof.
  split.
  - apply (proj1 toggle_keep_unkeeps_group 1 cpp_four_twos 1%nat (mkDie 1 2 Kept));
      vm_compute; reflexivity.
  - apply (proj2 toggle_keep_unkeeps_group 1 ts_four_twos 1%nat (mkDie 1 2 Kept));
      vm_compute; reflexivity.
Defined.

Lemma count_in_zero (st : DieState) (v : Z) (ds : list Die) :
  count_in st v ds = 0%nat → Forall (λ d, ¬ (value d = v ∧ state d = st)) ds.
Proof.
  induction ds as [|d ds IH]; [constructor|].
  rewrite count_in_cons. destruct (decide (value d = v ∧ state d = st)); [lia|].
  intros H. constructor; [assumption|]. apply IH. lia.
Qed.

Lemma set_state_same (d : Die) : set_state (state d) d = d.
Proof. destruct d; reflexivity. Qed.

Lemma unkeep_value_none (val : Z) (ds : list Die) :
  count_in Kept val ds = 0%nat → unkeep_value val ds = ds.
Proof.
  intros H. apply count_in_zero in H. unfold unkeep_value.
  induction H as [|d ds Hd _ IH]; [reflexivity|].
  rewrite fmap_cons, IH, decide_False by exact Hd. reflexivity.
Qed.

Lemma unkeep_promote (val : Z) (needed : nat) (ds : list Die) :
  count_in Kept val ds = 0%nat → unkeep_value val (promote val needed ds) = ds.
Proof.
  intros H. apply count_in_zero in H. revert needed.
  induction H as [|d ds Hd _ IH]; intros needed; [reflexivity|].
  cbn [promote].
  destruct (decide (value d = val ∧ state d = Rolled ∧ (0 < needed)%nat))
    as [(Hv & Hr & _)|_]; unfold unkeep_value in *; rewrite fmap_cons, IH.
  - cbn [value state set_state]. rewrite decide_True by auto.
    f_equal. rewrite <- Hr. destruct d; reflexivity.
  - rewrite decide_False by exact Hd. reflexivity.
Qed.

Lemma unkeep_insert (val : Z) (ds : list Die) (i : nat) (d : Die) :
  ds !! i = Some d → state d = Rolled → value d = val →
  count_in Kept val ds = 0%nat →
  unkeep_value val (<[i := set_state Kept d]> ds) = ds.
Proof.
  intros Hl Hr Hv H0. pose proof (unkeep_value_none val ds H0) as Hid.
  unfold unkeep_value in *. rewrite list_fmap_insert, Hid.
  cbn [value state set_state]. rewrite decide_True by auto.
  apply list_insert_id. rewrite Hl. f_equal. rewrite <- Hr. destruct d; reflexivity.
Qed.

(** The search by id finds the same index in two pools with the same ids. *)
Lemma list_find_same_ids (x : Z) (l l' : list Die) (i : nat) (d : Die) :
  id <$> l' = id <$> l →
  list_find (λ d, id d = x) l = Some (i, d) →
  ∃ d', list_find (λ d, id d = x) l' = Some (i, d') ∧ id d' = id d.
Proof.
  intros Hids Hf. apply list_find_Some in Hf. destruct Hf as (Hl & Hx & Hbefore).
  assert (id <$> l' !! i = Some (id d)) as Hi.
  { rewrite <- list_lookup_fmap, Hids, list_lookup_fmap, Hl. reflexivity. }
  destruct (l' !! i) as [d'|] eqn:Hl'; [|discriminate]. injection Hi as Hi.
  exists d'. split; [|exact Hi]. apply list_find_Some. split; [exact Hl'|].
  split; [congruence|]. intros j y Hj Hlt Hy.
  assert (id <$> l !! j = Some (id y)) as Hjl.
  { rewrite <- list_lookup_fmap, <- Hids, list_lookup_fmap, Hj. reflexivity. }
  destruct (l !! j) as [z|] eqn:Hz; [|discriminate]. injection Hjl as Hjl.
  apply (Hbefore j z Hz Hlt). congruence.
Qed.

Lemma promote_value (val : Z) (needed : nat) (ds : list Die) :
  value <$> promote val needed ds = value <$> ds.
Proof.
  revert needed. induction ds as [|d ds IH]; intros needed; [reflexivity|].
  cbn [promote].
  destruct (decide (value d = val ∧ state d = Rolled ∧ (0 < needed)%nat));
    rewrite !fmap_cons, IH; reflexivity.
Qed.

Lemma cpp_toggle_keep_rolled_any (die_id : Z) (s : Cpp.Engine) (i : nat) (d : Die) :
  Cpp.status s = Rolling →
  list_find (λ d, id d = die_id) (Cpp.dice s) = Some (i, d) →
  state d = Rolled →
  Cpp.toggle_keep die_id s
  = if decide (3 ≤ count_in Rolled (value d) (Cpp.dice s)
                   + count_in Kept (value d) (Cpp.dice s))%nat then
      Cpp.recalc_keep_score
        (Cpp.with_dice
           (if decide (count_in Kept (value d) (Cpp.dice s) < 3)%nat
            then promote (value d) (3 - count_in Kept (value d) (Cpp.dice s)) (Cpp.dice s)
            else <[i := set_state Kept d]> (Cpp.dice s)) s)
    else if decide (value d = 1 ∨ value d = 5) then
      Cpp.recalc_keep_score (Cpp.with_dice (<[i := set_state Kept d]> (Cpp.dice s)) s)
    else Cpp.recalc_keep_score s.
Proof.
  intros Hst Hf Hr. unfold Cpp.toggle_keep.
  rewrite decide_False by (intros H; apply H, Hst). rewrite Hf.
  rewrite !decide_False by (rewrite Hr; discriminate).
  repeat case_decide; reflexivity.
Qed.

(** The pools a click on a Rolled die can leave, for the round trip. *)
Lemma selection_undone (val : Z) (ds ds' : list Die) (i : nat) (d d' : Die) :
  ds !! i = Some d → state d = Rolled → value d = val →
  count_in Kept val ds = 0%nat →
  (∃ n, ds' = promote val n ds) ∨ ds' = <[i := set_state Kept d]> ds ∨ ds' = ds →
  ds' !! i = Some d' → state d' = Kept →
  value d' = val ∧ unkeep_value val ds' = ds.
Proof.
  intros Hl Hr Hv H0 Hcases Hl' Hk. destruct Hcases as [[n ->]|[->| ->]].
  - split; [|apply unkeep_promote, H0].
    assert (value <$> promote val n ds !! i = value <$> ds !! i) as E
      by (rewrite <- !list_lookup_fmap, promote_value; reflexivity).
    rewrite Hl, Hl' in E. cbn in E. congruence.
  - split; [|apply (unkeep_insert val ds i d Hl Hr Hv H0)].
    rewrite list_lookup_insert_eq in Hl' by (apply lookup_lt_Some in Hl; exact Hl).
    injection Hl' as <-. exact Hv.
  - rewrite Hl in Hl'. injection Hl' as <-. rewrite Hr in Hk. discriminate.
Qed.

(** X2.  Selecting and deselecting is a round trip.  In status Rolling, on
    a state whose keep score is in sync, a click on a Rolled die whose face
    has no Kept die, followed by a second click on the same id when the
    first left that die Kept, gives back the state as it was, in either
    engine. *)
Theorem toggle_keep_twice_restores :
  (∀ (die_id : Z) (s : Cpp.Engine) (i : nat) (d d' : Die),
     Cpp.status s = Rolling →
     list_find (λ d, id d = die_id) (Cpp.dice s) = Some (i, d) →
     state d = Rolled →
     count_in Kept (value d) (Cpp.dice s) = 0%nat →
     Cpp.current_keep_score s = Cpp.evaluate_scoring (values_in Kept (Cpp.dice s)) →
     Cpp.dice (Cpp.toggle_keep die_id s) !! i = Some d' →
     state d' = Kept →
     Cpp.toggle_keep die_id (Cpp.toggle_keep die_id s) = s)
  ∧ (∀ (dieId : Z) (s : TS.Engine) (i : nat) (d d' : Die),
       TS.status s = Rolling →
       list_find (λ d, id d = dieId) (TS.dice s) = Some (i, d) →
       state d = Rolled →
       count_in Kept (value d) (TS.dice s) = 0%nat →
       TS.currentKeepScore s
       = TS.evaluateScoring (filter (λ d, state d = Kept) (TS.dice s)) →
       TS.dice (TS.toggleKeep dieId s) !! i = Some d' →
       state d' = Kept →
       TS.toggleKeep dieId (TS.toggleKeep dieId s) = s).
Proof.
  split.
  - intros die_id s i d d' Hst Hf Hr H0 Hsync Hl' Hk.
    pose proof (list_find_lookup _ _ _ _ Hf) as [Hl _].
    destruct (list_find_same_ids die_id (Cpp.dice s) (Cpp.dice (Cpp.toggle_keep die_id s))
                i d (cpp_toggle_keep_ids die_id s) Hf) as (d2 & Hf' & _).
    pose proof (list_find_lookup _ _ _ _ Hf') as [Hl2 _].
    rewrite Hl' in Hl2. injection Hl2 as <-.
    assert (Cpp.status (Cpp.toggle_keep die_id s) = Rolling
            ∧ ((∃ n, Cpp.dice (Cpp.toggle_keep die_id s) = promote (value d) n (Cpp.dice s))
               ∨ Cpp.dice (Cpp.toggle_keep die_id s) = <[i := set_state Kept d]> (Cpp.dice s)
               ∨ Cpp.dice (Cpp.toggle_keep die_id s) = Cpp.dice s)
            ∧ ∀ ds, Cpp.recalc_keep_score (Cpp.with_dice ds (Cpp.toggle_keep die_id s))
                    = Cpp.recalc_keep_score (Cpp.with_dice ds s)) as (Hst' & Hcases & Hrest).
    { rewrite (cpp_toggle_keep_rolled_any die_id s i d Hst Hf Hr).
      repeat case_decide; cbn [Cpp.status Cpp.dice Cpp.recalc_keep_score Cpp.with_dice];
        (split; [exact Hst|split; [eauto|reflexivity]]). }
    destruct (selection_undone (value d) (Cpp.dice s) _ i d d' Hl Hr eq_refl H0 Hcases Hl' Hk)
      as [Hv' Hback].
    rewrite (cpp_toggle_keep_kept die_id _ i d' Hst' Hf' Hk), Hv', Hback, Hrest.
    unfold Cpp.recalc_keep_score, Cpp.with_dice. cbn [Cpp.dice]. rewrite <- Hsync.
    destruct s; reflexivity.
  - intros dieId s i d d' Hst Hf Hr H0 Hsync Hl' Hk.
    pose proof (list_find_lookup _ _ _ _ Hf) as [Hl _].
    destruct (list_find_same_ids dieId (TS.dice s) (TS.dice (TS.toggleKeep dieId s))
                i d (ts_toggleKeep_ids dieId s) Hf) as (d2 & Hf' & _).
    pose proof (list_find_lookup _ _ _ _ Hf') as [Hl2 _].
    rewrite Hl' in Hl2. injection Hl2 as <-.
    assert (TS.status (TS.toggleKeep dieId s) = Rolling
            ∧ ((∃ n, TS.dice (TS.toggleKeep dieId s) = promote (value d) n (TS.dice s))
               ∨ TS.dice (TS.toggleKeep dieId s) = <[i := set_state Kept d]> (TS.dice s)
               ∨ TS.dice (TS.toggleKeep dieId s) = TS.dice s)
            ∧ ∀ ds, TS.recalcKeepScore (TS.with_dice ds (TS.toggleKeep dieId s))
                    = TS.recalcKeepScore (TS.with_dice ds s)) as (Hst' & Hcases & Hrest).
    { rewrite (ts_toggleKeep_rolled dieId s i d Hst Hf Hr).
      repeat case_decide; cbn [TS.status TS.dice TS.recalcKeepScore TS.with_dice];
        (split; [exact Hst|split; [eauto|reflexivity]]). }
    destruct (selection_undone (value d) (TS.dice s) _ i d d' Hl Hr eq_refl H0 Hcases Hl' Hk)
      as [Hv' Hback].
    rewrite (ts_toggleKeep_kept dieId _ i d' Hst' Hf' Hk), Hv', Hback, Hrest.
    unfold TS.recalcKeepScore, TS.with_dice. cbn [TS.dice]. rewrite <- Hsync.
    destruct s; reflexivity.
Qed.

Lemma toggle_keep_twice_restores_witness :
  Cpp.toggle_keep 0 (Cpp.toggle_keep 0 cpp_opening) = cpp_opening
  ∧ TS.toggleKeep 0 (TS.toggleKeep 0 ts_opening) = ts_opening.
Proof.
  split.
  - apply (proj1 toggle_keep_twice_restores 0 cpp_opening 0%nat
             (mkDie 0 1 Rolled) (mkDie 0 1 Kept)); vm_compute; reflexivity.
  - apply (proj2 toggle_keep_twice_restores 0 ts_opening 0%nat
             (mkDie 0 1 Rolled) (mkDie 0 1 Kept)); vm_compute; reflexivity.
Defined.

(** ** Which dice a roll touches *)

Lemma count_state_cons (st : DieState) (d : Die) (ds : list Die) :
  count_state st (d :: ds)
  = ((if decide (state d = st) then 1 else 0) + count_state st ds)%nat.
Proof.
  unfold count_state. rewrite filter_cons. destruct (decide (state d = st)); reflexivity.
Qed.

(** The die at index [i] takes the outcome numbered by the Rolled dice
    before it; a die in another state is left alone. *)
Lemma roll_rolled_lookup (draw : nat → Z) (k : nat) (ds : list Die) (i : nat) (d : Die) :
  ds !! i = Some d →
  fst (roll_rolled draw k ds) !! i
  = Some (if decide (state d = Rolled)
          then set_value (draw (k + count_state Rolled (take i ds))%nat) d
          else d).
Proof.
  revert k i. induction ds as [|x ds IH]; intros k i Hl; [discriminate|].
  cbn [roll_rolled]. destruct i as [|i].
  - injection Hl as ->. cbn [take]. unfold count_state at 1. cbn [filter length].
    rewrite Nat.add_0_r.
    destruct (decide (state d = Rolled));
      [destruct (roll_rolled draw (S k) ds)|destruct (roll_rolled draw k ds)]; reflexivity.
  - cbn in Hl. cbn [take]. rewrite count_state_cons.
    destruct (decide (state x = Rolled)).
    + specialize (IH (S k) i Hl). destruct (roll_rolled draw (S k) ds) as [out vals].
      cbn [fst] in *.
      replace (k + (1 + count_state Rolled (take i ds)))%nat
        with (S k + count_state Rolled (take i ds))%nat by lia. exact IH.
    + specialize (IH k i Hl). destruct (roll_rolled draw k ds) as [out vals].
      cbn [fst] in *. rewrite Nat.add_0_l. exact IH.
Qed.

Lemma bank_kept_rolled_count (ds : list Die) :
  count_state Rolled (bank_kept ds) = count_state Rolled ds.
Proof.
  unfold bank_kept. induction ds as [|d ds IH]; [reflexivity|].
  rewrite fmap_cons, !count_state_cons, IH.
  destruct (decide (state d = Kept)) as [Hk|Hk]; cbn [state set_state];
    repeat case_decide; try lia; congruence.
Qed.

Lemma bank_kept_take (n : nat) (ds : list Die) : take n (bank_kept ds) = bank_kept (take n ds).
Proof. unfold bank_kept. symmetry. apply fmap_take. Qed.

Lemma any_rolled_count (ds : list Die) :
  existsb (λ d, bool_decide (state d = Rolled)) ds = false ↔ count_state Rolled ds = 0%nat.
Proof.
  induction ds as [|d ds IH]; [split; reflexivity|].
  cbn [existsb]. rewrite count_state_cons.
  destruct (bool_decide_reflect (state d = Rolled)) as [Hr|Hr].
  - rewrite decide_True by exact Hr. cbn. split; [discriminate|lia].
  - rewrite decide_False by exact Hr. cbn [orb]. rewrite IH. split; lia.
Qed.

Lemma bank_kept_none (ds : list Die) : count_state Kept ds = 0%nat → bank_kept ds = ds.
Proof.
  unfold bank_kept. induction ds as [|d ds IH]; [reflexivity|].
  rewrite count_state_cons. destruct (decide (state d = Kept)); [lia|].
  intros H. rewrite fmap_cons, IH by lia. rewrite decide_False by assumption. reflexivity.
Qed.

(** Steps 1 and 2 of [roll] are the same in the two engines. *)
Lemma cpp_pool_before_roll_eq (s : Cpp.Engine) :
  Cpp.pool_before_roll s
  = if decide (count_state Rolled (Cpp.dice s) = 0%nat)
    then reset_rolled (bank_kept (Cpp.dice s)) else bank_kept (Cpp.dice s).
Proof.
  unfold Cpp.pool_before_roll.
  pose proof (any_rolled_count (bank_kept (Cpp.dice s))) as H.
  rewrite bank_kept_rolled_count in H.
  destruct (existsb _ _); destruct (decide (_ = 0%nat)) as [H0|H0]; try reflexivity.
  - apply H in H0. discriminate.
  - exfalso. apply H0, H. reflexivity.
Qed.

Lemma ts_pool_before_roll_eq (s : TS.Engine) :
  TS.pool_before_roll s
  = if decide (count_state Rolled (TS.dice s) = 0%nat)
    then reset_rolled (bank_kept (TS.dice s)) else bank_kept (TS.dice s).
Proof.
  unfold TS.pool_before_roll.
  assert ((if decide (0 < length (filter (λ d, state d = Kept) (TS.dice s)))%nat
           then bank_kept (TS.dice s) else TS.dice s) = bank_kept (TS.dice s)) as ->.
  { destruct (decide (0 < _)%nat); [reflexivity|].
    symmetry. apply bank_kept_none. unfold count_state. lia. }
  fold (count_state Rolled (bank_kept (TS.dice s))). rewrite bank_kept_rolled_count.
  reflexivity.
Qed.

Lemma partial_roll_lookup (draw : nat → Z) (ds : list Die) (i : nat) (d : Die) :
  ds !! i = Some d →
  fst (roll_rolled draw 0 (bank_kept ds)) !! i
  = Some (match state d with
          | Rolled => set_value (draw (count_state Rolled (take i ds))) d
          | _ => set_state Banked d
          end).
Proof.
  intros Hl.
  rewrite (roll_rolled_lookup draw 0 _ i _ (bank_kept_lookup ds i d Hl)).
  rewrite bank_kept_take, bank_kept_rolled_count. f_equal.
  destruct d as [di dv []]; reflexivity.
Qed.

Lemma hot_hand_roll (draw : nat → Z) (ds : list Die) :
  fst (roll_rolled draw 0 (reset_rolled (bank_kept ds)))
  = imap (λ k d, mkDie (id d) (draw k) Rolled) ds.
Proof.
  rewrite roll_rolled_all by apply reset_rolled_all.
  unfold reset_rolled, bank_kept. rewrite !imap_fmap.
  apply imap_ext. intros k d _. cbn. destruct (decide (state d = Kept)); reflexivity.
Qed.

(** X3.  The hot hand.  When no die is in state Rolled, [roll] resets the
    whole pool and rolls every die: die k of the pool ends Rolled with
    the k-th outcome of the source, in either engine. *)
Theorem roll_hot_hand_rolls_all :
  (∀ (rnd : nat → Z) (s : Cpp.Engine),
     count_state Rolled (Cpp.dice s) = 0%nat →
     Cpp.dice (Cpp.roll rnd s) = imap (λ k d, mkDie (id d) (rnd k) Rolled) (Cpp.dice s))
  ∧ (∀ (rnd : nat → Q) (s : TS.Engine),
       count_state Rolled (TS.dice s) = 0%nat →
       TS.dice (TS.roll rnd s)
       = imap (λ k d, mkDie (id d) (TS.face (rnd k)) Rolled) (TS.dice s)).
Proof.
  split; intros rnd s H0.
  - rewrite cpp_roll_dice, cpp_pool_before_roll_eq, decide_True by exact H0.
    apply hot_hand_roll.
  - rewrite ts_roll_dice, ts_pool_before_roll_eq, decide_True by exact H0.
    apply (hot_hand_roll (λ k, TS.face (rnd k))).
Qed.

(** X4.  When some die is in state Rolled, [roll] rolls the Rolled dice
    only: a Rolled die takes the outcome numbered by the Rolled dice
    before it in the pool, and a Kept or Banked die ends Banked with its
    id and face untouched, in either engine. *)
Theorem roll_rolls_only_rolled_dice :
  (∀ (rnd : nat → Z) (s : Cpp.Engine) (i : nat) (d : Die),
     count_state Rolled (Cpp.dice s) ≠ 0%nat →
     Cpp.dice s !! i = Some d →
     Cpp.dice (Cpp.roll rnd s) !! i
     = Some (match state d with
             | Rolled => set_value (rnd (count_state Rolled (take i (Cpp.dice s)))) d
             | _ => set_state Banked d
             end))
  ∧ (∀ (rnd : nat → Q) (s : TS.Engine) (i : nat) (d : Die),
       count_state Rolled (TS.dice s) ≠ 0%nat →
       TS.dice s !! i = Some d →
       TS.dice (TS.roll rnd s) !! i
       = Some (match state d with
               | Rolled =>
                   set_value (TS.face (rnd (count_state Rolled (take i (TS.dice s))))) d
               | _ => set_state Banked d
               end)).
Proof.
  split; intros rnd s i d H0 Hl.
  - rewrite cpp_roll_dice, cpp_pool_before_roll_eq, decide_False by exact H0.
    apply (partial_roll_lookup rnd _ i d Hl).
  - rewrite ts_roll_dice, ts_pool_before_roll_eq, decide_False by exact H0.
    apply (partial_roll_lookup (λ k, TS.face (rnd k)) _ i d Hl).
Qed.

(** X5.  A roll either busts or carries the pot over: the outcome is
    Farkle with both scores 0, or Rolling.  In Rolling the C++ engine has
    always moved the keep score into the turn score, as a sum of [int];
    the TypeScript engine has done so when a die was Kept, and has left
    both scores as they were when none was. *)
Theorem roll_busts_or_carries_pot :
  (∀ (rnd : nat → Z) (s : Cpp.Engine),
     let s' := Cpp.roll rnd s in
     (Cpp.status s' = Farkle ∧ Cpp.turn_score s' = 0 ∧ Cpp.current_keep_score s' = 0)
     ∨ (Cpp.status s' = Rolling
        ∧ Cpp.turn_score s' = Cpp.add (Cpp.turn_score s) (Cpp.current_keep_score s)
        ∧ Cpp.current_keep_score s' = 0
        ∧ (Cpp.INT_MIN ≤ Cpp.turn_score s + Cpp.current_keep_score s ≤ Cpp.INT_MAX →
           Cpp.turn_score s' = Cpp.turn_score s + Cpp.current_keep_score s)))
  ∧ (∀ (rnd : nat → Q) (s : TS.Engine),
       let s' := TS.roll rnd s in
       (TS.status s' = Farkle ∧ TS.turnScore s' = 0 ∧ TS.currentKeepScore s' = 0)
       ∨ (TS.status s' = Rolling
          ∧ (count_state Kept (TS.dice s) ≠ 0%nat →
             TS.turnScore s' = TS.turnScore s + TS.currentKeepScore s
             ∧ TS.currentKeepScore s' = 0)
          ∧ (count_state Kept (TS.dice s) = 0%nat →
             TS.turnScore s' = TS.turnScore s
             ∧ TS.currentKeepScore s' = TS.currentKeepScore s))).
Proof.
  split; intros rnd s s'; subst s'.
  - pose proof (cpp_roll_outcome rnd s) as Ho. cbv zeta in Ho.
    destruct (cpp_roll_fixed rnd s) as (_ & _ & _ & Hk).
    destruct (Cpp.has_scoring_potential _); [right|left; tauto].
    destruct Ho as [Hst Ht]. split; [exact Hst|]. split; [exact Ht|].
    split; [exact Hk|]. intros Hr. rewrite Ht. apply add_exact, Hr.
  - pose proof (ts_roll_outcome rnd s) as Ho. cbv zeta in Ho.
    destruct (TS.hasScore _); [right|left; exact Ho].
    destruct Ho as [Hst Ho]. split; [exact Hst|].
    destruct (decide (0 < count_state Kept (TS.dice s))%nat) as [Hk|Hk];
      split; intros Hc; first [exact Ho | lia].
Qed.

Lemma roll_hot_hand_rolls_all_witness :
  Cpp.dice (Cpp.roll (scripted [2; 3; 4; 6; 2; 3] 1) cpp_all_kept)
  = imap (λ k d, mkDie (id d) (scripted [2; 3; 4; 6; 2; 3] 1 k) Rolled)
         (Cpp.dice cpp_all_kept).
Proof.
  apply (proj1 roll_hot_hand_rolls_all (scripted [2; 3; 4; 6; 2; 3] 1) cpp_all_kept).
  vm_compute. reflexivity.
Defined.

Lemma roll_rolls_only_rolled_dice_witness :
  Cpp.dice (Cpp.roll (scripted [1; 2; 3] 1) (Cpp.toggle_keep 0 cpp_opening)) !! 0%nat
  = Some (mkDie 0 1 Banked)
  ∧ TS.dice (TS.roll (scripted [1 # 6; 1 # 3; 1 # 2] (1 # 6))%Q
               (TS.toggleKeep 0 ts_opening)) !! 4%nat
    = Some (mkDie 4 2 Rolled).
Proof.
  split.
  - apply (proj1 roll_rolls_only_rolled_dice (scripted [1; 2; 3] 1)
             (Cpp.toggle_keep 0 cpp_opening) 0%nat (mkDie 0 1 Kept)).
    + vm_compute. discriminate.
    + vm_compute. reflexivity.
  - apply (proj2 roll_rolls_only_rolled_dice (scripted [1 # 6; 1 # 3; 1 # 2] (1 # 6))%Q
             (TS.toggleKeep 0 ts_opening) 4%nat (mkDie 4 3 Rolled)).
    + vm_compute. discriminate.
    + vm_compute. reflexivity.
Defined.

Lemma roll_busts_or_carries_pot_witness :
  TS.currentKeepScore
    (TS.roll (scripted [1 # 6; 1 # 3; 1 # 2] (1 # 6))%Q (TS.toggleKeep 0 ts_opening)) = 0
  ∧ Cpp.turn_score (Cpp.roll (scripted [1; 2; 3] 1) (Cpp.toggle_keep 0 cpp_opening)) = 1000.
Proof.
  split.
  - assert (count_state Kept (TS.dice (TS.toggleKeep 0 ts_opening)) ≠ 0%nat) as Hk
      by (vm_compute; discriminate).
    destruct (proj2 roll_busts_or_carries_pot
                (scripted [1 # 6; 1 # 3; 1 # 2] (1 # 6))%Q (TS.toggleKeep 0 ts_opening))
      as [(_ & _ & H)|(_ & H & _)]; [exact H|exact (proj2 (H Hk))].
  - destruct (proj1 roll_busts_or_carries_pot
                (scripted [1; 2; 3] 1) (Cpp.toggle_keep 0 cpp_opening))
      as [(H & _)|(_ & _ & _ & H)]; [vm_compute in H; discriminate|].
    apply H. vm_compute. split; intros ?; discriminate.
Defined.

(** ** What the operations leave alone *)

Lemma cpp_toggle_keep_frame (die_id : Z) (s : Cpp.Engine) :
  Cpp.player_scores (Cpp.toggle_keep die_id s) = Cpp.player_scores s
  ∧ Cpp.current_player_index (Cpp.toggle_keep die_id s) = Cpp.current_player_index s
  ∧ Cpp.turn_score (Cpp.toggle_keep die_id s) = Cpp.turn_score s
  ∧ Cpp.status (Cpp.toggle_keep die_id s) = Cpp.status s.
Proof. unfold Cpp.toggle_keep. repeat case_match; repeat split. Qed.

Lemma ts_toggleKeep_frame (dieId : Z) (s : TS.Engine) :
  TS.players (TS.toggleKeep dieId s) = TS.players s
  ∧ TS.currentPlayerIndex (TS.toggleKeep dieId s) = TS.currentPlayerIndex s
  ∧ TS.turnScore (TS.toggleKeep dieId s) = TS.turnScore s
  ∧ TS.status (TS.toggleKeep dieId s) = TS.status s.
Proof. unfold TS.toggleKeep. repeat case_match; repeat split. Qed.

Lemma cpp_pass_turn_frame (rnd : nat → Z) (s s' : Cpp.Engine) :
  Cpp.pass_turn rnd s = Some s' →
  Cpp.player_scores s' = Cpp.player_scores s
  ∧ Cpp.current_player_index s'
    = ((Cpp.current_player_index s + 1) mod length (Cpp.player_scores s))%nat
  ∧ Cpp.player_scores s ≠ [].
Proof.
  unfold Cpp.pass_turn.
  destruct (decide (length (Cpp.player_scores s) = 0%nat)) as [|Hn]; [discriminate|].
  intros [= <-].
  assert (Cpp.player_scores s ≠ []) as Hne.
  { intros E. apply Hn. rewrite E. reflexivity. }
  match goal with |- context [Cpp.roll rnd ?s0] =>
    destruct (cpp_roll_fixed rnd s0) as (H1 & H2 & _) end.
  rewrite H1, H2. repeat split. exact Hne.
Qed.

Lemma ts_passTurn_frame (rnd : nat → Q) (s s' : TS.Engine) :
  TS.passTurn rnd s = Some s' →
  TS.players s' = TS.players s
  ∧ TS.currentPlayerIndex s'
    = ((TS.currentPlayerIndex s + 1) mod length (TS.players s))%nat
  ∧ TS.players s ≠ [].
Proof.
  unfold TS.passTurn. case_match eqn:E; [|discriminate]. intros [= <-].
  repeat split. intros E'. rewrite E' in E. discriminate.
Qed.

(** The three ways [bank] can end. *)
Lemma cpp_bank_cases (rnd : nat → Z) (s s' : Cpp.Engine) :
  Cpp.bank rnd s = Some s' →
  (s' = s ∧ Cpp.current_keep_score s = 0 ∧ Cpp.turn_score s = 0)
  ∨ ∃ total, Cpp.player_scores s !! Cpp.current_player_index s = Some total
      ∧ ((10000 ≤ Cpp.add total
                        (Cpp.add (Cpp.turn_score s) (Cpp.current_keep_score s))
          ∧ s' = Cpp.with_status Win (Cpp.banked total s))
         ∨ (Cpp.add total (Cpp.add (Cpp.turn_score s) (Cpp.current_keep_score s))
            < 10000
            ∧ Cpp.pass_turn rnd (Cpp.banked total s) = Some s')).
Proof.
  intros Hb.
  destruct (decide (Cpp.current_keep_score s = 0 ∧ Cpp.turn_score s = 0)) as [Hz|Hz].
  - left. unfold Cpp.bank in Hb. rewrite decide_True in Hb by exact Hz.
    injection Hb as <-. tauto.
  - right. destruct (Cpp.player_scores s !! Cpp.current_player_index s) as [total|] eqn:Hp.
    + exists total. split; [reflexivity|].
      rewrite (cpp_bank_commits rnd s total Hp Hz) in Hb.
      destruct (decide (10000 ≤ _)); [left|right]; split; try lia; congruence.
    + unfold Cpp.bank in Hb. rewrite decide_False, Hp in Hb by exact Hz. discriminate.
Qed.

Lemma ts_bank_cases (rnd : nat → Q) (s s' : TS.Engine) :
  TS.bank rnd s = Some s' →
  (s' = s ∧ TS.currentKeepScore s = 0 ∧ TS.turnScore s = 0)
  ∨ ∃ p, TS.players s !! TS.currentPlayerIndex s = Some p
      ∧ ((10000 ≤ TS.score p + (TS.turnScore s + TS.currentKeepScore s)
          ∧ s' = TS.with_message (TS.name p +:+ " Wins!")
                   (TS.with_status Win (TS.banked p s)))
         ∨ (TS.score p + (TS.turnScore s + TS.currentKeepScore s) < 10000
            ∧ TS.passTurn rnd (TS.banked p s) = Some s')).
Proof.
  intros Hb.
  destruct (decide (TS.currentKeepScore s = 0 ∧ TS.turnScore s = 0)) as [Hz|Hz].
  - left. unfold TS.bank in Hb. rewrite decide_True in Hb by exact Hz.
    injection Hb as <-. tauto.
  - right. destruct (TS.players s !! TS.currentPlayerIndex s) as [p|] eqn:Hp.
    + exists p. split; [reflexivity|].
      rewrite (ts_bank_commits rnd s p Hp Hz) in Hb.
      destruct (decide (10000 ≤ _)); [left|right]; split; try lia; congruence.
    + unfold TS.bank in Hb. rewrite decide_False, Hp in Hb by exact Hz. discriminate.
Qed.

Lemma ts_computerMove_cases (rnd : nat → Q) (s : TS.Engine) :
  TS.computerMove rnd s = s
  ∨ TS.computerMove rnd s = TS.roll rnd s
  ∨ ∃ ds, TS.computerMove rnd s
          = TS.recalcKeepScore (TS.recalcKeepScore (TS.with_dice ds (TS.roll rnd s)))
          ∧ TS.status (TS.roll rnd s) ≠ Farkle.
Proof.
  unfold TS.computerMove.
  destruct (decide (TS.status s = Win)); [left; reflexivity|].
  destruct (decide (TS.status (TS.roll rnd s) = Farkle)); [right; left; reflexivity|].
  right. right. eexists. split; [reflexivity|assumption].
Qed.

(** X6.  Only [bank] writes a player's total, and only the current
    player's.  [roll], [toggleKeep] and [passTurn] return the totals they
    were given; a successful [bank] leaves the number of players and every
    total but the current player's as they were, and the current player's
    total is the old one, or the sum of the old one and the pot: a sum of
    [int] in the C++ engine, which is the plain sum as long as that stays
    within the range of [int].  Both engines. *)
Theorem only_bank_writes_totals :
  (∀ (rnd : nat → Z) (die_id : Z) (s s' : Cpp.Engine),
     Cpp.player_scores (Cpp.roll rnd s) = Cpp.player_scores s
     ∧ Cpp.player_scores (Cpp.toggle_keep die_id s) = Cpp.player_scores s
     ∧ (Cpp.pass_turn rnd s = Some s' → Cpp.player_scores s' = Cpp.player_scores s)
     ∧ (Cpp.bank rnd s = Some s' →
        length (Cpp.player_scores s') = length (Cpp.player_scores s)
        ∧ (∀ j, j ≠ Cpp.current_player_index s →
                Cpp.player_scores s' !! j = Cpp.player_scores s !! j)
        ∧ (Cpp.player_scores s' = Cpp.player_scores s
           ∨ ∃ total, Cpp.player_scores s !! Cpp.current_player_index s = Some total
               ∧ Cpp.player_scores s' !! Cpp.current_player_index s
                 = Some (Cpp.add total
                           (Cpp.add (Cpp.turn_score s) (Cpp.current_keep_score s)))
               ∧ (Cpp.INT_MIN ≤ Cpp.turn_score s + Cpp.current_keep_score s
                  ≤ Cpp.INT_MAX →
                  Cpp.INT_MIN ≤ total + (Cpp.turn_score s + Cpp.current_keep_score s)
                  ≤ Cpp.INT_MAX →
                  Cpp.player_scores s' !! Cpp.current_player_index s
                  = Some (total + (Cpp.turn_score s + Cpp.current_keep_score s))))))
  ∧ (∀ (rnd : nat → Q) (dieId : Z) (s s' : TS.Engine),
       TS.players (TS.roll rnd s) = TS.players s
       ∧ TS.players (TS.toggleKeep dieId s) = TS.players s
       ∧ TS.players (TS.computerMove rnd s) = TS.players s
       ∧ (TS.passTurn rnd s = Some s' → TS.players s' = TS.players s)
       ∧ (TS.bank rnd s = Some s' →
          length (TS.players s') = length (TS.players s)
          ∧ (∀ j, j ≠ TS.currentPlayerIndex s →
                  TS.players s' !! j = TS.players s !! j)
          ∧ (TS.players s' = TS.players s
             ∨ ∃ p, TS.players s !! TS.currentPlayerIndex s = Some p
                 ∧ TS.players s' !! TS.currentPlayerIndex s
                   = Some (TS.add_score (TS.turnScore s + TS.currentKeepScore s) p)))).
Proof.
  split.
  - intros rnd die_id s s'. split; [apply cpp_roll_fixed|].
    split; [apply cpp_toggle_keep_frame|].
    split; [intros H; apply (cpp_pass_turn_frame rnd s s' H)|].
    intros Hb. destruct (cpp_bank_cases rnd s s' Hb) as [(-> & _)|(total & Hp & Hcases)].
    { repeat split. left. reflexivity. }
    assert (Cpp.player_scores s' = Cpp.player_scores (Cpp.banked total s)) as ->.
    { destruct Hcases as [[_ ->]|[_ Hpt]]; [reflexivity|].
      apply (cpp_pass_turn_frame rnd _ s' Hpt). }
    cbn [Cpp.banked Cpp.player_scores]. split; [apply length_insert|]. split.
    + intros j Hj. apply list_lookup_insert_ne. congruence.
    + right. exists total. split; [exact Hp|].
      assert (Cpp.current_player_index s < length (Cpp.player_scores s))%nat as Hlt
        by (apply lookup_lt_Some in Hp; exact Hp).
      split; [apply list_lookup_insert_eq; exact Hlt|].
      intros Hpot Htot. rewrite (add_exact (Cpp.turn_score s)) by exact Hpot.
      rewrite add_exact by exact Htot.
      apply list_lookup_insert_eq. exact Hlt.
  - intros rnd dieId s s'. split; [apply ts_roll_fixed|].
    split; [apply ts_toggleKeep_frame|].
    split.
    { destruct (ts_computerMove_cases rnd s) as [->|[->|(ds & -> & _)]];
        [reflexivity|apply ts_roll_fixed|apply (ts_roll_fixed rnd s)]. }
    split; [intros H; apply (ts_passTurn_frame rnd s s' H)|].
    intros Hb. destruct (ts_bank_cases rnd s s' Hb) as [(-> & _)|(p & Hp & Hcases)].
    { repeat split. left. reflexivity. }
    assert (TS.players s' = TS.players (TS.banked p s)) as ->.
    { destruct Hcases as [[_ ->]|[_ Hpt]]; [reflexivity|].
      apply (ts_passTurn_frame rnd _ s' Hpt). }
    cbn [TS.banked TS.players]. split; [apply length_insert|]. split.
    + intros j Hj. apply list_lookup_insert_ne. congruence.
    + right. exists p. split; [exact Hp|].
      apply list_lookup_insert_eq. apply lookup_lt_Some in Hp. exact Hp.
Qed.

Lemma only_bank_writes_totals_witness :
  ∃ s', Cpp.bank (scripted [2; 2; 3] 1) (Cpp.toggle_keep 0 cpp_opening) = Some s'
        ∧ Cpp.player_scores s' !! 1%nat = Some 0
        ∧ Cpp.player_scores s' !! 0%nat = Some 1000.
Proof.
  eexists. split; [vm_compute; reflexivity|].
  match goal with |- Cpp.player_scores ?s' !! _ = _ ∧ _ =>
    destruct (proj1 only_bank_writes_totals (scripted [2; 2; 3] 1) 0
                (Cpp.toggle_keep 0 cpp_opening) s') as (_ & _ & _ & Hbank) end.
  destruct Hbank as (_ & Hothers & Hcur); [vm_compute; reflexivity|].
  split.
  - rewrite (Hothers 1%nat) by (vm_compute; discriminate).
    vm_compute. reflexivity.
  - destruct Hcur as [Hsame|(total & Htot & _ & Hexact)];
      [vm_compute in Hsame; discriminate|].
    vm_compute in Htot. injection Htot as <-.
    apply Hexact; vm_compute; split; intros ?; discriminate.
Defined.

(** ** Invariants of the reachable states *)

Lemma canonical_score_nonneg (vs : list Z) : 0 ≤ canonical_score vs.
Proof.
  assert (∀ v c, 1 ≤ v ≤ 6 → 0 ≤ canonical_group v c) as Hg.
  { intros v c Hv. unfold canonical_group, base_score.
    repeat case_decide; try lia;
      apply Z.mul_nonneg_nonneg; try lia; apply Z.pow_nonneg; lia. }
  unfold canonical_score. cbn [foldr].
  pose proof (Hg 1 (occurrences 1 vs)). pose proof (Hg 2 (occurrences 2 vs)).
  pose proof (Hg 3 (occurrences 3 vs)). pose proof (Hg 4 (occurrences 4 vs)).
  pose proof (Hg 5 (occurrences 5 vs)). pose proof (Hg 6 (occurrences 6 vs)). lia.
Qed.

Lemma flat_score_nonneg (vs : list Z) : 0 ≤ flat_score vs.
Proof.
  assert (∀ v c, 1 ≤ v ≤ 6 → 0 ≤ flat_group v c) as Hg.
  { intros v c Hv. unfold flat_group, base_score. repeat case_decide; nia. }
  unfold flat_score. cbn [foldr].
  pose proof (Hg 1 (occurrences 1 vs)). pose proof (Hg 2 (occurrences 2 vs)).
  pose proof (Hg 3 (occurrences 3 vs)). pose proof (Hg 4 (occurrences 4 vs)).
  pose proof (Hg 5 (occurrences 5 vs)). pose proof (Hg 6 (occurrences 6 vs)). lia.
Qed.

Lemma ts_toggleKeep_keep_nonneg (dieId : Z) (s : TS.Engine) :
  0 ≤ TS.currentKeepScore s → 0 ≤ TS.currentKeepScore (TS.toggleKeep dieId s).
Proof.
  intros H. unfold TS.toggleKeep.
  repeat case_match; try exact H; cbn [TS.currentKeepScore TS.recalcKeepScore];
    rewrite ts_evaluateScoring_flat; apply flat_score_nonneg.
Qed.

Lemma ts_roll_scores_nonneg (rnd : nat → Q) (s : TS.Engine) :
  0 ≤ TS.turnScore s → 0 ≤ TS.currentKeepScore s →
  0 ≤ TS.turnScore (TS.roll rnd s) ∧ 0 ≤ TS.currentKeepScore (TS.roll rnd s).
Proof.
  intros Ht Hk. pose proof (ts_roll_outcome rnd s) as Ho. cbv zeta in Ho.
  destruct (TS.hasScore _).
  - destruct Ho as [_ Ho]. destruct (decide (0 < _)%nat); destruct Ho as [-> ->]; lia.
  - destruct Ho as (_ & -> & ->). lia.
Qed.

Lemma ts_computerMove_nonneg (rnd : nat → Q) (s : TS.Engine) :
  ts_scores_nonneg s → ts_scores_nonneg (TS.computerMove rnd s).
Proof.
  unfold ts_scores_nonneg. intros (Ht & Hk & Hs).
  destruct (ts_roll_scores_nonneg rnd s Ht Hk) as [Ht' Hk'].
  pose proof (ts_roll_fixed rnd s) as [Hpl _].
  destruct (ts_computerMove_cases rnd s) as [->|[->|(ds & -> & _)]].
  - auto.
  - rewrite Hpl. auto.
  - cbn [TS.recalcKeepScore TS.with_dice TS.turnScore TS.currentKeepScore TS.players].
    rewrite Hpl. repeat split; try assumption.
    rewrite ts_evaluateScoring_flat. apply flat_score_nonneg.
Qed.

Lemma ts_reachable_nonneg (s : TS.Engine) : TS.reachable s → ts_scores_nonneg s.
Proof.
  induction 1 as [names rnd|rnd s _ IH|dieId s _ IH|rnd s s' _ IH Hb|rnd s s' _ IH Hp|rnd s _ IH].
  - unfold ts_scores_nonneg. cbn [TS.new_engine TS.turnScore TS.currentKeepScore TS.players].
    repeat split; try lia. apply imap_all. intros i x. cbn. lia.
  - destruct IH as (Ht & Hk & Hs). unfold ts_scores_nonneg.
    destruct (ts_roll_scores_nonneg rnd s Ht Hk) as [Ht' Hk'].
    destruct (ts_roll_fixed rnd s) as (-> & _). auto.
  - destruct IH as (Ht & Hk & Hs). unfold ts_scores_nonneg.
    destruct (ts_toggleKeep_frame dieId s) as (-> & _ & -> & _).
    auto using ts_toggleKeep_keep_nonneg.
  - destruct IH as (Ht & Hk & Hs).
    destruct (ts_bank_cases rnd s s' Hb) as [(-> & _)|(p & Hp & Hcases)];
      [unfold ts_scores_nonneg; auto|].
    assert (ts_scores_nonneg (TS.banked p s)) as (Ht1 & Hk1 & Hs1).
    { unfold ts_scores_nonneg. cbn [TS.banked TS.turnScore TS.currentKeepScore TS.players].
      repeat split; try lia.
      apply Forall_insert; [exact Hs|].
      rewrite Forall_lookup in Hs. specialize (Hs _ _ Hp). cbn in *. lia. }
    destruct Hcases as [[_ ->]|[_ Hpt]]; [unfold ts_scores_nonneg; auto|].
    unfold TS.passTurn in Hpt. case_match; [|discriminate]. injection Hpt as <-.
    unfold ts_scores_nonneg. cbn. repeat split; try lia. exact Hs1.
  - destruct IH as (Ht & Hk & Hs).
    unfold TS.passTurn in Hp. case_match; [|discriminate]. injection Hp as <-.
    unfold ts_scores_nonneg. cbn. repeat split; try lia. exact Hs.
  - apply ts_computerMove_nonneg, IH.
Qed.

Lemma cpp_roll_status_sound (rnd : nat → Z) (s : Cpp.Engine) :
  cpp_status_sound (Cpp.roll rnd s).
Proof.
  unfold cpp_status_sound. destruct (cpp_roll_status rnd s) as [-> | ->];
    split; discriminate.
Qed.

Lemma ts_roll_status (rnd : nat → Q) (s : TS.Engine) :
  TS.status (TS.roll rnd s) = Rolling ∨ TS.status (TS.roll rnd s) = Farkle.
Proof.
  pose proof (ts_roll_outcome rnd s) as Ho. cbv zeta in Ho.
  destruct (TS.hasScore _); [left|right]; apply Ho.
Qed.

Lemma ts_roll_status_sound (rnd : nat → Q) (s : TS.Engine) :
  ts_status_sound (TS.roll rnd s).
Proof.
  unfold ts_status_sound. destruct (ts_roll_status rnd s) as [-> | ->];
    split; discriminate.
Qed.

Lemma cpp_pass_turn_status_sound (rnd : nat → Z) (s s' : Cpp.Engine) :
  Cpp.pass_turn rnd s = Some s' → cpp_status_sound s'.
Proof.
  unfold Cpp.pass_turn. case_match; [discriminate|]. intros [= <-].
  apply cpp_roll_status_sound.
Qed.

Lemma ts_passTurn_status_sound (rnd : nat → Q) (s s' : TS.Engine) :
  TS.passTurn rnd s = Some s' → ts_status_sound s'.
Proof.
  intros H. apply ts_passTurn_rolling in H. unfold ts_status_sound. rewrite H.
  split; discriminate.
Qed.

Lemma cpp_reachable_status_sound (s : Cpp.Engine) : Cpp.reachable s → cpp_status_sound s.
Proof.
  induction 1 as [n rnd|rnd s _ IH|die_id s _ IH|rnd s s' _ IH Hb|rnd s s' _ IH Hp|s _ IH].
  - apply cpp_roll_status_sound.
  - apply cpp_roll_status_sound.
  - unfold cpp_status_sound.
    destruct (cpp_toggle_keep_frame die_id s) as (-> & -> & _ & ->). exact IH.
  - destruct (cpp_bank_cases rnd s s' Hb) as [(-> & _)|(total & Hp & [[Hw ->]|[_ Hpt]])].
    + exact IH.
    + split; [discriminate|]. intros _. eexists. split; [|exact Hw].
      cbn. apply list_lookup_insert_eq. apply lookup_lt_Some in Hp. exact Hp.
    + exact (cpp_pass_turn_status_sound rnd _ s' Hpt).
  - exact (cpp_pass_turn_status_sound rnd s s' Hp).
  - exact IH.
Qed.

Lemma ts_reachable_status_sound (s : TS.Engine) : TS.reachable s → ts_status_sound s.
Proof.
  induction 1 as [names rnd|rnd s _ IH|dieId s _ IH|rnd s s' _ IH Hb|rnd s s' _ IH Hp|rnd s _ IH].
  - split; [discriminate|]. cbn. discriminate.
  - apply ts_roll_status_sound.
  - unfold ts_status_sound.
    destruct (ts_toggleKeep_frame dieId s) as (-> & -> & _ & ->). exact IH.
  - destruct (ts_bank_cases rnd s s' Hb) as [(-> & _)|(p & Hp & [[Hw ->]|[_ Hpt]])].
    + exact IH.
    + split; [discriminate|]. intros _. eexists. split.
      * cbn. apply list_lookup_insert_eq. apply lookup_lt_Some in Hp. exact Hp.
      * cbn. exact Hw.
    + exact (ts_passTurn_status_sound rnd _ s' Hpt).
  - exact (ts_passTurn_status_sound rnd s s' Hp).
  - destruct (ts_computerMove_cases rnd s) as [->|[->|(ds & -> & _)]].
    + exact IH.
    + apply ts_roll_status_sound.
    + exact (ts_roll_status_sound rnd s).
Qed.

(** X8.  In every reachable state of either engine the status is Win only
    if the current player's total is at least 10000. *)
Theorem win_means_ten_thousand :
  (∀ s : Cpp.Engine, Cpp.reachable s → Cpp.status s = Win →
     ∃ total, Cpp.player_scores s !! Cpp.current_player_index s = Some total
              ∧ 10000 ≤ total)
  ∧ (∀ s : TS.Engine, TS.reachable s → TS.status s = Win →
       ∃ p, TS.players s !! TS.currentPlayerIndex s = Some p ∧ 10000 ≤ TS.score p).
Proof.
  split; intros s Hs.
  - apply (cpp_reachable_status_sound s Hs).
  - apply (ts_reachable_status_sound s Hs).
Qed.

(** X9.  The status Bust is declared and never produced: no reachable
    state of either engine has it. *)
Theorem status_never_bust :
  (∀ s : Cpp.Engine, Cpp.reachable s → Cpp.status s ≠ Bust)
  ∧ (∀ s : TS.Engine, TS.reachable s → TS.status s ≠ Bust).
Proof.
  split; intros s Hs.
  - apply (cpp_reachable_status_sound s Hs).
  - apply (ts_reachable_status_sound s Hs).
Qed.

Lemma status_never_bust_witness :
  Cpp.status cpp_second_cycle ≠ Bust ∧ TS.status ts_second_cycle ≠ Bust.
Proof.
  split.
  - apply (proj1 status_never_bust cpp_second_cycle).
    apply Cpp.reach_toggle_keep, Cpp.reach_roll, Cpp.reach_toggle_keep, Cpp.reach_new.
  - apply (proj2 status_never_bust ts_second_cycle).
    apply TS.reach_toggleKeep, TS.reach_roll, TS.reach_toggleKeep, TS.reach_roll,
      TS.reach_new.
Defined.

Lemma cpp_keep_all_reachable (s : Cpp.Engine) :
  Cpp.reachable s → Cpp.reachable (cpp_keep_all s).
Proof. intros Hs. unfold cpp_keep_all. repeat apply Cpp.reach_toggle_keep. exact Hs. Qed.

Lemma cpp_won_reachable :
  ∃ s, cpp_won = Some s ∧ Cpp.reachable s ∧ Cpp.status s = Win
       ∧ Cpp.player_scores s = [16000; 0].
Proof.
  unfold cpp_won.
  destruct (Cpp.bank (scripted [] 1) (cpp_keep_all (Cpp.new_engine 2 (scripted [] 1))))
    as [s1|] eqn:E1; [|vm_compute in E1; discriminate].
  assert (Cpp.reachable s1) as H1
    by (eapply Cpp.reach_bank; [apply cpp_keep_all_reachable, Cpp.reach_new|exact E1]).
  vm_compute in E1. injection E1 as <-. cbn [mbind option_bind].
  match goal with |- context [Cpp.pass_turn ?r ?s] =>
    destruct (Cpp.pass_turn r s) as [s2|] eqn:E2; [|vm_compute in E2; discriminate] end.
  assert (Cpp.reachable s2) as H2 by (eapply Cpp.reach_pass_turn; [exact H1|exact E2]).
  vm_compute in E2. injection E2 as <-. cbn [mbind option_bind].
  match goal with |- context [Cpp.bank ?r ?s] =>
    destruct (Cpp.bank r s) as [s3|] eqn:E3; [|vm_compute in E3; discriminate] end.
  assert (Cpp.reachable s3) as H3
    by (eapply Cpp.reach_bank; [apply cpp_keep_all_reachable, H2|exact E3]).
  vm_compute in E3. injection E3 as <-.
  eexists. split; [reflexivity|]. split; [exact H3|]. split; reflexivity.
Qed.

Lemma win_means_ten_thousand_witness :
  ∃ s total, cpp_won = Some s
    ∧ Cpp.player_scores s !! Cpp.current_player_index s = Some total ∧ 10000 ≤ total.
Proof.
  destruct cpp_won_reachable as (s & Hs & Hr & Hw & _).
  destruct (proj1 win_means_ten_thousand s Hr Hw) as (total & Ht & Hge).
  exists s, total. auto.
Defined.

(** ** The player index *)

Lemma nonempty_length {A : Type} (l : list A) : l ≠ [] → (0 < length l)%nat.
Proof. destruct l; [contradiction|cbn; lia]. Qed.

Lemma cpp_pass_turn_index (rnd : nat → Z) (s s' : Cpp.Engine) :
  Cpp.pass_turn rnd s = Some s' → cpp_index_in_range s'.
Proof.
  intros H. destruct (cpp_pass_turn_frame rnd s s' H) as (Hs & Hi & Hne).
  unfold cpp_index_in_range. rewrite Hs, Hi. intros _.
  apply Nat.mod_upper_bound. apply nonempty_length in Hne. lia.
Qed.

Lemma ts_passTurn_index (rnd : nat → Q) (s s' : TS.Engine) :
  TS.passTurn rnd s = Some s' → ts_index_in_range s'.
Proof.
  intros H. destruct (ts_passTurn_frame rnd s s' H) as (Hs & Hi & Hne).
  unfold ts_index_in_range. rewrite Hs, Hi. intros _.
  apply Nat.mod_upper_bound. apply nonempty_length in Hne. lia.
Qed.

Lemma cpp_reachable_index (s : Cpp.Engine) : Cpp.reachable s → cpp_index_in_range s.
Proof.
  induction 1 as [n rnd|rnd s _ IH|die_id s _ IH|rnd s s' _ IH Hb|rnd s s' _ IH Hp|s _ IH].
  - unfold cpp_index_in_range, Cpp.new_engine. fold (Cpp.fresh n).
    destruct (cpp_roll_fixed rnd (Cpp.fresh n)) as (-> & -> & _).
    intros Hne. apply nonempty_length in Hne. exact Hne.
  - unfold cpp_index_in_range. destruct (cpp_roll_fixed rnd s) as (-> & -> & _). exact IH.
  - unfold cpp_index_in_range.
    destruct (cpp_toggle_keep_frame die_id s) as (-> & -> & _). exact IH.
  - destruct (cpp_bank_cases rnd s s' Hb) as [(-> & _)|(total & Hp & [[_ ->]|[_ Hpt]])].
    + exact IH.
    + unfold cpp_index_in_range. cbn. rewrite length_insert. intros _.
      apply lookup_lt_Some in Hp. exact Hp.
    + exact (cpp_pass_turn_index rnd _ s' Hpt).
  - exact (cpp_pass_turn_index rnd s s' Hp).
  - exact IH.
Qed.

Lemma ts_reachable_index (s : TS.Engine) : TS.reachable s → ts_index_in_range s.
Proof.
  induction 1 as [names rnd|rnd s _ IH|dieId s _ IH|rnd s s' _ IH Hb|rnd s s' _ IH Hp|rnd s _ IH].
  - unfold ts_index_in_range. cbn [TS.new_engine TS.players TS.currentPlayerIndex].
    intros Hne. apply nonempty_length in Hne. exact Hne.
  - unfold ts_index_in_range. destruct (ts_roll_fixed rnd s) as (-> & ->). exact IH.
  - unfold ts_index_in_range.
    destruct (ts_toggleKeep_frame dieId s) as (-> & -> & _). exact IH.
  - destruct (ts_bank_cases rnd s s' Hb) as [(-> & _)|(p & Hp & [[_ ->]|[_ Hpt]])].
    + exact IH.
    + unfold ts_index_in_range. cbn. rewrite length_insert. intros _.
      apply lookup_lt_Some in Hp. exact Hp.
    + exact (ts_passTurn_index rnd _ s' Hpt).
  - exact (ts_passTurn_index rnd s s' Hp).
  - unfold ts_index_in_range.
    destruct (ts_computerMove_cases rnd s) as [->|[->|(ds & -> & _)]].
    + exact IH.
    + destruct (ts_roll_fixed rnd s) as (-> & ->). exact IH.
    + cbn [TS.recalcKeepScore TS.with_dice TS.players TS.currentPlayerIndex].
      destruct (ts_roll_fixed rnd s) as (-> & ->). exact IH.
Qed.

(** X10.  In a game with at least one player the index of the current
    player always names a player, and [bank] and [passTurn] never end in
    the error of a missing player: both return a state, from every
    reachable state and for every outcome of the source.  Both engines. *)
Theorem bank_and_pass_turn_succeed :
  (∀ (s : Cpp.Engine) (rnd : nat → Z),
     Cpp.reachable s → Cpp.player_scores s ≠ [] →
     (Cpp.current_player_index s < length (Cpp.player_scores s))%nat
     ∧ is_Some (Cpp.bank rnd s) ∧ is_Some (Cpp.pass_turn rnd s))
  ∧ (∀ (s : TS.Engine) (rnd : nat → Q),
       TS.reachable s → TS.players s ≠ [] →
       (TS.currentPlayerIndex s < length (TS.players s))%nat
       ∧ is_Some (TS.bank rnd s) ∧ is_Some (TS.passTurn rnd s)).
Proof.
  split.
  - intros s rnd Hs Hne. pose proof (cpp_reachable_index s Hs Hne) as Hi.
    assert (∀ s0, Cpp.player_scores s0 ≠ [] → is_Some (Cpp.pass_turn rnd s0)) as Hpass.
    { intros s0 H0. unfold Cpp.pass_turn. rewrite decide_False; [eauto|].
      apply nonempty_length in H0. lia. }
    split; [exact Hi|]. split; [|apply Hpass, Hne].
    destruct (lookup_lt_is_Some_2 _ _ Hi) as [total Hp].
    destruct (decide (Cpp.current_keep_score s = 0 ∧ Cpp.turn_score s = 0)) as [Hz|Hz].
    + unfold Cpp.bank. rewrite decide_True by exact Hz. eauto.
    + rewrite (cpp_bank_commits rnd s total Hp Hz).
      destruct (decide (10000 ≤ _)); [eauto|]. apply Hpass. cbn.
      intros E. apply (f_equal length) in E. rewrite length_insert in E.
      apply nonempty_length in Hne. cbn in E. lia.
  - intros s rnd Hs Hne. pose proof (ts_reachable_index s Hs Hne) as Hi.
    assert (∀ s0, TS.players s0 ≠ [] → is_Some (TS.passTurn rnd s0)) as Hpass.
    { intros s0 H0. unfold TS.passTurn. apply nonempty_length in H0.
      destruct (lookup_lt_is_Some_2 (TS.players s0)
                  ((TS.currentPlayerIndex s0 + 1) mod length (TS.players s0))%nat)
        as [p Hp]; [apply Nat.mod_upper_bound; lia|].
      rewrite Hp. eauto. }
    split; [exact Hi|]. split; [|apply Hpass, Hne].
    destruct (lookup_lt_is_Some_2 _ _ Hi) as [p Hp].
    destruct (decide (TS.currentKeepScore s = 0 ∧ TS.turnScore s = 0)) as [Hz|Hz].
    + unfold TS.bank. rewrite decide_True by exact Hz. eauto.
    + rewrite (ts_bank_commits rnd s p Hp Hz).
      destruct (decide (10000 ≤ _)); [eauto|]. apply Hpass. cbn.
      intros E. apply (f_equal length) in E. rewrite length_insert in E.
      apply nonempty_length in Hne. cbn in E. lia.
Qed.

Lemma bank_and_pass_turn_succeed_witness :
  is_Some (Cpp.bank (scripted [] 1) cpp_second_cycle)
  ∧ is_Some (TS.passTurn ts_dud ts_second_cycle).
Proof.
  split.
  - apply (proj1 bank_and_pass_turn_succeed cpp_second_cycle (scripted [] 1)).
    + apply Cpp.reach_toggle_keep, Cpp.reach_roll, Cpp.reach_toggle_keep, Cpp.reach_new.
    + vm_compute. discriminate.
  - apply (proj2 bank_and_pass_turn_succeed ts_second_cycle ts_dud).
    + apply TS.reach_toggleKeep, TS.reach_roll, TS.reach_toggleKeep, TS.reach_roll,
        TS.reach_new.
    + vm_compute. discriminate.
Defined.

(** Without a player both engines fail as soon as a player is needed. *)
Example no_player_no_turn :
  Cpp.pass_turn (scripted [] 1) (Cpp.new_engine 0 (scripted [] 1)) = None
  ∧ TS.passTurn ts_dud (TS.new_engine [] ts_dud) = None.
Proof. split; reflexivity. Qed.

(** ** The evaluators as functions of the multiset of faces *)

Lemma occurrences_perm (v : Z) (vs vs' : list Z) :
  vs ≡ₚ vs' → occurrences v vs = occurrences v vs'.
Proof.
  intros H. induction H as [|x l l' _ IH|x y l|l l' l'' _ IH1 _ IH2].
  - reflexivity.
  - rewrite !occurrences_cons, IH. reflexivity.
  - rewrite !occurrences_cons. lia.
  - congruence.
Qed.

Lemma canonical_score_counts (vs vs' : list Z) :
  (∀ v, 1 ≤ v ≤ 6 → occurrences v vs = occurrences v vs') →
  canonical_score vs = canonical_score vs'.
Proof.
  intros H. unfold canonical_score. cbn [foldr].
  rewrite (H 1), (H 2), (H 3), (H 4), (H 5), (H 6) by lia. reflexivity.
Qed.

Lemma flat_score_counts (vs vs' : list Z) :
  (∀ v, 1 ≤ v ≤ 6 → occurrences v vs = occurrences v vs') →
  flat_score vs = flat_score vs'.
Proof.
  intros H. unfold flat_score. cbn [foldr].
  rewrite (H 1), (H 2), (H 3), (H 4), (H 5), (H 6) by lia. reflexivity.
Qed.

Lemma occurrences_filter_faces (v : Z) (vs : list Z) :
  1 ≤ v ≤ 6 → occurrences v (filter (λ x, 1 ≤ x ≤ 6) vs) = occurrences v vs.
Proof.
  intros Hv. induction vs as [|x vs IH]; [reflexivity|].
  rewrite filter_cons. destruct (decide (1 ≤ x ≤ 6)).
  - rewrite !occurrences_cons, IH. reflexivity.
  - rewrite occurrences_cons, IH. rewrite decide_False by lia. reflexivity.
Qed.

(** X11.  The score depends on the number of dice of each face 1..6 and
    on nothing else: reordering the dice, or adding and removing dice whose
    face lies outside 1..6, leaves the score of either evaluator unchanged;
    the TypeScript evaluator reads only the faces of the dice it is given,
    not their ids or states. *)
Theorem score_depends_on_face_counts :
  (∀ vs vs' : list Z,
     (∀ v, 1 ≤ v ≤ 6 → occurrences v vs = occurrences v vs') →
     Cpp.evaluate_scoring vs = Cpp.evaluate_scoring vs')
  ∧ (∀ vs vs' : list Z, vs ≡ₚ vs' → Cpp.evaluate_scoring vs = Cpp.evaluate_scoring vs')
  ∧ (∀ vs : list Z,
       Cpp.evaluate_scoring (filter (λ x, 1 ≤ x ≤ 6) vs) = Cpp.evaluate_scoring vs)
  ∧ (∀ dice dice' : list Die,
       (∀ v, 1 ≤ v ≤ 6 →
             occurrences v (value <$> dice) = occurrences v (value <$> dice')) →
       TS.evaluateScoring dice = TS.evaluateScoring dice')
  ∧ (∀ dice dice' : list Die,
       value <$> dice ≡ₚ value <$> dice' →
       TS.evaluateScoring dice = TS.evaluateScoring dice')
  ∧ (∀ dice : list Die,
       TS.evaluateScoring (filter (λ d, 1 ≤ value d ≤ 6) dice) = TS.evaluateScoring dice).
Proof.
  split; [|split; [|split; [|split; [|split]]]].
  - exact cpp_evaluate_scoring_counts.
  - intros vs vs' H. apply cpp_evaluate_scoring_counts.
    intros v _. apply occurrences_perm, H.
  - intros vs. apply cpp_evaluate_scoring_counts.
    intros v Hv. apply occurrences_filter_faces, Hv.
  - intros dice dice' H. rewrite !ts_evaluateScoring_flat.
    apply flat_score_counts, H.
  - intros dice dice' H. rewrite !ts_evaluateScoring_flat.
    apply flat_score_counts. intros v _. apply occurrences_perm, H.
  - intros dice. rewrite !ts_evaluateScoring_flat.
    apply flat_score_counts. intros v Hv.
    rewrite <- (occurrences_filter_faces v (value <$> dice) Hv).
    f_equal. induction dice as [|d dice IH]; [reflexivity|].
    rewrite fmap_cons, !filter_cons.
    destruct (decide (1 ≤ value d ≤ 6)); rewrite ?fmap_cons, IH; reflexivity.
Qed.

Lemma score_depends_on_face_counts_witness :
  Cpp.evaluate_scoring [1; 5; 1; 2; 1] = Cpp.evaluate_scoring [1; 1; 1; 5; 2].
Proof.
  apply (proj1 (proj2 score_depends_on_face_counts)).
  apply perm_skip.
  eapply perm_trans; [apply perm_swap|]. apply perm_skip.
  eapply perm_trans; [apply perm_skip, perm_swap|]. apply perm_swap.
Defined.

(** ** Bounds on a score *)

Lemma occurrences_faces_le_length (vs : list Z) :
  (occurrences 1 vs + occurrences 2 vs + occurrences 3 vs
   + occurrences 4 vs + occurrences 5 vs + occurrences 6 vs ≤ length vs)%nat.
Proof.
  induction vs as [|x vs IH]; [cbn; lia|].
  rewrite !occurrences_cons. cbn [length]. repeat case_decide; lia.
Qed.

Lemma canonical_group_le_ones (v : Z) (c : nat) :
  1 ≤ v ≤ 6 → canonical_group v c ≤ canonical_group 1 c.
Proof.
  intros Hv. unfold canonical_group, base_score.
  repeat case_decide; try lia.
  assert (0 ≤ 2 ^ (Z.of_nat c - 3)) by (apply Z.pow_nonneg; lia). nia.
Qed.

Lemma flat_group_le_ones (v : Z) (c : nat) :
  1 ≤ v ≤ 6 → flat_group v c ≤ flat_group 1 c.
Proof.
  intros Hv. unfold flat_group, base_score. repeat case_decide; try lia; nia.
Qed.

Lemma canonical_ones_superadditive (a b : nat) :
  (a + b ≤ 6)%nat →
  canonical_group 1 a + canonical_group 1 b ≤ canonical_group 1 (a + b).
Proof.
  intros H.
  destruct a as [|[|[|[|[|[|[|a]]]]]]]; try lia;
    destruct b as [|[|[|[|[|[|[|b]]]]]]]; try lia;
    vm_compute; discriminate.
Qed.

Lemma flat_ones_superadditive (a b : nat) :
  (a + b ≤ 6)%nat → flat_group 1 a + flat_group 1 b ≤ flat_group 1 (a + b).
Proof.
  intros H.
  destruct a as [|[|[|[|[|[|[|a]]]]]]]; try lia;
    destruct b as [|[|[|[|[|[|[|b]]]]]]]; try lia;
    vm_compute; discriminate.
Qed.

Lemma ones_bound (c : nat) :
  (c ≤ 6)%nat → canonical_group 1 c ≤ 8000 ∧ flat_group 1 c ≤ 2000.
Proof.
  intros H. destruct c as [|[|[|[|[|[|[|c]]]]]]]; try lia;
    vm_compute; split; discriminate.
Qed.

Lemma cpp_evaluate_scoring_bound (vs : list Z) :
  (length vs ≤ 6)%nat → 0 ≤ Cpp.evaluate_scoring vs ≤ 8000.
Proof.
  intros Hlen. rewrite cpp_evaluate_scoring_canonical by exact Hlen.
  split; [apply canonical_score_nonneg|].
  pose proof (occurrences_faces_le_length vs) as Hocc.
  unfold canonical_score. cbn [foldr].
  set (c1 := occurrences 1 vs) in *. set (c2 := occurrences 2 vs) in *.
  set (c3 := occurrences 3 vs) in *. set (c4 := occurrences 4 vs) in *.
  set (c5 := occurrences 5 vs) in *. set (c6 := occurrences 6 vs) in *.
  pose proof (canonical_group_le_ones 2 c2). pose proof (canonical_group_le_ones 3 c3).
  pose proof (canonical_group_le_ones 4 c4). pose proof (canonical_group_le_ones 5 c5).
  pose proof (canonical_group_le_ones 6 c6).
  pose proof (canonical_ones_superadditive c1 c2).
  pose proof (canonical_ones_superadditive (c1 + c2) c3).
  pose proof (canonical_ones_superadditive (c1 + c2 + c3) c4).
  pose proof (canonical_ones_superadditive (c1 + c2 + c3 + c4) c5).
  pose proof (canonical_ones_superadditive (c1 + c2 + c3 + c4 + c5) c6).
  destruct (ones_bound (c1 + c2 + c3 + c4 + c5 + c6)) as [Hb _]; lia.
Qed.

(** X12.  A selection of at most six dice scores between 0 and 8000 in the
    C++ evaluator and between 0 and 2000 in the TypeScript evaluator; six
    ones reach these bounds.  The scores stay far inside [int]. *)
Theorem score_of_six_dice_bounded :
  (∀ vs : list Z, (length vs ≤ 6)%nat → 0 ≤ Cpp.evaluate_scoring vs ≤ 8000)
  ∧ Cpp.evaluate_scoring [1; 1; 1; 1; 1; 1] = 8000
  ∧ (∀ dice : list Die, (length dice ≤ 6)%nat → 0 ≤ TS.evaluateScoring dice ≤ 2000)
  ∧ TS.evaluateScoring (dice_of Kept [1; 1; 1; 1; 1; 1]) = 2000.
Proof.
  split; [|split; [vm_compute; reflexivity|split; [|vm_compute; reflexivity]]].
  - exact cpp_evaluate_scoring_bound.
  - intros dice Hlen. rewrite ts_evaluateScoring_flat.
    split; [apply flat_score_nonneg|].
    pose proof (occurrences_faces_le_length (value <$> dice)) as Hocc.
    rewrite length_fmap in Hocc.
    unfold flat_score. cbn [foldr].
    set (c1 := occurrences 1 _) in *. set (c2 := occurrences 2 _) in *.
    set (c3 := occurrences 3 _) in *. set (c4 := occurrences 4 _) in *.
    set (c5 := occurrences 5 _) in *. set (c6 := occurrences 6 _) in *.
    pose proof (flat_group_le_ones 2 c2). pose proof (flat_group_le_ones 3 c3).
    pose proof (flat_group_le_ones 4 c4). pose proof (flat_group_le_ones 5 c5).
    pose proof (flat_group_le_ones 6 c6).
    pose proof (flat_ones_superadditive c1 c2).
    pose proof (flat_ones_superadditive (c1 + c2) c3).
    pose proof (flat_ones_superadditive (c1 + c2 + c3) c4).
    pose proof (flat_ones_superadditive (c1 + c2 + c3 + c4) c5).
    pose proof (flat_ones_superadditive (c1 + c2 + c3 + c4 + c5) c6).
    destruct (ones_bound (c1 + c2 + c3 + c4 + c5 + c6)) as [_ Hb]; lia.
Qed.

Lemma score_of_six_dice_bounded_witness :
  0 ≤ Cpp.evaluate_scoring [6; 6; 6; 6; 5; 1] ≤ 8000.
Proof.
  apply (proj1 score_of_six_dice_bounded [6; 6; 6; 6; 5; 1]). cbn. lia.
Defined.

(** ** Scores below zero *)

Lemma values_in_length (st : DieState) (ds : list Die) :
  (length (values_in st ds) ≤ length ds)%nat.
Proof. unfold values_in. rewrite length_fmap. apply length_filter. Qed.

Lemma cpp_reachable_keep_bound (s : Cpp.Engine) :
  Cpp.reachable s → 0 ≤ Cpp.current_keep_score s ≤ 8000.
Proof.
  intros Hs. rewrite (cpp_reachable_sync s Hs). apply cpp_evaluate_scoring_bound.
  pose proof (values_in_length Kept (Cpp.dice s)) as Hlen.
  rewrite (pool_ids_length _ (cpp_reachable_ids s Hs)) in Hlen. exact Hlen.
Qed.

Lemma cpp_roll_scores_nonneg (rnd : nat → Z) (s : Cpp.Engine) :
  0 ≤ Cpp.turn_score s → 0 ≤ Cpp.current_keep_score s →
  Cpp.turn_score s + Cpp.current_keep_score s ≤ Cpp.INT_MAX →
  Forall (λ total, 0 ≤ total) (Cpp.player_scores s) →
  cpp_scores_nonneg (Cpp.roll rnd s).
Proof.
  intros Ht Hk Hmax Hs. unfold cpp_scores_nonneg.
  pose proof (cpp_roll_outcome rnd s) as Ho. cbv zeta in Ho.
  destruct (cpp_roll_fixed rnd s) as (-> & _ & _ & ->).
  rewrite add_exact in Ho by (unfold Cpp.INT_MIN; lia).
  destruct (Cpp.has_scoring_potential _); destruct Ho as [_ ->];
    repeat split; try assumption; lia.
Qed.

Lemma cpp_pass_turn_scores_nonneg (rnd : nat → Z) (s s' : Cpp.Engine) :
  Forall (λ total, 0 ≤ total) (Cpp.player_scores s) →
  Cpp.pass_turn rnd s = Some s' → cpp_scores_nonneg s'.
Proof.
  intros Hs Hp. unfold Cpp.pass_turn in Hp. case_match; [discriminate|].
  injection Hp as <-.
  apply cpp_roll_scores_nonneg; cbn; first [lia | exact Hs | idtac].
  unfold Cpp.INT_MAX. lia.
Qed.

(** X7.  In every reachable state of the TypeScript engine the turn
    score, the keep score and every player's total are at least 0, and a
    successful [bank] lowers no total.  In every reachable state of the
    C++ engine the keep score lies between 0 and 8000.  The turn score and
    the totals of the C++ engine are sums of [int]: from a reachable state
    whose turn score and totals are at least 0, and whose pot and current
    total with the pot stay within [int], every operation leads to a state
    whose scores are at least 0, and [bank] lowers no total. *)
Theorem scores_never_negative :
  (∀ s : Cpp.Engine, Cpp.reachable s → 0 ≤ Cpp.current_keep_score s ≤ 8000)
  ∧ (∀ (rnd : nat → Z) (die_id : Z) (s : Cpp.Engine),
       Cpp.reachable s →
       0 ≤ Cpp.turn_score s →
       Forall (λ total, 0 ≤ total) (Cpp.player_scores s) →
       Cpp.turn_score s + Cpp.current_keep_score s ≤ Cpp.INT_MAX →
       (∀ total, Cpp.player_scores s !! Cpp.current_player_index s = Some total →
                 total + (Cpp.turn_score s + Cpp.current_keep_score s) ≤ Cpp.INT_MAX) →
       cpp_scores_nonneg (Cpp.roll rnd s)
       ∧ cpp_scores_nonneg (Cpp.toggle_keep die_id s)
       ∧ (∀ s', Cpp.pass_turn rnd s = Some s' → cpp_scores_nonneg s')
       ∧ (∀ s', Cpp.bank rnd s = Some s' →
            cpp_scores_nonneg s'
            ∧ ∀ j x, Cpp.player_scores s !! j = Some x →
                ∃ y, Cpp.player_scores s' !! j = Some y ∧ x ≤ y))
  ∧ (∀ s : TS.Engine, TS.reachable s →
       0 ≤ TS.turnScore s ∧ 0 ≤ TS.currentKeepScore s
       ∧ Forall (λ p, 0 ≤ TS.score p) (TS.players s)
       ∧ ∀ rnd s' j p, TS.bank rnd s = Some s' → TS.players s !! j = Some p →
           ∃ p', TS.players s' !! j = Some p' ∧ TS.score p ≤ TS.score p').
Proof.
  split; [exact cpp_reachable_keep_bound|split].
  - intros rnd die_id s Hs Ht Hsc Hpot Htot.
    pose proof (cpp_reachable_keep_bound s Hs) as Hk.
    split; [apply cpp_roll_scores_nonneg; first [assumption | lia]|].
    split.
    { unfold cpp_scores_nonneg.
      pose proof (cpp_reachable_keep_bound _ (Cpp.reach_toggle_keep die_id s Hs)) as Hk'.
      destruct (cpp_toggle_keep_frame die_id s) as (-> & _ & -> & _).
      repeat split; first [assumption | lia]. }
    split; [intros s' Hp; exact (cpp_pass_turn_scores_nonneg rnd s s' Hsc Hp)|].
    intros s' Hb.
    destruct (cpp_bank_cases rnd s s' Hb) as [(-> & _)|(total & Hp & Hcases)].
    { split; [unfold cpp_scores_nonneg; repeat split; first [assumption | lia]|].
      intros j x Hj. exists x. split; [exact Hj|lia]. }
    specialize (Htot total Hp).
    assert (0 ≤ total) as Htotal.
    { rewrite Forall_lookup in Hsc. exact (Hsc _ _ Hp). }
    assert (Cpp.add (Cpp.turn_score s) (Cpp.current_keep_score s)
            = Cpp.turn_score s + Cpp.current_keep_score s) as Epot
      by (apply add_exact; unfold Cpp.INT_MIN; lia).
    assert (Cpp.add total (Cpp.add (Cpp.turn_score s) (Cpp.current_keep_score s))
            = total + (Cpp.turn_score s + Cpp.current_keep_score s)) as Etot
      by (rewrite Epot; apply add_exact; unfold Cpp.INT_MIN; lia).
    assert (cpp_scores_nonneg (Cpp.banked total s)) as (Ht1 & Hk1 & Hs1).
    { unfold cpp_scores_nonneg. cbn [Cpp.banked Cpp.turn_score Cpp.current_keep_score
        Cpp.player_scores]. rewrite Etot, Epot. repeat split; try lia.
      apply Forall_insert; [exact Hsc|]. cbn. lia. }
    assert (Cpp.player_scores s' = Cpp.player_scores (Cpp.banked total s)) as Hps.
    { destruct Hcases as [[_ ->]|[_ Hpt]]; [reflexivity|].
      apply (cpp_pass_turn_frame rnd _ s' Hpt). }
    split.
    + destruct Hcases as [[_ ->]|[_ Hpt]].
      * unfold cpp_scores_nonneg. cbn [Cpp.with_status Cpp.turn_score
          Cpp.current_keep_score Cpp.player_scores]. auto.
      * exact (cpp_pass_turn_scores_nonneg rnd _ s' Hs1 Hpt).
    + intros j x Hj. rewrite Hps. cbn [Cpp.banked Cpp.player_scores]. rewrite Etot.
      destruct (decide (j = Cpp.current_player_index s)) as [->|Hne].
      * rewrite list_lookup_insert_eq by (apply lookup_lt_Some in Hp; exact Hp).
        eexists. split; [reflexivity|]. rewrite Hp in Hj. injection Hj as <-. lia.
      * rewrite list_lookup_insert_ne by congruence. exists x. split; [exact Hj|lia].
  - intros s Hs. destruct (ts_reachable_nonneg s Hs) as (Ht & Hk & Hsc).
    repeat split; try assumption.
    intros rnd s' j p0 Hb Hj.
    destruct (ts_bank_cases rnd s s' Hb) as [(-> & _)|(p & Hp & Hcases)].
    { exists p0. split; [exact Hj|lia]. }
    assert (TS.players s' = TS.players (TS.banked p s)) as ->.
    { destruct Hcases as [[_ ->]|[_ Hpt]]; [reflexivity|].
      apply (ts_passTurn_frame rnd _ s' Hpt). }
    cbn [TS.banked TS.players].
    destruct (decide (j = TS.currentPlayerIndex s)) as [->|Hne].
    + rewrite list_lookup_insert_eq by (apply lookup_lt_Some in Hp; exact Hp).
      eexists. split; [reflexivity|]. rewrite Hp in Hj. injection Hj as <-. cbn. lia.
    + rewrite list_lookup_insert_ne by congruence. exists p0. split; [exact Hj|lia].
Qed.

Lemma scores_never_negative_witness :
  0 ≤ Cpp.current_keep_score cpp_second_cycle ≤ 8000
  ∧ cpp_scores_nonneg (Cpp.roll (scripted [] 1) cpp_second_cycle)
  ∧ 0 ≤ TS.turnScore ts_second_cycle.
Proof.
  assert (Cpp.reachable cpp_second_cycle) as Hr
    by apply Cpp.reach_toggle_keep, Cpp.reach_roll, Cpp.reach_toggle_keep, Cpp.reach_new.
  split; [|split].
  - apply (proj1 scores_never_negative cpp_second_cycle Hr).
  - refine (proj1 (proj1 (proj2 scores_never_negative) (scripted [] 1) 0
                     cpp_second_cycle Hr _ _ _ _)).
    + vm_compute. discriminate.
    + vm_compute. repeat constructor; discriminate.
    + vm_compute. discriminate.
    + intros total Htotal. vm_compute in Htotal. injection Htotal as <-.
      vm_compute. discriminate.
  - apply (proj2 (proj2 scores_never_negative) ts_second_cycle).
    apply TS.reach_toggleKeep, TS.reach_roll, TS.reach_toggleKeep, TS.reach_roll,
      TS.reach_new.
Defined.
(** ** The Farkle check against the evaluator *)

Lemma canonical_group_zero (v : Z) (c : nat) :
  1 ≤ v ≤ 6 →
  (canonical_group v c = 0
   ↔ if decide (v = 1 ∨ v = 5) then c = 0%nat else (c < 3)%nat).
Proof.
  intros Hv. unfold canonical_group, base_score.
  assert (0 < 2 ^ (Z.of_nat c - 3) ∨ (c < 3)%nat) as Hpow.
  { destruct (decide (c < 3)%nat); [right; assumption|left].
    apply Z.pow_pos_nonneg; lia. }
  repeat case_decide; split; intros; try lia; try nia.
Qed.

Lemma flat_group_zero (v : Z) (c : nat) :
  1 ≤ v ≤ 6 →
  (flat_group v c = 0
   ↔ if decide (v = 1 ∨ v = 5) then c = 0%nat else (c < 3)%nat).
Proof.
  intros Hv. unfold flat_group, base_score.
  pose proof (Nat.div_mod_eq c 3) as Hdm.
  pose proof (Nat.mod_upper_bound c 3 ltac:(lia)) as Hm.
  assert (0 ≤ Z.of_nat (c / 3)) by lia. assert (0 ≤ Z.of_nat (c mod 3)) by lia.
  repeat case_decide; split; intros; try lia; try nia.
Qed.

Lemma occurrences_outside (v : Z) (vs : list Z) :
  Forall (λ x, 1 ≤ x ≤ 6) vs → ¬ (1 ≤ v ≤ 6) → occurrences v vs = 0%nat.
Proof.
  intros Hall Hv. apply occurrences_zero. intros Hin.
  rewrite Forall_forall in Hall. apply Hv, Hall, Hin.
Qed.

Lemma no_potential_faces (vs : list Z) :
  Forall (λ x, 1 ≤ x ≤ 6) vs →
  (no_potential vs
   ↔ occurrences 1 vs = 0%nat ∧ occurrences 5 vs = 0%nat
     ∧ (occurrences 2 vs < 3)%nat ∧ (occurrences 3 vs < 3)%nat
     ∧ (occurrences 4 vs < 3)%nat ∧ (occurrences 6 vs < 3)%nat).
Proof.
  intros Hall. unfold no_potential. rewrite <- !occurrences_zero. split.
  - intros (H1 & H5 & H). repeat split; try assumption; apply H.
  - intros (H1 & H5 & H2 & H3 & H4 & H6). repeat split; try assumption.
    intros v. destruct (decide (1 ≤ v ≤ 6)) as [Hv|Hv].
    + assert (v = 1 ∨ v = 2 ∨ v = 3 ∨ v = 4 ∨ v = 5 ∨ v = 6) as Hc by lia.
      destruct Hc as [->|[->|[->|[->|[->| ->]]]]]; lia.
    + rewrite (occurrences_outside v vs Hall Hv). lia.
Qed.

Lemma canonical_score_zero (vs : list Z) :
  Forall (λ x, 1 ≤ x ≤ 6) vs → (canonical_score vs = 0 ↔ no_potential vs).
Proof.
  intros Hall. rewrite (no_potential_faces vs Hall).
  assert (∀ v c, 1 ≤ v ≤ 6 → 0 ≤ canonical_group v c) as Hg.
  { intros v c Hv. unfold canonical_group, base_score.
    repeat case_decide; try lia;
      apply Z.mul_nonneg_nonneg; try lia; apply Z.pow_nonneg; lia. }
  unfold canonical_score. cbn [foldr].
  pose proof (Hg 1 (occurrences 1 vs)) as G1. pose proof (Hg 2 (occurrences 2 vs)) as G2.
  pose proof (Hg 3 (occurrences 3 vs)) as G3. pose proof (Hg 4 (occurrences 4 vs)) as G4.
  pose proof (Hg 5 (occurrences 5 vs)) as G5. pose proof (Hg 6 (occurrences 6 vs)) as G6.
  pose proof (canonical_group_zero 1 (occurrences 1 vs)) as Z1.
  pose proof (canonical_group_zero 2 (occurrences 2 vs)) as Z2.
  pose proof (canonical_group_zero 3 (occurrences 3 vs)) as Z3.
  pose proof (canonical_group_zero 4 (occurrences 4 vs)) as Z4.
  pose proof (canonical_group_zero 5 (occurrences 5 vs)) as Z5.
  pose proof (canonical_group_zero 6 (occurrences 6 vs)) as Z6.
  cbn in Z1, Z2, Z3, Z4, Z5, Z6.
  split.
  - intros Hsum.
    assert (canonical_group 1 (occurrences 1 vs) = 0) by lia.
    assert (canonical_group 2 (occurrences 2 vs) = 0) by lia.
    assert (canonical_group 3 (occurrences 3 vs) = 0) by lia.
    assert (canonical_group 4 (occurrences 4 vs) = 0) by lia.
    assert (canonical_group 5 (occurrences 5 vs) = 0) by lia.
    assert (canonical_group 6 (occurrences 6 vs) = 0) by lia.
    repeat split; first [apply Z1|apply Z2|apply Z3|apply Z4|apply Z5|apply Z6];
      (lia || assumption).
  - intros (H1 & H5 & H2 & H3 & H4 & H6).
    rewrite (proj2 (Z1 ltac:(lia)) H1), (proj2 (Z2 ltac:(lia)) H2),
      (proj2 (Z3 ltac:(lia)) H3), (proj2 (Z4 ltac:(lia)) H4),
      (proj2 (Z5 ltac:(lia)) H5), (proj2 (Z6 ltac:(lia)) H6). reflexivity.
Qed.

Lemma flat_score_zero (vs : list Z) :
  Forall (λ x, 1 ≤ x ≤ 6) vs → (flat_score vs = 0 ↔ no_potential vs).
Proof.
  intros Hall. rewrite (no_potential_faces vs Hall).
  assert (∀ v c, 1 ≤ v ≤ 6 → 0 ≤ flat_group v c) as Hg.
  { intros v c Hv. unfold flat_group, base_score. repeat case_decide; nia. }
  unfold flat_score. cbn [foldr].
  pose proof (Hg 1 (occurrences 1 vs)) as G1. pose proof (Hg 2 (occurrences 2 vs)) as G2.
  pose proof (Hg 3 (occurrences 3 vs)) as G3. pose proof (Hg 4 (occurrences 4 vs)) as G4.
  pose proof (Hg 5 (occurrences 5 vs)) as G5. pose proof (Hg 6 (occurrences 6 vs)) as G6.
  pose proof (flat_group_zero 1 (occurrences 1 vs)) as Z1.
  pose proof (flat_group_zero 2 (occurrences 2 vs)) as Z2.
  pose proof (flat_group_zero 3 (occurrences 3 vs)) as Z3.
  pose proof (flat_group_zero 4 (occurrences 4 vs)) as Z4.
  pose proof (flat_group_zero 5 (occurrences 5 vs)) as Z5.
  pose proof (flat_group_zero 6 (occurrences 6 vs)) as Z6.
  cbn in Z1, Z2, Z3, Z4, Z5, Z6.
  split.
  - intros Hsum.
    assert (flat_group 1 (occurrences 1 vs) = 0) by lia.
    assert (flat_group 2 (occurrences 2 vs) = 0) by lia.
    assert (flat_group 3 (occurrences 3 vs) = 0) by lia.
    assert (flat_group 4 (occurrences 4 vs) = 0) by lia.
    assert (flat_group 5 (occurrences 5 vs) = 0) by lia.
    assert (flat_group 6 (occurrences 6 vs) = 0) by lia.
    repeat split; first [apply Z1|apply Z2|apply Z3|apply Z4|apply Z5|apply Z6];
      (lia || assumption).
  - intros (H1 & H5 & H2 & H3 & H4 & H6).
    rewrite (proj2 (Z1 ltac:(lia)) H1), (proj2 (Z2 ltac:(lia)) H2),
      (proj2 (Z3 ltac:(lia)) H3), (proj2 (Z4 ltac:(lia)) H4),
      (proj2 (Z5 ltac:(lia)) H5), (proj2 (Z6 ltac:(lia)) H6). reflexivity.
Qed.

Lemma cpp_rolled_faces (rnd : nat → Z) (s : Cpp.Engine) :
  (∀ k, 1 ≤ rnd k ≤ 6) →
  Forall (λ x, 1 ≤ x ≤ 6) (values_in Rolled (Cpp.dice (Cpp.roll rnd s))).
Proof.
  intros Hrnd. rewrite cpp_roll_newly_rolled. apply Forall_fmap, Forall_true.
  intros k. apply Hrnd.
Qed.

Lemma ts_rolled_faces (rnd : nat → Q) (s : TS.Engine) :
  (∀ k, (0 < rnd k)%Q ∧ (rnd k < 1)%Q) →
  Forall (λ x, 1 ≤ x ≤ 6) (values_in Rolled (TS.dice (TS.roll rnd s))).
Proof.
  intros Hrnd. rewrite ts_roll_newly_rolled. apply Forall_fmap, Forall_true.
  intros k. apply face_range; apply Hrnd.
Qed.

Lemma cpp_roll_length (rnd : nat → Z) (s : Cpp.Engine) :
  length (Cpp.dice (Cpp.roll rnd s)) = length (Cpp.dice s).
Proof.
  rewrite <- (length_fmap id (Cpp.dice (Cpp.roll rnd s))), <- (length_fmap id (Cpp.dice s)).
  rewrite cpp_roll_dice, roll_rolled_id, cpp_pool_before_roll_id. reflexivity.
Qed.

(** X13.  The Farkle check agrees with the evaluator.  On faces within
    1..6 a list of dice has scoring potential exactly when the evaluator
    gives it a positive score; so a roll whose outcomes are faces 1..6 ends
    in Farkle exactly when the dice it rolled score 0.  Both engines, each
    with its own evaluator; for the C++ engine, whose score is an [int], on
    at most six dice. *)
Theorem farkle_iff_roll_scores_nothing :
  (∀ vs : list Z,
     (length vs ≤ 6)%nat →
     Forall (λ x, 1 ≤ x ≤ 6) vs →
     (Cpp.has_scoring_potential vs = true ↔ 0 < Cpp.evaluate_scoring vs))
  ∧ (∀ (rnd : nat → Z) (s : Cpp.Engine),
       (length (Cpp.dice s) ≤ 6)%nat →
       (∀ k, 1 ≤ rnd k ≤ 6) →
       (Cpp.status (Cpp.roll rnd s) = Farkle
        ↔ Cpp.evaluate_scoring (values_in Rolled (Cpp.dice (Cpp.roll rnd s))) = 0))
  ∧ (∀ dice : list Die,
       Forall (λ x, 1 ≤ x ≤ 6) (value <$> dice) →
       (TS.hasScore (TS.getCounts dice) = true ↔ 0 < TS.evaluateScoring dice))
  ∧ (∀ (rnd : nat → Q) (s : TS.Engine),
       (∀ k, (0 < rnd k)%Q ∧ (rnd k < 1)%Q) →
       (TS.status (TS.roll rnd s) = Farkle
        ↔ TS.evaluateScoring (filter (λ d, state d = Rolled) (TS.dice (TS.roll rnd s)))
          = 0)).
Proof.
  split; [|split; [|split]].
  - intros vs Hlen Hall. rewrite cpp_evaluate_scoring_canonical by exact Hlen.
    pose proof (canonical_score_nonneg vs) as Hn.
    pose proof (canonical_score_zero vs Hall) as Hz.
    rewrite <- cpp_has_scoring_potential_false in Hz.
    destruct (Cpp.has_scoring_potential vs).
    + split; [intros _|reflexivity].
      destruct (decide (canonical_score vs = 0)) as [E|E]; [|lia].
      apply Hz in E. discriminate.
    + split; [discriminate|]. intros Hpos. rewrite (proj2 Hz eq_refl) in Hpos. lia.
  - intros rnd s Hlen Hrnd. rewrite cpp_evaluate_scoring_canonical.
    2:{ pose proof (values_in_length Rolled (Cpp.dice (Cpp.roll rnd s))) as Hv.
        rewrite cpp_roll_length in Hv. lia. }
    rewrite (canonical_score_zero _ (cpp_rolled_faces rnd s Hrnd)).
    rewrite <- cpp_has_scoring_potential_false.
    pose proof (cpp_roll_outcome rnd s) as Ho. cbv zeta in Ho.
    destruct (Cpp.has_scoring_potential _); destruct Ho as [-> _];
      split; congruence.
  - intros dice Hall. rewrite ts_evaluateScoring_flat.
    pose proof (flat_score_nonneg (value <$> dice)) as Hn.
    pose proof (flat_score_zero _ Hall) as Hz.
    rewrite <- ts_hasScore_false in Hz.
    destruct (TS.hasScore _).
    + split; [intros _|reflexivity].
      destruct (decide (flat_score (value <$> dice) = 0)) as [E|E]; [|lia].
      apply Hz in E. discriminate.
    + split; [discriminate|]. intros Hpos. rewrite (proj2 Hz eq_refl) in Hpos. lia.
  - intros rnd s Hrnd. rewrite ts_evaluateScoring_flat.
    pose proof (ts_rolled_faces rnd s Hrnd) as Hall. unfold values_in in Hall.
    rewrite (flat_score_zero _ Hall), <- ts_hasScore_false.
    pose proof (ts_roll_outcome rnd s) as Ho. cbv zeta in Ho.
    destruct (TS.hasScore _); destruct Ho as [-> _]; split; congruence.
Qed.

Lemma farkle_iff_roll_scores_nothing_witness :
  Cpp.has_scoring_potential [2; 2; 3; 3; 4; 4] = true
  ↔ 0 < Cpp.evaluate_scoring [2; 2; 3; 3; 4; 4].
Proof.
  apply (proj1 farkle_iff_roll_scores_nothing).
  - cbn. lia.
  - repeat (constructor; [lia|]). constructor.
Defined.

(** The bound on the number of dice is needed: on twenty-five ones, which
    have scoring potential, the score has left [int] and is negative. *)
Example potential_with_negative_score :
  Cpp.has_scoring_potential (replicate 25 1) = true
  ∧ Cpp.evaluate_scoring (replicate 25 1) < 0.
Proof. vm_compute. split; reflexivity. Qed.

(** Outside 1..6 the two part: three dice showing 0, which the TypeScript
    source of faces can produce, pass the Farkle check and score nothing. *)
Example three_zeros_potential_without_score :
  TS.hasScore (TS.getCounts (dice_of Rolled [0; 0; 0; 2; 3; 4])) = true
  ∧ TS.evaluateScoring (dice_of Rolled [0; 0; 0; 2; 3; 4]) = 0.
Proof. vm_compute. split; reflexivity. Qed.

(** X14.  After a roll that ended in Farkle the pot is gone and the
    selection is closed: [bank] returns the state as it is, and so does
    [toggleKeep] for every id, in either engine. *)
Theorem farkle_closes_bank_and_selection :
  (∀ (rnd rnd' : nat → Z) (die_id : Z) (s : Cpp.Engine),
     Cpp.status (Cpp.roll rnd s) = Farkle →
     Cpp.bank rnd' (Cpp.roll rnd s) = Some (Cpp.roll rnd s)
     ∧ Cpp.toggle_keep die_id (Cpp.roll rnd s) = Cpp.roll rnd s)
  ∧ (∀ (rnd rnd' : nat → Q) (dieId : Z) (s : TS.Engine),
       TS.status (TS.roll rnd s) = Farkle →
       TS.bank rnd' (TS.roll rnd s) = Some (TS.roll rnd s)
       ∧ TS.toggleKeep dieId (TS.roll rnd s) = TS.roll rnd s).
Proof.
  split.
  - intros rnd rnd' die_id s Hf.
    pose proof (cpp_roll_outcome rnd s) as Ho. cbv zeta in Ho.
    destruct (cpp_roll_fixed rnd s) as (_ & _ & _ & Hk).
    destruct (Cpp.has_scoring_potential _); destruct Ho as [Hst Ht]; [congruence|].
    split.
    + unfold Cpp.bank. rewrite decide_True by auto. reflexivity.
    + unfold Cpp.toggle_keep. rewrite decide_True by (rewrite Hf; discriminate).
      reflexivity.
  - intros rnd rnd' dieId s Hf.
    pose proof (ts_roll_outcome rnd s) as Ho. cbv zeta in Ho.
    destruct (TS.hasScore _); [destruct Ho as [Hst _]; congruence|].
    destruct Ho as (_ & Ht & Hk). split.
    + unfold TS.bank. rewrite decide_True by auto. reflexivity.
    + unfold TS.toggleKeep. rewrite decide_True by (rewrite Hf; discriminate).
      reflexivity.
Qed.

Lemma farkle_closes_bank_and_selection_witness :
  Cpp.bank (scripted [] 1) (Cpp.roll (scripted [2; 3] 1) cpp_second_cycle)
  = Some (Cpp.roll (scripted [2; 3] 1) cpp_second_cycle).
Proof.
  apply (proj1 farkle_closes_bank_and_selection (scripted [2; 3] 1) (scripted [] 1) 0
           cpp_second_cycle).
  vm_compute. reflexivity.
Defined.

(** ** What a click can move *)

Lemma selection_move_refl (ds : list Die) : Forall2 selection_move ds ds.
Proof. apply Forall_Forall2_diag, Forall_true. intros d. repeat split; auto. Qed.

Lemma selection_move_insert (ds : list Die) (i : nat) (d : Die) :
  ds !! i = Some d → state d ≠ Banked →
  Forall2 selection_move ds (<[i := set_state Kept d]> ds).
Proof.
  intros Hl Hb. rewrite <- (list_insert_id ds i d Hl) at 1.
  apply Forall2_insert; [apply selection_move_refl|].
  repeat split; cbn; try discriminate. intros H. contradiction.
Qed.

Lemma cpp_toggle_keep_moves (die_id : Z) (s : Cpp.Engine) :
  Forall2 selection_move (Cpp.dice s) (Cpp.dice (Cpp.toggle_keep die_id s)).
Proof.
  unfold Cpp.toggle_keep.
  repeat case_match; subst; cbn [Cpp.dice Cpp.recalc_keep_score Cpp.with_dice];
    try apply selection_move_refl.
  - eapply Forall2_impl; [apply unkeep_value_changes|].
    intros x y [->|(_ & Hk & ->)]; unfold selection_move; cbn;
      intuition congruence.
  - eapply Forall2_impl; [apply promote_changes|].
    intros x y [->|(_ & Hk & ->)]; unfold selection_move; cbn;
      intuition congruence.
  - match goal with H : list_find _ _ = Some _ |- _ =>
      apply list_find_lookup in H; destruct H as [H _] end.
    apply selection_move_insert; assumption.
  - match goal with H : list_find _ _ = Some _ |- _ =>
      apply list_find_lookup in H; destruct H as [H _] end.
    apply selection_move_insert; assumption.
Qed.

Lemma ts_toggleKeep_moves (dieId : Z) (s : TS.Engine) :
  Forall2 selection_move (TS.dice s) (TS.dice (TS.toggleKeep dieId s)).
Proof.
  unfold TS.toggleKeep.
  repeat case_match; subst; cbn [TS.dice TS.recalcKeepScore TS.with_dice];
    try apply selection_move_refl.
  - eapply Forall2_impl; [apply unkeep_value_changes|].
    intros x y [->|(_ & Hk & ->)]; unfold selection_move; cbn;
      intuition congruence.
  - eapply Forall2_impl; [apply promote_changes|].
    intros x y [->|(_ & Hk & ->)]; unfold selection_move; cbn;
      intuition congruence.
  - match goal with H : list_find _ _ = Some _ |- _ =>
      apply list_find_lookup in H; destruct H as [H _] end.
    apply selection_move_insert; assumption.
Qed.

(** X15.  A click moves dice between Rolled and Kept and touches nothing
    else: in either engine [toggleKeep] leaves every die its id and face,
    leaves the Banked dice Banked and banks none, and returns the players'
    totals, the player index, the turn score and the status it was
    given. *)
Theorem toggle_keep_moves_rolled_and_kept_only :
  (∀ (die_id : Z) (s : Cpp.Engine),
     let s' := Cpp.toggle_keep die_id s in
     Forall2 selection_move (Cpp.dice s) (Cpp.dice s')
     ∧ Cpp.player_scores s' = Cpp.player_scores s
     ∧ Cpp.current_player_index s' = Cpp.current_player_index s
     ∧ Cpp.turn_score s' = Cpp.turn_score s
     ∧ Cpp.status s' = Cpp.status s)
  ∧ (∀ (dieId : Z) (s : TS.Engine),
       let s' := TS.toggleKeep dieId s in
       Forall2 selection_move (TS.dice s) (TS.dice s')
       ∧ TS.players s' = TS.players s
       ∧ TS.currentPlayerIndex s' = TS.currentPlayerIndex s
       ∧ TS.turnScore s' = TS.turnScore s
       ∧ TS.status s' = TS.status s).
Proof.
  split.
  - intros die_id s s'. subst s'. split; [apply cpp_toggle_keep_moves|].
    apply cpp_toggle_keep_frame.
  - intros dieId s s'. subst s'. split; [apply ts_toggleKeep_moves|].
    apply ts_toggleKeep_frame.
Qed.

(** ** Kept dice come in scoring units (C++) *)

Lemma promote_other (val w : Z) (st : DieState) (needed : nat) (ds : list Die) :
  w ≠ val → count_in st w (promote val needed ds) = count_in st w ds.
Proof.
  intros Hw. revert needed. induction ds as [|d ds IH]; intros needed; [reflexivity|].
  cbn [promote].
  destruct (decide (value d = val ∧ state d = Rolled ∧ (0 < needed)%nat))
    as [(Hv & _ & _)|_]; rewrite !count_in_cons, IH; [|reflexivity].
  cbn [value state set_state]. repeat case_decide; try lia; exfalso; intuition congruence.
Qed.

Lemma count_in_insert_kept (w : Z) (ds : list Die) (i : nat) (d : Die) :
  ds !! i = Some d → state d ≠ Kept →
  count_in Kept w (<[i := set_state Kept d]> ds)
  = (count_in Kept w ds + (if decide (value d = w) then 1 else 0))%nat.
Proof.
  revert i. induction ds as [|x ds IH]; intros i Hl Hk; [discriminate|].
  destruct i as [|i].
  - injection Hl as ->.
    change (<[0%nat := set_state Kept d]> (d :: ds)) with (set_state Kept d :: ds).
    rewrite !count_in_cons.
    cbn [value state set_state]. repeat case_decide; try lia; exfalso; intuition congruence.
  - change (<[S i := set_state Kept d]> (x :: ds))
      with (x :: <[i := set_state Kept d]> ds).
    rewrite !count_in_cons. rewrite (IH i Hl Hk). lia.
Qed.

Lemma count_in_le_state (v : Z) (st : DieState) (ds : list Die) :
  (count_in st v ds ≤ count_state st ds)%nat.
Proof.
  induction ds as [|d ds IH]; [reflexivity|].
  rewrite count_in_cons, count_state_cons. repeat case_decide; try lia.
  exfalso. intuition congruence.
Qed.

Lemma no_kept_in_groups (ds : list Die) :
  filter (λ d, state d = Kept) ds = [] → kept_in_groups ds.
Proof.
  intros H v _ _. left. apply no_kept_length in H.
  pose proof (count_in_le_state v Kept ds). lia.
Qed.

Lemma cpp_toggle_keep_groups (die_id : Z) (s : Cpp.Engine) :
  kept_in_groups (Cpp.dice s) → kept_in_groups (Cpp.dice (Cpp.toggle_keep die_id s)).
Proof.
  intros Hs. unfold Cpp.toggle_keep.
  destruct (decide (Cpp.status s ≠ Rolling)); [exact Hs|].
  destruct (list_find _ _) as [[i d]|] eqn:Hf; [|exact Hs].
  pose proof (list_find_lookup _ _ _ _ Hf) as [Hl _].
  destruct (decide (state d = Banked)); [exact Hs|].
  destruct (decide (state d = Kept)) as [Hk|Hk].
  { cbn [Cpp.dice Cpp.recalc_keep_score Cpp.with_dice]. intros v H1 H5.
    destruct (decide (v = value d)) as [->|Hv].
    - left. apply unkeep_value_counts.
    - rewrite unkeep_value_other by exact Hv. apply Hs; assumption. }
  destruct (decide (3 ≤ _)%nat) as [Hn|Hn].
  - destruct (decide (_ < 3)%nat) as [Hlt|Hge];
      cbn [Cpp.dice Cpp.recalc_keep_score Cpp.with_dice]; intros v H1 H5.
    + destruct (decide (v = value d)) as [->|Hv].
      * right. rewrite promote_kept_count. lia.
      * rewrite promote_other by exact Hv. apply Hs; assumption.
    + rewrite (count_in_insert_kept v _ i d Hl Hk).
      destruct (decide (value d = v)) as [<-|Hv].
      * right. lia.
      * rewrite Nat.add_0_r. apply Hs; assumption.
  - destruct (decide (value d = 1 ∨ value d = 5)) as [Hv|Hv];
      cbn [Cpp.dice Cpp.recalc_keep_score Cpp.with_dice]; [|exact Hs].
    intros v H1 H5. rewrite (count_in_insert_kept v _ i d Hl Hk).
    rewrite decide_False by (intros <-; tauto).
    rewrite Nat.add_0_r. apply Hs; assumption.
Qed.

Lemma cpp_reachable_groups (s : Cpp.Engine) : Cpp.reachable s → kept_in_groups (Cpp.dice s).
Proof.
  induction 1 as [n rnd|rnd s _ IH|die_id s _ IH|rnd s s' _ IH Hb|rnd s s' _ IH Hp|s _ IH].
  - apply no_kept_in_groups, cpp_roll_no_kept.
  - apply no_kept_in_groups, cpp_roll_no_kept.
  - apply cpp_toggle_keep_groups, IH.
  - destruct (cpp_bank_cases rnd s s' Hb) as [(-> & _)|(total & _ & [[_ ->]|[_ Hpt]])].
    + exact IH.
    + apply no_kept_in_groups. cbn. apply bank_kept_no_kept.
    + unfold Cpp.pass_turn in Hpt. case_match; [discriminate|]. injection Hpt as <-.
      apply no_kept_in_groups, cpp_roll_no_kept.
  - unfold Cpp.pass_turn in Hp. case_match; [discriminate|]. injection Hp as <-.
    apply no_kept_in_groups, cpp_roll_no_kept.
  - exact IH.
Qed.

Lemma occurrences_values_in (v : Z) (st : DieState) (ds : list Die) :
  occurrences v (values_in st ds) = count_in st v ds.
Proof.
  unfold values_in. induction ds as [|d ds IH]; [reflexivity|].
  rewrite filter_cons, count_in_cons.
  destruct (decide (state d = st)) as [Hs|Hs].
  - rewrite fmap_cons, occurrences_cons, IH. repeat case_decide; try lia;
      exfalso; intuition congruence.
  - rewrite IH. rewrite decide_False by tauto. reflexivity.
Qed.

Lemma canonical_score_ge_group (v : Z) (vs : list Z) :
  1 ≤ v ≤ 6 → canonical_group v (occurrences v vs) ≤ canonical_score vs.
Proof.
  intros Hv.
  assert (∀ w c, 1 ≤ w ≤ 6 → 0 ≤ canonical_group w c) as Hg.
  { intros w c Hw. unfold canonical_group, base_score.
    repeat case_decide; try lia;
      apply Z.mul_nonneg_nonneg; try lia; apply Z.pow_nonneg; lia. }
  unfold canonical_score. cbn [foldr].
  pose proof (Hg 1 (occurrences 1 vs)). pose proof (Hg 2 (occurrences 2 vs)).
  pose proof (Hg 3 (occurrences 3 vs)). pose proof (Hg 4 (occurrences 4 vs)).
  pose proof (Hg 5 (occurrences 5 vs)). pose proof (Hg 6 (occurrences 6 vs)).
  assert (v = 1 ∨ v = 2 ∨ v = 3 ∨ v = 4 ∨ v = 5 ∨ v = 6) as Hc by lia.
  destruct Hc as [->|[->|[->|[->|[->| ->]]]]]; lia.
Qed.

(** X16.  In every reachable state of the C++ engine the Kept dice form
    scoring units: of a face other than 1 and 5 either no die is Kept or
    at least three are.  So every Kept die counts: once a die with a face
    in 1..6 is Kept, the keep score is positive. *)
Theorem kept_dice_form_scoring_units :
  ∀ s : Cpp.Engine, Cpp.reachable s →
    (∀ v, v ≠ 1 → v ≠ 5 →
          count_in Kept v (Cpp.dice s) = 0%nat ∨ (3 ≤ count_in Kept v (Cpp.dice s))%nat)
    ∧ (∀ d, d ∈ Cpp.dice s → state d = Kept → 1 ≤ value d ≤ 6 →
            0 < Cpp.current_keep_score s).
Proof.
  intros s Hs. pose proof (cpp_reachable_groups s Hs) as Hg. split; [exact Hg|].
  intros d Hd Hk Hv. rewrite (cpp_reachable_sync s Hs), cpp_evaluate_scoring_canonical.
  2:{ pose proof (values_in_length Kept (Cpp.dice s)) as Hlen.
      rewrite (pool_ids_length _ (cpp_reachable_ids s Hs)) in Hlen. exact Hlen. }
  eapply Z.lt_le_trans; [|apply (canonical_score_ge_group (value d)); exact Hv].
  rewrite occurrences_values_in.
  assert (0 < count_in Kept (value d) (Cpp.dice s))%nat as Hpos.
  { unfold count_in. apply list_elem_of_In, (in_split d) in Hd.
    destruct Hd as (l1 & l2 & ->). rewrite filter_app, filter_cons, decide_True by auto.
    rewrite length_app. cbn. lia. }
  pose proof (canonical_group_zero (value d) (count_in Kept (value d) (Cpp.dice s)) Hv) as Hz.
  assert (∀ c, 0 ≤ canonical_group (value d) c) as Hnn.
  { intros c. unfold canonical_group, base_score.
    repeat case_decide; try lia;
      apply Z.mul_nonneg_nonneg; try lia; apply Z.pow_nonneg; lia. }
  specialize (Hnn (count_in Kept (value d) (Cpp.dice s))).
  destruct (decide (canonical_group (value d) (count_in Kept (value d) (Cpp.dice s)) = 0))
    as [E|E]; [|lia].
  apply Hz in E. destruct (decide (value d = 1 ∨ value d = 5)) as [|Hne]; [lia|].
  destruct (Hg (value d)) as [H0|H3]; try lia; tauto.
Qed.

Lemma kept_dice_form_scoring_units_witness :
  0 < Cpp.current_keep_score cpp_four_twos.
Proof.
  apply (proj2 (kept_dice_form_scoring_units cpp_four_twos
                  (Cpp.reach_toggle_keep 0 _ (Cpp.reach_new 2 _))) (mkDie 0 2 Kept)).
  - apply list_elem_of_lookup. exists 0%nat. vm_compute. reflexivity.
  - reflexivity.
  - cbn. lia.
Defined.

(** ** The greedy player of the TypeScript engine *)

Lemma nodup_ids_inj (l : list Die) (x y : Die) :
  NoDup (id <$> l) → x ∈ l → y ∈ l → id x = id y → x = y.
Proof.
  intros Hnd Hx Hy Hid.
  apply list_elem_of_lookup in Hx. destruct Hx as [i Hi].
  apply list_elem_of_lookup in Hy. destruct Hy as [j Hj].
  assert ((id <$> l) !! i = Some (id x)) as Hi' by (rewrite list_lookup_fmap, Hi; reflexivity).
  assert ((id <$> l) !! j = Some (id x)) as Hj'
    by (rewrite list_lookup_fmap, Hj, Hid; reflexivity).
  pose proof (NoDup_lookup _ _ _ _ Hnd Hi' Hj') as ->. congruence.
Qed.

(** One round of the loop of [pull]: the die is found under its id and
    leaves the available dice. *)
Lemma pull_loop (found av : list Die) (ks : list Z) :
  NoDup (id <$> av) → found ⊆+ av →
  ∃ av',
    foldl (λ '(available, aiKeeps) d,
             let aiKeeps := aiKeeps ++ [id d] in
             match list_find (λ x, id x = id d) available with
             | Some (idx, _) => (delete idx available, aiKeeps)
             | None => (available, aiKeeps)
             end) (av, ks) found
    = (av', ks ++ (id <$> found))
    ∧ av ≡ₚ found ++ av'.
Proof.
  revert av ks. induction found as [|d found IH]; intros av ks Hnd Hsub.
  - exists av. cbn. rewrite app_nil_r. split; reflexivity.
  - assert (d ∈ av) as Hd.
    { apply submseteq_cons_l in Hsub. destruct Hsub as (k & Hk & _).
      rewrite Hk. apply list_elem_of_here. }
    cbn [foldl]. cbv beta iota zeta.
    destruct (list_find (λ x, id x = id d) av) as [[idx x]|] eqn:Hf.
    2: { destruct (list_find_elem_of (λ x, id x = id d) av d Hd eq_refl) as [? E].
         rewrite Hf in E. discriminate. }
    apply list_find_Some in Hf. destruct Hf as (Hl & Hid & _).
    assert (x = d) as ->.
    { apply (nodup_ids_inj av); auto. apply list_elem_of_lookup. eauto. }
    pose proof (delete_Permutation av idx d Hl) as Hperm.
    assert (NoDup (id <$> delete idx av)) as Hnd'.
    { rewrite Hperm, fmap_cons in Hnd. apply NoDup_cons in Hnd. apply Hnd. }
    assert (found ⊆+ delete idx av) as Hsub'.
    { rewrite Hperm in Hsub. apply (submseteq_app_inv_l _ _ [d]). exact Hsub. }
    destruct (IH (delete idx av) (ks ++ [id d]) Hnd' Hsub') as (av' & Heq & Hav').
    exists av'. split.
    + etransitivity; [exact Heq|]. rewrite fmap_cons, <- app_assoc. reflexivity.
    + rewrite Hperm, Hav'. reflexivity.
Qed.

Lemma occurrences_app (w : Z) (vs vs' : list Z) :
  occurrences w (vs ++ vs') = (occurrences w vs + occurrences w vs')%nat.
Proof. unfold occurrences. rewrite filter_app, length_app. reflexivity. Qed.

Lemma occurrences_values_filter (w : Z) (l : list Die) :
  occurrences w (value <$> l) = length (filter (λ d, value d = w) l).
Proof.
  induction l as [|d l IH]; [reflexivity|].
  rewrite fmap_cons, occurrences_cons, filter_cons, IH.
  destruct (decide (value d = w)); reflexivity.
Qed.

Lemma occurrences_found (w val : Z) (qty : nat) (av : list Die) :
  occurrences w (value <$> take qty (filter (λ d, value d = val) av))
  = if decide (w = val) then (qty `min` occurrences val (value <$> av))%nat else 0%nat.
Proof.
  assert (Forall (λ d, value d = val) (take qty (filter (λ d, value d = val) av))) as Hall.
  { apply Forall_take, Forall_forall. intros d Hd.
    apply list_elem_of_filter in Hd. apply Hd. }
  rewrite (occurrences_values_filter val av), <- length_take.
  induction Hall as [|d l Hd _ IH]; [destruct (decide (w = val)); reflexivity|].
  rewrite fmap_cons, occurrences_cons, IH.
  destruct (decide (w = val)) as [->|Hne].
  - rewrite decide_True by exact Hd. reflexivity.
  - rewrite decide_False by congruence. reflexivity.
Qed.

Lemma picked_from_nodup (R av : list Die) (ks : list Z) (picked : list Die) :
  NoDup (id <$> R) → picked_from R av ks picked → NoDup (id <$> av).
Proof.
  intros Hnd [_ Hperm]. rewrite <- Hperm, fmap_app in Hnd.
  apply NoDup_app in Hnd. apply Hnd.
Qed.

Lemma picked_from_count (R av : list Die) (ks : list Z) (picked : list Die) (w : Z) :
  picked_from R av ks picked →
  (occurrences w (value <$> picked) + occurrences w (value <$> av))%nat
  = occurrences w (value <$> R).
Proof.
  intros [_ Hperm]. rewrite <- occurrences_app, <- fmap_app.
  apply occurrences_perm, fmap_Permutation, Hperm.
Qed.

(** What one call of [pull] does to the bookkeeping. *)
Lemma pull_picks (R : list Die) (val : Z) (qty : nat) (av : list Die) (ks : list Z)
    (picked : list Die) :
  NoDup (id <$> R) → picked_from R av ks picked →
  ∃ picked',
    picked_from R (fst (TS.pull val qty (av, ks))) (snd (TS.pull val qty (av, ks))) picked'
    ∧ ∀ w, occurrences w (value <$> picked')
           = (occurrences w (value <$> picked)
              + if decide (w = val) then qty `min` occurrences val (value <$> av)
                else 0)%nat.
Proof.
  intros Hnd Hinv. pose proof (picked_from_nodup R av ks picked Hnd Hinv) as Hav.
  destruct Hinv as [-> Hperm].
  set (found := take qty (filter (λ d, value d = val) av)).
  assert (found ⊆+ av) as Hsub.
  { apply sublist_submseteq. etransitivity; [apply sublist_take|apply sublist_filter]. }
  destruct (pull_loop found av (id <$> picked) Hav Hsub) as (av' & Heq & Hav').
  assert (TS.pull val qty (av, id <$> picked) = (av', (id <$> picked) ++ (id <$> found)))
    as -> by exact Heq.
  exists (picked ++ found). cbn [fst snd]. split; [split|].
  - rewrite fmap_app. reflexivity.
  - rewrite <- Hperm, Hav', app_assoc. reflexivity.
  - intros w. rewrite fmap_app, occurrences_app. f_equal. apply occurrences_found.
Qed.

(** One face in the triples loop. *)
Lemma triples_step (R : list Die) (i : Z) (st : list Die * list Z) (picked : list Die) :
  NoDup (id <$> R) → picked_from R (fst st) (snd st) picked →
  ∃ picked',
    let st' :=
      (let matches := filter (λ d, value d = i) (fst st) in
       if decide (3 ≤ length matches)%nat then
         let st := TS.pull i 3 st in
         if decide (length matches = 6%nat) then TS.pull i 3 st else st
       else st) in
    picked_from R (fst st') (snd st') picked'
    ∧ ∀ w, occurrences w (value <$> picked')
           = (occurrences w (value <$> picked)
              + if decide (w = i)
                then triples_pulled (occurrences i (value <$> fst st)) else 0)%nat.
Proof.
  intros Hnd Hinv. destruct st as [av ks]. cbn [fst snd] in *. cbv zeta.
  rewrite <- (occurrences_values_filter i av). unfold triples_pulled.
  set (m := occurrences i (value <$> av)).
  destruct (decide (3 ≤ m)%nat) as [H3|H3].
  2: { exists picked. split; [exact Hinv|]. intros w. destruct (decide (w = i)); lia. }
  destruct (pull_picks R i 3 av ks picked Hnd Hinv) as (p1 & Hinv1 & Hc1).
  destruct (decide (m = 6%nat)) as [H6|H6].
  2: { exists p1. split; [exact Hinv1|]. intros w. rewrite Hc1. fold m.
       destruct (decide (w = i)); lia. }
  destruct (TS.pull i 3 (av, ks)) as [av1 ks1]. cbn [fst snd] in *.
  destruct (pull_picks R i 3 av1 ks1 p1 Hnd Hinv1) as (p2 & Hinv2 & Hc2).
  exists p2. split; [exact Hinv2|]. intros w. rewrite Hc2, Hc1. fold m.
  destruct (decide (w = i)) as [->|_]; [|lia].
  pose proof (picked_from_count R av ks picked i Hinv) as E0.
  pose proof (picked_from_count R av1 ks1 p1 i Hinv1) as E1.
  rewrite (Hc1 i), decide_True in E1 by reflexivity. fold m in E0, E1. lia.
Qed.

(** The triples loop over a list of distinct faces. *)
Lemma triples_loop (R : list Die) (faces : list Z) (st : list Die * list Z)
    (picked : list Die) :
  NoDup faces → NoDup (id <$> R) → picked_from R (fst st) (snd st) picked →
  ∃ picked',
    let st' :=
      foldl (λ st i,
               let matches := filter (λ d, value d = i) (fst st) in
               if decide (3 ≤ length matches)%nat then
                 let st := TS.pull i 3 st in
                 if decide (length matches = 6%nat) then TS.pull i 3 st else st
               else st) st faces in
    picked_from R (fst st') (snd st') picked'
    ∧ ∀ w, occurrences w (value <$> picked')
           = (occurrences w (value <$> picked)
              + if decide (w ∈ faces)
                then triples_pulled (occurrences w (value <$> fst st)) else 0)%nat.
Proof.
  intros Hfaces Hnd. revert st picked.
  induction Hfaces as [|i faces Hi _ IH]; intros st picked Hinv.
  - exists picked. cbn. split; [exact Hinv|]. intros w.
    rewrite decide_False by apply not_elem_of_nil. lia.
  - destruct (triples_step R i st picked Hnd Hinv) as (p1 & Hstep).
    cbv zeta in Hstep. destruct Hstep as [Hinv1 Hc1].
    cbn [foldl].
    match type of Hinv1 with picked_from _ (fst ?s1) _ _ => set (st1 := s1) in * end.
    destruct (IH st1 p1 Hinv1) as (p2 & Hloop). cbv zeta in Hloop.
    destruct Hloop as [Hinv2 Hc2].
    exists p2. cbv zeta. split; [exact Hinv2|]. intros w. rewrite Hc2, Hc1.
    pose proof (picked_from_count R _ _ picked w Hinv) as E0.
    pose proof (picked_from_count R _ _ p1 w Hinv1) as E1.
    rewrite (Hc1 w) in E1.
    destruct (decide (w = i)) as [->|Hne].
    + rewrite (decide_False (P := i ∈ faces)) by exact Hi.
      rewrite (decide_True (P := i ∈ i :: faces)) by apply list_elem_of_here. lia.
    + destruct (decide (w ∈ faces)) as [Hin|Hin].
      * rewrite (decide_True (P := w ∈ i :: faces)) by (apply list_elem_of_further, Hin).
        assert (occurrences w (value <$> fst st1) = occurrences w (value <$> fst st)) as ->
          by lia. lia.
      * rewrite (decide_False (P := w ∈ i :: faces)); [lia|].
        intros H. apply elem_of_cons in H. tauto.
Qed.

(** Pulling single dice of one face, once per element of a list. *)
Lemma singles_pulls (R : list Die) (val : Z) (l : list Die) (st : list Die * list Z)
    (picked : list Die) :
  NoDup (id <$> R) → picked_from R (fst st) (snd st) picked →
  ∃ picked',
    let st' := foldl (λ (st : list Die * list Z) (_ : Die), TS.pull val 1 st) st l in
    picked_from R (fst st') (snd st') picked'
    ∧ ∀ w, occurrences w (value <$> picked')
           = (occurrences w (value <$> picked)
              + if decide (w = val)
                then length l `min` occurrences val (value <$> fst st) else 0)%nat.
Proof.
  intros Hnd. revert st picked. induction l as [|x l IH]; intros st picked Hinv.
  - exists picked. cbn. split; [exact Hinv|]. intros w. destruct (decide (w = val)); lia.
  - destruct st as [av ks]. cbn [fst snd] in *.
    destruct (pull_picks R val 1 av ks picked Hnd Hinv) as (p1 & Hinv1 & Hc1).
    cbn [foldl].
    destruct (IH (TS.pull val 1 (av, ks)) p1 Hinv1) as (p2 & Hloop). cbv zeta in Hloop.
    destruct Hloop as [Hinv2 Hc2].
    exists p2. cbv zeta. split; [exact Hinv2|]. intros w. rewrite Hc2, Hc1.
    pose proof (picked_from_count R av ks picked val Hinv) as E0.
    pose proof (picked_from_count R _ _ p1 val Hinv1) as E1.
    rewrite (Hc1 val), decide_True in E1 by reflexivity.
    destruct (decide (w = val)); cbn [length]; lia.
Qed.

(** The singles loop over a list of distinct faces. *)
Lemma singles_loop (R : list Die) (vals : list Z) (st : list Die * list Z)
    (picked : list Die) :
  NoDup vals → NoDup (id <$> R) → picked_from R (fst st) (snd st) picked →
  ∃ picked',
    let st' :=
      foldl (λ st val,
               let matches := filter (λ d, value d = val) (fst st) in
               foldl (λ st _, TS.pull val 1 st) st matches) st vals in
    picked_from R (fst st') (snd st') picked'
    ∧ ∀ w, occurrences w (value <$> picked')
           = (occurrences w (value <$> picked)
              + if decide (w ∈ vals) then occurrences w (value <$> fst st) else 0)%nat.
Proof.
  intros Hvals Hnd. revert st picked.
  induction Hvals as [|val vals Hi _ IH]; intros st picked Hinv.
  - exists picked. cbn. split; [exact Hinv|]. intros w.
    rewrite decide_False by apply not_elem_of_nil. lia.
  - destruct (singles_pulls R val (filter (λ d, value d = val) (fst st)) st picked Hnd Hinv)
      as (p1 & Hstep).
    cbv zeta in Hstep. destruct Hstep as [Hinv1 Hc1].
    cbn [foldl].
    match type of Hinv1 with picked_from _ (fst ?s1) _ _ => set (st1 := s1) in * end.
    destruct (IH st1 p1 Hinv1) as (p2 & Hloop). cbv zeta in Hloop.
    destruct Hloop as [Hinv2 Hc2].
    exists p2. cbv zeta. split; [exact Hinv2|]. intros w. rewrite Hc2, Hc1.
    rewrite <- (occurrences_values_filter val (fst st)).
    pose proof (picked_from_count R _ _ picked w Hinv) as E0.
    pose proof (picked_from_count R _ _ p1 w Hinv1) as E1.
    rewrite (Hc1 w), <- (occurrences_values_filter val (fst st)) in E1.
    destruct (decide (w = val)) as [->|Hne].
    + rewrite (decide_False (P := val ∈ vals)) by exact Hi.
      rewrite (decide_True (P := val ∈ val :: vals)) by apply list_elem_of_here. lia.
    + destruct (decide (w ∈ vals)) as [Hin|Hin].
      * rewrite (decide_True (P := w ∈ val :: vals)) by (apply list_elem_of_further, Hin).
        lia.
      * rewrite (decide_False (P := w ∈ val :: vals)); [lia|].
        intros H. apply elem_of_cons in H. tauto.
Qed.

(** The last loop of [computerMove]: with distinct ids in the pool, the
    dice whose id was pushed are the ones that end Kept. *)
Lemma keep_by_id (D : list Die) (i : Z) :
  NoDup (id <$> D) →
  match list_find (λ x, id x = i) D with
  | Some (k, d) => <[k := set_state Kept d]> D
  | None => D
  end
  = (λ d, if decide (id d = i) then set_state Kept d else d) <$> D.
Proof.
  intros Hnd. destruct (list_find (λ x, id x = i) D) as [[k d]|] eqn:Hf.
  - apply list_find_Some in Hf. destruct Hf as (Hk & Hid & _).
    apply list_eq. intros j. rewrite list_lookup_fmap.
    destruct (decide (j = k)) as [->|Hne].
    + rewrite list_lookup_insert_eq by (apply lookup_lt_Some in Hk; exact Hk).
      rewrite Hk. cbn. rewrite decide_True by exact Hid. reflexivity.
    + rewrite list_lookup_insert_ne by congruence.
      destruct (D !! j) as [y|] eqn:Hj; [|reflexivity]. cbn.
      rewrite decide_False; [reflexivity|]. intros Hy. apply Hne.
      apply (NoDup_lookup (id <$> D) j k i Hnd); rewrite list_lookup_fmap.
      * rewrite Hj. cbn. congruence.
      * rewrite Hk. cbn. congruence.
  - apply list_find_None in Hf. symmetry.
    etransitivity; [|apply list_fmap_id]. apply Forall_fmap_ext_1.
    eapply Forall_impl; [exact Hf|]. intros d Hd. cbn in *.
    rewrite decide_False by exact Hd. reflexivity.
Qed.

Lemma apply_keeps_map (ks : list Z) (D : list Die) :
  NoDup (id <$> D) →
  foldl (λ ds i,
           match list_find (λ x, id x = i) ds with
           | Some (k, d) => <[k := set_state Kept d]> ds
           | None => ds
           end) D ks
  = (λ d, if decide (id d ∈ ks) then set_state Kept d else d) <$> D.
Proof.
  revert D. induction ks as [|i ks IH]; intros D Hnd.
  - cbn [foldl]. symmetry. etransitivity; [|apply list_fmap_id].
    apply list_fmap_ext. intros j d _. cbn.
    rewrite decide_False by apply not_elem_of_nil. reflexivity.
  - cbn [foldl]. rewrite (keep_by_id D i Hnd). rewrite IH.
    + rewrite <- list_fmap_compose. apply list_fmap_ext. intros j d _. cbn.
      destruct (decide (id d = i)) as [Hi|Hi].
      * cbn [id set_state]. rewrite (decide_True (P := id d ∈ i :: ks))
          by (rewrite Hi; apply list_elem_of_here).
        destruct (decide (id d ∈ ks)); reflexivity.
      * destruct (decide (id d ∈ ks)) as [Hin|Hin].
        -- rewrite decide_True by (apply list_elem_of_further, Hin). reflexivity.
        -- rewrite decide_False; [reflexivity|].
           intros H. apply elem_of_cons in H. tauto.
    + rewrite <- list_fmap_compose.
      erewrite list_fmap_ext; [exact Hnd|]. intros j d _. cbn.
      destruct (decide (id d = i)); reflexivity.
Qed.

Lemma kept_after_apply (ks : list Z) (D : list Die) :
  filter (λ d, state d = Kept) D = [] →
  value <$> filter (λ d, state d = Kept)
              ((λ d, if decide (id d ∈ ks) then set_state Kept d else d) <$> D)
  = value <$> filter (λ d, id d ∈ ks) D.
Proof.
  induction D as [|d D IH]; [reflexivity|].
  rewrite filter_cons. destruct (decide (state d = Kept)) as [|Hk]; [discriminate|].
  intros H0. rewrite fmap_cons, !filter_cons.
  destruct (decide (id d ∈ ks)) as [Hin|Hin].
  - cbn [state set_state]. rewrite decide_True by reflexivity.
    rewrite !fmap_cons, (IH H0). reflexivity.
  - rewrite decide_False by exact Hk. apply IH, H0.
Qed.

Lemma picked_filter (D picked : list Die) :
  NoDup (id <$> D) → picked ⊆+ D →
  filter (λ d, id d ∈ id <$> picked) D ≡ₚ picked.
Proof.
  intros Hnd Hsub. pose proof (NoDup_fmap_1 id D Hnd) as HD.
  apply NoDup_Permutation.
  - apply NoDup_filter, HD.
  - destruct (submseteq_Permutation _ _ Hsub) as [k Hk].
    rewrite Hk in HD. apply NoDup_app in HD. apply HD.
  - intros d. rewrite list_elem_of_filter, list_elem_of_fmap. split.
    + intros [(p & Hid & Hp) Hd].
      assert (p ∈ D) as HpD by (eapply elem_of_submseteq; eassumption).
      rewrite (nodup_ids_inj D d p Hnd Hd HpD Hid). exact Hp.
    + intros Hp. split; [eauto|]. eapply elem_of_submseteq; eassumption.
Qed.

Lemma triples_pulled_le (m : nat) : (triples_pulled m ≤ m)%nat.
Proof. unfold triples_pulled. repeat case_decide; lia. Qed.

Lemma flat_group_triples (w : Z) (m : nat) :
  w ≠ 1 → w ≠ 5 → (m ≤ 6)%nat → flat_group w (triples_pulled m) = flat_group w m.
Proof.
  intros H1 H5 Hm. unfold flat_group.
  rewrite !decide_False by assumption.
  destruct m as [|[|[|[|[|[|[|m]]]]]]]; try lia; reflexivity.
Qed.

Lemma flat_score_perm (vs vs' : list Z) : vs ≡ₚ vs' → flat_score vs = flat_score vs'.
Proof. intros H. apply flat_score_counts. intros v _. apply occurrences_perm, H. Qed.

(** The three loops of [computerMove] together, on a pool [D] with
    distinct ids and no Kept die: the faces of the dice that end Kept. *)
Lemma greedy_selection (D : list Die) :
  NoDup (id <$> D) → filter (λ d, state d = Kept) D = [] →
  let rolled := filter (λ d, state d = Rolled) D in
  let st := foldl (λ st i,
               let matches := filter (λ d, value d = i) (fst st) in
               if decide (3 ≤ length matches)%nat then
                 let st := TS.pull i 3 st in
                 if decide (length matches = 6%nat) then TS.pull i 3 st else st
               else st) (rolled, []) [1; 2; 3; 4; 5; 6] in
  let st := foldl (λ st val,
               let matches := filter (λ d, value d = val) (fst st) in
               foldl (λ st _, TS.pull val 1 st) st matches) st [1; 5] in
  let dice1 := foldl (λ ds i,
                  match list_find (λ x, id x = i) ds with
                  | Some (k, d) => <[k := set_state Kept d]> ds
                  | None => ds
                  end) D (snd st) in
  id <$> dice1 = id <$> D
  ∧ ∀ w, occurrences w (value <$> filter (λ d, state d = Kept) dice1)
         = if decide (w = 1 ∨ w = 5) then occurrences w (value <$> rolled)
           else if decide (2 ≤ w ≤ 6) then triples_pulled (occurrences w (value <$> rolled))
           else 0%nat.
Proof.
  intros Hnd Hnk rolled st1 st2 dice1.
  assert (NoDup (id <$> rolled)) as HndR.
  { eapply sublist_NoDup; [exact Hnd|]. apply fmap_sublist, sublist_filter. }
  assert (NoDup [1; 2; 3; 4; 5; 6]) as Hfaces by (apply (bool_decide_unpack _); reflexivity).
  assert (NoDup [1; 5]) as Hvals by (apply (bool_decide_unpack _); reflexivity).
  assert (picked_from rolled (fst (rolled, @nil Z)) (snd (rolled, @nil Z)) []) as H0
    by (split; reflexivity).
  assert (∃ p1, picked_from rolled (fst st1) (snd st1) p1
            ∧ ∀ w, occurrences w (value <$> p1)
                   = (occurrences w (value <$> [])
                      + if decide (w ∈ ([1; 2; 3; 4; 5; 6]%Z : list Z))
                        then triples_pulled (occurrences w (value <$> rolled))
                        else 0)%nat) as (p1 & Hinv1 & Hc1)
    by exact (triples_loop rolled [1; 2; 3; 4; 5; 6] (rolled, []) [] Hfaces HndR H0).
  assert (∃ p2, picked_from rolled (fst st2) (snd st2) p2
            ∧ ∀ w, occurrences w (value <$> p2)
                   = (occurrences w (value <$> p1)
                      + if decide (w ∈ ([1; 5]%Z : list Z))
                        then occurrences w (value <$> fst st1) else 0)%nat)
    as (p2 & Hinv2 & Hc2)
    by exact (singles_loop rolled [1; 5] st1 p1 Hvals HndR Hinv1).
  clearbody st1 st2. subst dice1.
  split; [apply apply_keeps_ids|].
  intros w. rewrite (apply_keeps_map _ D Hnd), (kept_after_apply _ D Hnk).
  destruct Hinv2 as [Hks Hperm2]. rewrite Hks.
  assert (p2 ⊆+ D) as Hsub.
  { etransitivity; [|apply sublist_submseteq, (sublist_filter (λ d, state d = Rolled) D)].
    fold rolled. rewrite <- Hperm2. apply submseteq_inserts_r. reflexivity. }
  rewrite (occurrences_perm w _ (value <$> p2))
    by (apply fmap_Permutation, picked_filter; assumption).
  rewrite Hc2, Hc1.
  pose proof (picked_from_count rolled _ _ p1 w Hinv1) as E1. rewrite (Hc1 w) in E1.
  pose proof (triples_pulled_le (occurrences w (value <$> rolled))) as Hle.
  change (occurrences w (value <$> [])) with 0%nat in *.
  destruct (decide (w = 1 ∨ w = 5)) as [Hw|Hw].
  - rewrite (decide_True (P := w ∈ [1; 5])) by (destruct Hw as [-> | ->]; face_in).
    rewrite (decide_True (P := w ∈ [1; 2; 3; 4; 5; 6])) in *
      by (destruct Hw as [-> | ->]; face_in).
    lia.
  - rewrite (decide_False (P := w ∈ [1; 5])) by (intros Hin; face_out Hin).
    destruct (decide (2 ≤ w ≤ 6)) as [Hr|Hr].
    + rewrite (decide_True (P := w ∈ [1; 2; 3; 4; 5; 6])).
      * lia.
      * assert (w = 2 ∨ w = 3 ∨ w = 4 ∨ w = 6) as Hc by lia.
        destruct Hc as [->|[->|[->| ->]]]; face_in.
    + rewrite (decide_False (P := w ∈ [1; 2; 3; 4; 5; 6])); [lia|].
      intros Hin. face_out Hin.
Qed.

Lemma flat_score_greedy (kept rolled : list Z) :
  (length rolled ≤ 6)%nat →
  (∀ w, occurrences w kept
        = if decide (w = 1 ∨ w = 5) then occurrences w rolled
          else if decide (2 ≤ w ≤ 6) then triples_pulled (occurrences w rolled)
          else 0%nat) →
  flat_score kept = flat_score rolled.
Proof.
  intros Hlen H. unfold flat_score. cbn [foldr].
  assert (∀ w, (occurrences w rolled ≤ 6)%nat) as Hle
    by (intros w; pose proof (occurrences_le_length w rolled); lia).
  rewrite (H 1), (H 2), (H 3), (H 4), (H 5), (H 6).
  rewrite (decide_True (P := 1 = 1 ∨ 1 = 5)) by auto.
  rewrite (decide_True (P := 5 = 1 ∨ 5 = 5)) by auto.
  rewrite !(decide_False (P := _ ∨ _)) by lia.
  rewrite !decide_True by lia.
  rewrite !flat_group_triples by (first [lia | apply Hle]). reflexivity.
Qed.

Lemma pool_ids_nodup (ds : list Die) : pool_ids ds → NoDup (id <$> ds).
Proof. unfold pool_ids. intros ->. apply (bool_decide_unpack _). reflexivity. Qed.

(** X17.  The greedy player.  [computerMove] does nothing in status Win
    and stops after its roll when the roll is a Farkle.  Otherwise, on a
    pool with the six ids 0..5, it leaves the status Rolling and the turn
    score of its roll, keeps every 1 and every 5 that was rolled, and its
    keep score is the evaluator's score of all the dice it rolled: it
    always takes everything that scores. *)
Theorem computer_move_keeps_all_that_scores :
  ∀ (rnd : nat → Q) (s : TS.Engine),
    (TS.status s = Win → TS.computerMove rnd s = s)
    ∧ (TS.status s ≠ Win → TS.status (TS.roll rnd s) = Farkle →
       TS.computerMove rnd s = TS.roll rnd s)
    ∧ (TS.status s ≠ Win → TS.status (TS.roll rnd s) ≠ Farkle →
       pool_ids (TS.dice s) →
       let r := TS.roll rnd s in
       let s' := TS.computerMove rnd s in
       TS.status s' = Rolling
       ∧ TS.turnScore s' = TS.turnScore r
       ∧ id <$> TS.dice s' = id <$> TS.dice r
       ∧ TS.currentKeepScore s'
         = TS.evaluateScoring (filter (λ d, state d = Rolled) (TS.dice r))
       ∧ count_in Kept 1 (TS.dice s') = count_in Rolled 1 (TS.dice r)
       ∧ count_in Kept 5 (TS.dice s') = count_in Rolled 5 (TS.dice r)).
Proof.
  intros rnd s. split; [|split].
  - intros Hw. unfold TS.computerMove. rewrite decide_True by exact Hw. reflexivity.
  - intros Hw Hf. unfold TS.computerMove. rewrite decide_False by exact Hw.
    cbv zeta. rewrite decide_True by exact Hf. reflexivity.
  - intros Hw Hf Hpool r s'. subst r s'.
    assert (NoDup (id <$> TS.dice (TS.roll rnd s))) as Hnd.
    { rewrite ts_roll_ids. apply pool_ids_nodup, Hpool. }
    pose proof (greedy_selection (TS.dice (TS.roll rnd s)) Hnd (ts_roll_no_kept rnd s)) as G.
    cbv zeta in G. destruct G as [Gids Gocc].
    assert (length (value <$> filter (λ d, state d = Rolled) (TS.dice (TS.roll rnd s))) ≤ 6)%nat
      as Hlen.
    { rewrite length_fmap. etransitivity; [apply length_filter|].
      rewrite <- (length_fmap id), ts_roll_ids, Hpool. reflexivity. }
    unfold TS.computerMove. rewrite decide_False by exact Hw.
    cbv zeta. rewrite decide_False by exact Hf.
    cbn [TS.status TS.turnScore TS.dice TS.currentKeepScore TS.recalcKeepScore TS.with_dice].
    split. { destruct (ts_roll_status rnd s) as [H|H]; [exact H|contradiction]. }
    split; [reflexivity|]. split; [exact Gids|]. split; [|split].
    + rewrite !ts_evaluateScoring_flat. apply flat_score_greedy; [exact Hlen|exact Gocc].
    + rewrite <- !occurrences_values_in. unfold values_in.
      pose proof (Gocc 1) as G1. rewrite decide_True in G1 by auto. exact G1.
    + rewrite <- !occurrences_values_in. unfold values_in.
      pose proof (Gocc 5) as G5. rewrite decide_True in G5 by auto. exact G5.
Qed.

Lemma computer_move_keeps_all_that_scores_witness :
  TS.currentKeepScore
    (TS.computerMove (scripted [1 # 6; 1 # 6; 1 # 6; 1 # 3; 5 # 6; 2 # 3] (1 # 6))%Q
       (TS.new_engine ["Player"; "Computer"] ts_dud))
  = TS.evaluateScoring
      (filter (λ d, state d = Rolled)
         (TS.dice (TS.roll (scripted [1 # 6; 1 # 6; 1 # 6; 1 # 3; 5 # 6; 2 # 3] (1 # 6))%Q
                     (TS.new_engine ["Player"; "Computer"] ts_dud)))).
Proof.
  apply (proj2 (proj2 (computer_move_keeps_all_that_scores
                         (scripted [1 # 6; 1 # 6; 1 # 6; 1 # 3; 5 # 6; 2 # 3] (1 # 6))%Q
                         (TS.new_engine ["Player"; "Computer"] ts_dud)))).
  - vm_compute. discriminate.
  - vm_compute. discriminate.
  - reflexivity.
Defined.

Example computer_move_example :
  let s' := TS.computerMove
              (scripted [1 # 6; 1 # 6; 1 # 6; 1 # 3; 5 # 6; 2 # 3] (1 # 6))%Q
              (TS.new_engine ["Player"; "Computer"] ts_dud) in
  TS.dice s' = [mkDie 0 1 Kept; mkDie 1 1 Kept; mkDie 2 1 Kept;
                mkDie 3 2 Rolled; mkDie 4 5 Kept; mkDie 5 4 Rolled]
  ∧ TS.currentKeepScore s' = 1050.
Proof. vm_compute. split; reflexivity. Qed.

(** ** Kept dice are sets and singles (TypeScript) *)

Lemma no_kept_in_triples (ds : list Die) :
  filter (λ d, state d = Kept) ds = [] → kept_in_triples ds.
Proof.
  intros H v _ _. apply no_kept_length in H.
  pose proof (count_in_le_state v Kept ds).
  assert (count_in Kept v ds = 0%nat) as -> by lia. reflexivity.
Qed.

Lemma ts_toggleKeep_triples (dieId : Z) (s : TS.Engine) :
  kept_in_triples (TS.dice s) → kept_in_triples (TS.dice (TS.toggleKeep dieId s)).
Proof.
  intros Hs. unfold TS.toggleKeep.
  destruct (decide (TS.status s ≠ Rolling)); [exact Hs|].
  destruct (list_find _ _) as [[i d]|] eqn:Hf; [|exact Hs].
  pose proof (list_find_lookup _ _ _ _ Hf) as [Hl _].
  destruct (decide (state d = Banked)); [exact Hs|].
  destruct (decide (state d = Kept)) as [Hk|Hk].
  { cbn [TS.dice TS.recalcKeepScore TS.with_dice]. intros v H1 H5.
    destruct (decide (v = value d)) as [->|Hv].
    - destruct (unkeep_value_counts (value d) (TS.dice s)) as [-> _]. reflexivity.
    - rewrite unkeep_value_other by exact Hv. apply Hs; assumption. }
  destruct (decide (3 ≤ _)%nat) as [Hn|Hn].
  - cbn [TS.dice TS.recalcKeepScore TS.with_dice]. intros v H1 H5.
    destruct (decide (v = value d)) as [->|Hv].
    + rewrite promote_kept_count. fold (count_in Rolled (value d) (TS.dice s)) in Hn.
      rewrite Nat.min_l by exact Hn.
      replace (count_in Kept (value d) (TS.dice s) + 3)%nat
        with (count_in Kept (value d) (TS.dice s) + 1 * 3)%nat by lia.
      rewrite Nat.Div0.mod_add. apply Hs; assumption.
    + rewrite promote_other by exact Hv. apply Hs; assumption.
  - destruct (decide (value d = 1 ∨ value d = 5)) as [Hv|Hv];
      cbn [TS.dice TS.recalcKeepScore TS.with_dice]; [|exact Hs].
    intros v H1 H5. rewrite (count_in_insert_kept v _ i d Hl Hk).
    rewrite decide_False by (intros <-; tauto).
    rewrite Nat.add_0_r. apply Hs; assumption.
Qed.

Lemma triples_pulled_mod (m : nat) : (triples_pulled m mod 3 = 0)%nat.
Proof. unfold triples_pulled. repeat case_decide; reflexivity. Qed.

Lemma ts_computerMove_triples (rnd : nat → Q) (s : TS.Engine) :
  pool_ids (TS.dice s) → kept_in_triples (TS.dice s) →
  kept_in_triples (TS.dice (TS.computerMove rnd s)).
Proof.
  intros Hpool Hs.
  destruct (decide (TS.status s = Win)) as [Hw|Hw].
  { unfold TS.computerMove. rewrite decide_True by exact Hw. exact Hs. }
  destruct (decide (TS.status (TS.roll rnd s) = Farkle)) as [Hf|Hf].
  { unfold TS.computerMove. rewrite decide_False by exact Hw. cbv zeta.
    rewrite decide_True by exact Hf. apply no_kept_in_triples, ts_roll_no_kept. }
  assert (NoDup (id <$> TS.dice (TS.roll rnd s))) as Hnd.
  { rewrite ts_roll_ids. apply pool_ids_nodup, Hpool. }
  pose proof (greedy_selection (TS.dice (TS.roll rnd s)) Hnd (ts_roll_no_kept rnd s)) as G.
  cbv zeta in G. destruct G as [_ Gocc].
  unfold TS.computerMove. rewrite decide_False by exact Hw. cbv zeta.
  rewrite decide_False by exact Hf.
  cbn [TS.dice TS.recalcKeepScore TS.with_dice].
  intros v H1 H5. rewrite <- occurrences_values_in. unfold values_in.
  pose proof (Gocc v) as Gv. rewrite decide_False in Gv by tauto.
  etransitivity; [apply (f_equal (λ n, n mod 3)%nat); exact Gv|].
  destruct (decide (2 ≤ v ≤ 6)); [apply triples_pulled_mod|reflexivity].
Qed.

Lemma ts_reachable_triples (s : TS.Engine) : TS.reachable s → kept_in_triples (TS.dice s).
Proof.
  induction 1 as [names rnd|rnd s _ IH|dieId s _ IH|rnd s s' _ IH Hb|rnd s s' _ IH Hp
                 |rnd s Hs IH].
  - apply no_kept_in_triples, createDice_no_kept.
  - apply no_kept_in_triples, ts_roll_no_kept.
  - apply ts_toggleKeep_triples, IH.
  - destruct (ts_bank_cases rnd s s' Hb) as [(-> & _)|(p & _ & [[_ ->]|[_ Hpt]])].
    + exact IH.
    + apply no_kept_in_triples. cbn. apply bank_kept_no_kept.
    + unfold TS.passTurn in Hpt. case_match; [|discriminate]. injection Hpt as <-.
      apply no_kept_in_triples, createDice_no_kept.
  - unfold TS.passTurn in Hp. case_match; [|discriminate]. injection Hp as <-.
    apply no_kept_in_triples, createDice_no_kept.
  - apply ts_computerMove_triples; [apply ts_reachable_ids, Hs|exact IH].
Qed.

Lemma flat_score_ge_group (v : Z) (vs : list Z) :
  1 ≤ v ≤ 6 → flat_group v (occurrences v vs) ≤ flat_score vs.
Proof.
  intros Hv.
  assert (∀ w c, 1 ≤ w ≤ 6 → 0 ≤ flat_group w c) as Hg.
  { intros w c Hw. unfold flat_group, base_score. repeat case_decide; nia. }
  unfold flat_score. cbn [foldr].
  pose proof (Hg 1 (occurrences 1 vs)). pose proof (Hg 2 (occurrences 2 vs)).
  pose proof (Hg 3 (occurrences 3 vs)). pose proof (Hg 4 (occurrences 4 vs)).
  pose proof (Hg 5 (occurrences 5 vs)). pose proof (Hg 6 (occurrences 6 vs)).
  assert (v = 1 ∨ v = 2 ∨ v = 3 ∨ v = 4 ∨ v = 5 ∨ v = 6) as Hc by lia.
  destruct Hc as [->|[->|[->|[->|[->| ->]]]]]; lia.
Qed.

(** X18.  "Valid units (Sets or Singles)".  In every reachable state of
    the TypeScript engine the Kept dice of a face other than 1 and 5 come
    in threes, so the flat scoring of the evaluator leaves no Kept die
    unscored: once a die with a face in 1..6 is Kept, the keep score is
    positive. *)
Theorem kept_dice_are_sets_and_singles :
  ∀ s : TS.Engine, TS.reachable s →
    (∀ v, v ≠ 1 → v ≠ 5 → (count_in Kept v (TS.dice s) mod 3 = 0)%nat)
    ∧ (∀ d, d ∈ TS.dice s → state d = Kept → 1 ≤ value d ≤ 6 →
            0 < TS.currentKeepScore s).
Proof.
  intros s Hs. pose proof (ts_reachable_triples s Hs) as Hg. split; [exact Hg|].
  intros d Hd Hk Hv. rewrite (ts_reachable_sync s Hs), ts_evaluateScoring_flat.
  eapply Z.lt_le_trans; [|apply (flat_score_ge_group (value d)); exact Hv].
  change (value <$> filter (λ d0, state d0 = Kept) (TS.dice s))
    with (values_in Kept (TS.dice s)).
  rewrite occurrences_values_in.
  assert (0 < count_in Kept (value d) (TS.dice s))%nat as Hpos.
  { unfold count_in. apply list_elem_of_In, (in_split d) in Hd.
    destruct Hd as (l1 & l2 & ->). rewrite filter_app, filter_cons, decide_True by auto.
    rewrite length_app. cbn. lia. }
  pose proof (flat_group_zero (value d) (count_in Kept (value d) (TS.dice s)) Hv) as Hz.
  assert (0 ≤ flat_group (value d) (count_in Kept (value d) (TS.dice s))) as Hnn.
  { unfold flat_group, base_score. repeat case_decide; nia. }
  destruct (decide (flat_group (value d) (count_in Kept (value d) (TS.dice s)) = 0))
    as [E|E]; [|lia].
  apply Hz in E. destruct (decide (value d = 1 ∨ value d = 5)) as [|Hne]; [lia|].
  specialize (Hg (value d) ltac:(tauto) ltac:(tauto)).
  set (c := count_in Kept (value d) (TS.dice s)) in *.
  destruct c as [|[|[|c]]]; try lia; cbn in Hg; discriminate.
Qed.

Lemma kept_dice_are_sets_and_singles_witness :
  0 < TS.currentKeepScore ts_four_twos.
Proof.
  apply (proj2 (kept_dice_are_sets_and_singles ts_four_twos
                  (TS.reach_toggleKeep 0 _ (TS.reach_roll _ _ (TS.reach_new _ _))))
           (mkDie 0 2 Kept)).
  - apply list_elem_of_lookup. exists 0%nat. vm_compute. reflexivity.
  - reflexivity.
  - cbn. lia.
Defined.

(** ** The tables of counts *)

Lemma getCounts_entries_from (dice : list Die) (counts : gmap Z nat) (v : Z) :
  foldl (λ counts d, <[value d := (default 0 (counts !! value d) + 1)%nat]> counts)
        counts dice !! v
  = if decide (occurrences v (value <$> dice) = 0%nat) then counts !! v
    else Some (default 0 (counts !! v) + occurrences v (value <$> dice))%nat.
Proof.
  revert counts. induction dice as [|d dice IH]; intros counts; [reflexivity|].
  rewrite fmap_cons. cbn [foldl]. rewrite IH, occurrences_cons.
  destruct (decide (value d = v)) as [<-|Hne].
  - rewrite lookup_insert_eq. cbn [default from_option Datatypes.id].
    rewrite (decide_False (P := (1 + _)%nat = 0%nat)) by lia.
    destruct (decide (occurrences (value d) (value <$> dice) = 0%nat)) as [->|_];
      f_equal; lia.
  - rewrite lookup_insert_ne by exact Hne. reflexivity.
Qed.

Lemma count_values_entries_from (values : list Z) (counts : gmap Z nat) (v : Z) :
  foldl (λ counts v, let '(c, counts') := Cpp.subscript counts v in
                     <[v := S c]> counts') counts values !! v
  = if decide (occurrences v values = 0%nat) then counts !! v
    else Some (default 0 (counts !! v) + occurrences v values)%nat.
Proof.
  revert counts. induction values as [|x values IH]; intros counts; [reflexivity|].
  cbn [foldl]. rewrite IH, occurrences_cons.
  pose proof (subscript_fst counts x) as Hf.
  assert (∀ j, j ≠ x → snd (Cpp.subscript counts x) !! j = counts !! j) as Hs.
  { intros j Hj. unfold Cpp.subscript. destruct (counts !! x); [reflexivity|].
    cbn. apply lookup_insert_ne. congruence. }
  destruct (Cpp.subscript counts x) as [c counts']. cbn [fst snd] in Hf, Hs.
  destruct (decide (x = v)) as [->|Hne].
  - rewrite lookup_insert_eq. cbn [default from_option Datatypes.id].
    rewrite (decide_False (P := (1 + _)%nat = 0%nat)) by lia.
    destruct (decide (occurrences v values = 0%nat)) as [->|_]; f_equal; lia.
  - rewrite lookup_insert_ne by exact Hne. rewrite (Hs v) by congruence. reflexivity.
Qed.

(** X19.  The tables of counts hold one entry per face that occurs, with
    the number of its occurrences, and no entry for a face that does not
    occur: a look-up of a missing face is a miss, never a stored 0.  Both
    [getCounts] and the counting loop of the C++ engine. *)
Theorem count_tables_hold_occurring_faces :
  (∀ (dice : list Die) (v : Z),
     TS.getCounts dice !! v
     = if decide (v ∈ value <$> dice) then Some (occurrences v (value <$> dice)) else None)
  ∧ (∀ (values : list Z) (v : Z),
       Cpp.count_values values !! v
       = if decide (v ∈ values) then Some (occurrences v values) else None)
  ∧ (∀ (dice : list Die) (v : Z) (c : nat),
       TS.getCounts dice !! v = Some c → (0 < c)%nat).
Proof.
  split; [|split].
  - intros dice v. unfold TS.getCounts. rewrite getCounts_entries_from, lookup_empty.
    pose proof (occurrences_zero v (value <$> dice)) as Hz.
    destruct (decide (occurrences v (value <$> dice) = 0%nat)) as [E|E];
      destruct (decide (v ∈ value <$> dice)) as [Hin|Hin]; try reflexivity; tauto.
  - intros values v. unfold Cpp.count_values.
    rewrite count_values_entries_from, lookup_empty.
    pose proof (occurrences_zero v values) as Hz.
    destruct (decide (occurrences v values = 0%nat)) as [E|E];
      destruct (decide (v ∈ values)) as [Hin|Hin]; try reflexivity; tauto.
  - intros dice v c. unfold TS.getCounts.
    rewrite getCounts_entries_from, lookup_empty.
    destruct (decide (occurrences v (value <$> dice) = 0%nat)); [discriminate|].
    intros [= <-]. cbn. lia.
Qed.

Lemma count_tables_hold_occurring_faces_witness :
  TS.getCounts [mkDie 0 1 Rolled; mkDie 1 5 Kept; mkDie 2 1 Banked] !! 1 = Some 2%nat
  ∧ (0 < 2)%nat.
Proof.
  assert (TS.getCounts [mkDie 0 1 Rolled; mkDie 1 5 Kept; mkDie 2 1 Banked] !! 1
          = Some 2%nat) as E by (vm_compute; reflexivity).
  split; [exact E|].
  exact (proj2 (proj2 count_tables_hold_occurring_faces) _ _ _ E).
Defined.

(** ** How many outcomes a roll reads *)

Lemma roll_rolled_ext (draw draw' : nat → Z) (k : nat) (ds : list Die) :
  (∀ j, (j < length ds)%nat → draw (k + j)%nat = draw' (k + j)%nat) →
  roll_rolled draw k ds = roll_rolled draw' k ds.
Proof.
  revert k. induction ds as [|d ds IH]; intros k H; [reflexivity|].
  cbn [roll_rolled]. destruct (decide (state d = Rolled)).
  - rewrite (IH (S k)).
    + pose proof (H 0%nat ltac:(cbn; lia)) as H0. rewrite Nat.add_0_r in H0.
      rewrite H0. reflexivity.
    + intros j Hj. replace (S k + j)%nat with (k + S j)%nat by lia.
      apply H. cbn. lia.
  - rewrite (IH k); [reflexivity|]. intros j Hj.
    destruct (decide (state d = Rolled)); [contradiction|].
    (* a die that is not rolled consumes no outcome: shift by the rest *)
    apply (H j). cbn. lia.
Qed.

(** X20.  A roll reads at most one outcome of the source per die of the
    pool, the first ones: two sources that agree on as many outcomes as the
    pool has dice give the same roll, in either engine. *)
Theorem roll_reads_one_outcome_per_die :
  (∀ (rnd rnd' : nat → Z) (s : Cpp.Engine),
     (∀ k, (k < length (Cpp.dice s))%nat → rnd k = rnd' k) →
     Cpp.roll rnd s = Cpp.roll rnd' s)
  ∧ (∀ (rnd rnd' : nat → Q) (s : TS.Engine),
       (∀ k, (k < length (TS.dice s))%nat → rnd k = rnd' k) →
       TS.roll rnd s = TS.roll rnd' s).
Proof.
  split.
  - intros rnd rnd' s H. unfold Cpp.roll.
    match goal with |- context [roll_rolled rnd 0 ?pool] =>
      rewrite (roll_rolled_ext rnd rnd' 0 pool) end; [reflexivity|].
    intros j Hj. apply H.
    destruct (existsb _ _); unfold reset_rolled, bank_kept in Hj;
      rewrite ?length_fmap in Hj; exact Hj.
  - intros rnd rnd' s H.
    assert (∀ pool, length pool = length (TS.dice s) →
              roll_rolled (λ k, TS.face (rnd k)) 0 pool
              = roll_rolled (λ k, TS.face (rnd' k)) 0 pool) as Hext.
    { intros pool Hlen. apply roll_rolled_ext. intros j Hj. cbn.
      rewrite (H j) by lia. reflexivity. }
    unfold TS.roll.
    destruct (decide (0 < length (filter (λ d, state d = Kept) (TS.dice s)))%nat);
      match goal with |- context [decide (length ?l = 0%nat)] =>
        destruct (decide (length l = 0%nat)) end;
      rewrite Hext; try reflexivity;
      unfold reset_rolled, bank_kept; rewrite ?length_fmap; reflexivity.
Qed.

Lemma roll_reads_one_outcome_per_die_witness :
  Cpp.roll (scripted [2; 3; 4; 6; 2; 3] 1) cpp_all_kept
  = Cpp.roll (scripted [2; 3; 4; 6; 2; 3; 5; 5] 4) cpp_all_kept.
Proof.
  apply (proj1 roll_reads_one_outcome_per_die).
  intros k Hk.
  assert (length (Cpp.dice cpp_all_kept) = 6%nat) as E by reflexivity.
  rewrite E in Hk.
  destruct k as [|[|[|[|[|[|k]]]]]]; try reflexivity; lia.
Defined.

(** ** A round of passes *)

Lemma cpp_pass_turns_index (rnds : list (nat → Z)) (s : Cpp.Engine) :
  Cpp.player_scores s ≠ [] →
  ∃ s', cpp_pass_turns rnds s = Some s'
        ∧ Cpp.player_scores s' = Cpp.player_scores s
        ∧ (Cpp.current_player_index s' mod length (Cpp.player_scores s)
           = (Cpp.current_player_index s + length rnds)
             mod length (Cpp.player_scores s))%nat.
Proof.
  revert s. induction rnds as [|rnd rnds IH]; intros s Hne.
  - exists s. split; [reflexivity|]. split; [reflexivity|].
    cbn [length]. rewrite Nat.add_0_r. reflexivity.
  - unfold cpp_pass_turns. cbn [foldl mbind option_bind].
    destruct (Cpp.pass_turn rnd s) as [s1|] eqn:E1.
    2:{ unfold Cpp.pass_turn in E1. rewrite decide_False in E1; [discriminate|].
        apply nonempty_length in Hne. lia. }
    destruct (cpp_pass_turn_frame rnd s s1 E1) as (Hs & Hi & _).
    destruct (IH s1) as (s' & Hrun & Hs' & Hi'); [rewrite Hs; exact Hne|].
    exists s'. split; [exact Hrun|]. split; [congruence|].
    rewrite Hs in Hi'. rewrite Hi', Hi. cbn [length].
    rewrite Nat.Div0.add_mod_idemp_l. f_equal. lia.
Qed.

Lemma ts_passTurns_index (rnds : list (nat → Q)) (s : TS.Engine) :
  TS.players s ≠ [] →
  ∃ s', ts_passTurns rnds s = Some s'
        ∧ TS.players s' = TS.players s
        ∧ (TS.currentPlayerIndex s' mod length (TS.players s)
           = (TS.currentPlayerIndex s + length rnds) mod length (TS.players s))%nat.
Proof.
  revert s. induction rnds as [|rnd rnds IH]; intros s Hne.
  - exists s. split; [reflexivity|]. split; [reflexivity|].
    cbn [length]. rewrite Nat.add_0_r. reflexivity.
  - unfold ts_passTurns. cbn [foldl mbind option_bind].
    destruct (TS.passTurn rnd s) as [s1|] eqn:E1.
    2:{ unfold TS.passTurn in E1. cbv zeta in E1.
        destruct (TS.players s !! _) eqn:E in E1; [discriminate|].
        apply lookup_ge_None in E. apply nonempty_length in Hne.
        pose proof (Nat.mod_upper_bound (TS.currentPlayerIndex s + 1)
                      (length (TS.players s))). lia. }
    destruct (ts_passTurn_frame rnd s s1 E1) as (Hs & Hi & _).
    destruct (IH s1) as (s' & Hrun & Hs' & Hi'); [rewrite Hs; exact Hne|].
    exists s'. split; [exact Hrun|]. split; [congruence|].
    rewrite Hs in Hi'. rewrite Hi', Hi. cbn [length].
    rewrite Nat.Div0.add_mod_idemp_l. f_equal. lia.
Qed.

(** X21.  Passing the turn once for every player brings the turn back to
    the player who had it, with every total unchanged, whatever the dice
    show in between: [pass_turn] moves the turn round the table, one seat
    at a time.  Both engines. *)
Theorem round_of_passes_returns_turn :
  (∀ (rnds : list (nat → Z)) (s : Cpp.Engine),
     length rnds = length (Cpp.player_scores s) →
     (Cpp.current_player_index s < length (Cpp.player_scores s))%nat →
     ∃ s', cpp_pass_turns rnds s = Some s'
           ∧ Cpp.current_player_index s' = Cpp.current_player_index s
           ∧ Cpp.player_scores s' = Cpp.player_scores s)
  ∧ (∀ (rnds : list (nat → Q)) (s : TS.Engine),
       length rnds = length (TS.players s) →
       (TS.currentPlayerIndex s < length (TS.players s))%nat →
       ∃ s', ts_passTurns rnds s = Some s'
             ∧ TS.currentPlayerIndex s' = TS.currentPlayerIndex s
             ∧ TS.players s' = TS.players s).
Proof.
  split.
  - intros rnds s Hlen Hi.
    assert (Cpp.player_scores s ≠ []) as Hne.
    { intros E. rewrite E in Hi. cbn in Hi. lia. }
    destruct rnds as [|rnd rnds _] using rev_ind.
    { cbn in Hlen. lia. }
    destruct (cpp_pass_turns_index rnds s Hne) as (s1 & Hrun & Hs1 & Hi1).
    unfold cpp_pass_turns in *. rewrite foldl_app, Hrun. cbn [foldl mbind option_bind].
    destruct (Cpp.pass_turn rnd s1) as [s'|] eqn:E.
    2:{ unfold Cpp.pass_turn in E. rewrite decide_False in E; [discriminate|].
        rewrite Hs1. lia. }
    destruct (cpp_pass_turn_frame rnd s1 s' E) as (Hs & Hidx & _).
    exists s'. split; [reflexivity|]. split; [|congruence].
    rewrite Hidx, Hs1. rewrite <- Nat.Div0.add_mod_idemp_l, Hi1.
    rewrite Nat.Div0.add_mod_idemp_l.
    rewrite length_app in Hlen. cbn [length] in Hlen.
    replace (Cpp.current_player_index s + length rnds + 1)%nat
      with (Cpp.current_player_index s + 1 * length (Cpp.player_scores s))%nat by lia.
    rewrite Nat.Div0.mod_add. apply Nat.mod_small. exact Hi.
  - intros rnds s Hlen Hi.
    assert (TS.players s ≠ []) as Hne.
    { intros E. rewrite E in Hi. cbn in Hi. lia. }
    destruct rnds as [|rnd rnds _] using rev_ind.
    { cbn in Hlen. lia. }
    destruct (ts_passTurns_index rnds s Hne) as (s1 & Hrun & Hs1 & Hi1).
    unfold ts_passTurns in *. rewrite foldl_app, Hrun. cbn [foldl mbind option_bind].
    destruct (TS.passTurn rnd s1) as [s'|] eqn:E.
    2:{ unfold TS.passTurn in E. cbv zeta in E.
        destruct (TS.players s1 !! _) eqn:E' in E; [discriminate|].
        apply lookup_ge_None in E'. rewrite Hs1 in E'.
        pose proof (Nat.mod_upper_bound (TS.currentPlayerIndex s1 + 1)
                      (length (TS.players s))). lia. }
    destruct (ts_passTurn_frame rnd s1 s' E) as (Hs & Hidx & _).
    exists s'. split; [reflexivity|]. split; [|congruence].
    rewrite Hidx, Hs1. rewrite <- Nat.Div0.add_mod_idemp_l, Hi1.
    rewrite Nat.Div0.add_mod_idemp_l.
    rewrite length_app in Hlen. cbn [length] in Hlen.
    replace (TS.currentPlayerIndex s + length rnds + 1)%nat
      with (TS.currentPlayerIndex s + 1 * length (TS.players s))%nat by lia.
    rewrite Nat.Div0.mod_add. apply Nat.mod_small. exact Hi.
Qed.

Lemma round_of_passes_returns_turn_witness :
  ∃ s', cpp_pass_turns [scripted [2; 3] 4; scripted [1; 1; 5] 6]
          (Cpp.new_engine 2 (scripted [] 1)) = Some s'
        ∧ Cpp.current_player_index s'
          = Cpp.current_player_index (Cpp.new_engine 2 (scripted [] 1))
        ∧ Cpp.player_scores s' = Cpp.player_scores (Cpp.new_engine 2 (scripted [] 1)).
Proof.
  apply (proj1 round_of_passes_returns_turn); vm_compute; [reflexivity|lia].
Defined.
